(** * Wren object model: values, UTF-8, strings, lists, maps and classes

    A shallow embedding of [src/vm/wren_utils.c] and [src/vm/wren_value.c]
    and the properties of the object model that are checked against it.

    Conventions of the embedding:
    - a C integer is a [Z]; where the C type is unsigned the wrap-around is
      written out with [uint8] and [uint32];
    - a byte buffer is a [list Z] of bytes; reading outside the buffer is an
      error ([None], or [OutOfBounds] in [outcome]);
    - a [while (true)] loop runs on fuel; running out of fuel is [Hangs], and
      the fuel given is shown to be enough whenever the loop can stop at all;
    - a double is the [Z] of its 64 IEEE-754 bits. *)

From stdpp Require Import base numbers option list gmap.
From Stdlib Require Import ZArith Lia.

Local Open Scope Z_scope.

(** ** Machine integers *)

Definition uint8 (x : Z) : Z := x mod 2 ^ 8.
Definition uint32 (x : Z) : Z := x mod 2 ^ 32.

Definition UINT8_MAX : Z := 255.
Definition UINT32_MAX : Z := 4294967295.

(** What a function of the C code can do when called: return, loop for ever,
    or index an array outside its bounds. *)
Inductive outcome (A : Type) : Type :=
  | Returns (a : A)
  | Hangs
  | OutOfBounds.
Arguments Returns {A} a.
Arguments Hangs {A}.
Arguments OutOfBounds {A}.

Definition obind {A B} (m : outcome A) (k : A -> outcome B) : outcome B :=
  match m with
  | Returns a => k a
  | Hangs => Hangs
  | OutOfBounds => OutOfBounds
  end.

Notation "'do' x <- m ; k" := (obind m (fun x => k))
  (at level 10, x pattern, m at level 100, k at level 200).

(** ** UTF-8 (wren_utils.c) *)

Module Utf8.

(** [wrenUtf8NumBytes]. The [ASSERT] on negative values is compiled out of
    release builds and is not part of the model. *)
Definition wrenUtf8NumBytes (value : Z) : Z :=
  if value <=? 0x7f then 1
  else if value <=? 0x7ff then 2
  else if value <=? 0xffff then 3
  else if value <=? 0x10ffff then 4
  else 0.

(** [wrenUtf8Encode]: the bytes stored through [bytes], in the order of the
    stores ([*bytes = ...; bytes++; ...]). Each store converts to [uint8_t].
    The last branch is the failed [ASSERT]: nothing is stored. *)
Definition wrenUtf8Encode (value : Z) : list Z :=
  if value <=? 0x7f then
    [uint8 (Z.land value 0x7f)]
  else if value <=? 0x7ff then
    [uint8 (Z.lor 0xc0 (Z.shiftr (Z.land value 0x7c0) 6));
     uint8 (Z.lor 0x80 (Z.land value 0x3f))]
  else if value <=? 0xffff then
    [uint8 (Z.lor 0xe0 (Z.shiftr (Z.land value 0xf000) 12));
     uint8 (Z.lor 0x80 (Z.shiftr (Z.land value 0xfc0) 6));
     uint8 (Z.lor 0x80 (Z.land value 0x3f))]
  else if value <=? 0x10ffff then
    [uint8 (Z.lor 0xf0 (Z.shiftr (Z.land value 0x1c0000) 18));
     uint8 (Z.lor 0x80 (Z.shiftr (Z.land value 0x3f000) 12));
     uint8 (Z.lor 0x80 (Z.shiftr (Z.land value 0xfc0) 6));
     uint8 (Z.lor 0x80 (Z.land value 0x3f))]
  else [].

(** The [while (remainingBytes > 0)] loop of [wrenUtf8Decode]. [pos] is the
    offset of [bytes] from the start of the buffer; [bytes++] then [*bytes]
    reads offset [pos + 1]. A read outside the buffer is [None]. *)
Fixpoint decodeLoop (buf : list Z) (pos : nat) (remainingBytes : nat)
    (value : Z) : option Z :=
  match remainingBytes with
  | O => Some value
  | S remaining =>
      match buf !! S pos with
      | None => None
      | Some b =>
          if negb (Z.land b 0xc0 =? 0x80) then Some (-1)
          else decodeLoop buf (S pos) remaining
                 (Z.lor (Z.shiftl value 6) (Z.land b 0x3f))
      end
  end.

(** [wrenUtf8Decode(bytes, length)] on the buffer [buf] that [bytes] points
    to. [length - 1] is computed in [uint32_t]. *)
Definition wrenUtf8Decode (buf : list Z) (length : Z) : option Z :=
  match buf !! O with
  | None => None
  | Some b0 =>
      if b0 <=? 0x7f then Some b0
      else
        let header :=
          if Z.land b0 0xe0 =? 0xc0 then Some (Z.land b0 0x1f, 1)
          else if Z.land b0 0xf0 =? 0xe0 then Some (Z.land b0 0x0f, 2)
          else if Z.land b0 0xf8 =? 0xf0 then Some (Z.land b0 0x07, 3)
          else None in
        match header with
        | None => Some (-1)
        | Some (value, remainingBytes) =>
            if remainingBytes >? uint32 (length - 1) then Some (-1)
            else decodeLoop buf O (Z.to_nat remainingBytes) value
        end
  end.

(** The number of continuation bytes that the lead byte [b0] of a UTF-8
    sequence announces, if it is a lead byte. *)
Definition announcedBytes (b0 : Z) : option Z :=
  if b0 <=? 0x7f then Some 0
  else if Z.land b0 0xe0 =? 0xc0 then Some 1
  else if Z.land b0 0xf0 =? 0xe0 then Some 2
  else if Z.land b0 0xf8 =? 0xf0 then Some 3
  else None.

End Utf8.

(** ** Values (wren_value.h, wren_value.c) *)

Module Value.

(** An object is known to a [Value] by its address. *)
Definition ObjPtr : Type := Z.

Inductive ObjType : Type :=
  | OBJ_CLASS | OBJ_CLOSURE | OBJ_FIBER | OBJ_FN | OBJ_INSTANCE | OBJ_LIST
  | OBJ_MAP | OBJ_MODULE | OBJ_RANGE | OBJ_STRING | OBJ_UPVALUE.

Definition ObjType_eqb (a b : ObjType) : bool :=
  match a, b with
  | OBJ_CLASS, OBJ_CLASS | OBJ_CLOSURE, OBJ_CLOSURE | OBJ_FIBER, OBJ_FIBER
  | OBJ_FN, OBJ_FN | OBJ_INSTANCE, OBJ_INSTANCE | OBJ_LIST, OBJ_LIST
  | OBJ_MAP, OBJ_MAP | OBJ_MODULE, OBJ_MODULE | OBJ_RANGE, OBJ_RANGE
  | OBJ_STRING, OBJ_STRING | OBJ_UPVALUE, OBJ_UPVALUE => true
  | _, _ => false
  end.

(** [ObjString]: the bytes of [value] without the terminating zero. *)
Record ObjString : Type := {
  string_length : Z;
  string_hash : Z;
  string_value : list Z
}.

(** The objects as [hashObject] and [wrenValuesEqual] read them. A class holds
    a pointer to its name, an immutable string: the model holds the string.
    The fields of the other kinds of object are read by neither function. *)
Inductive Obj : Type :=
  | ObjClass (name : ObjString)
  | ObjFiber (id : Z)
  | ObjRange (from to : Z) (isInclusive : bool)
  | ObjStr (s : ObjString)
  | ObjOther (type : ObjType).

Definition obj_type (o : Obj) : ObjType :=
  match o with
  | ObjClass _ => OBJ_CLASS
  | ObjFiber _ => OBJ_FIBER
  | ObjRange _ _ _ => OBJ_RANGE
  | ObjStr _ => OBJ_STRING
  | ObjOther t => t
  end.

(** The two 32-bit halves of a 64-bit pattern ([DoubleBits.bits32]). *)
Definition bits32_0 (bits64 : Z) : Z := bits64 mod 2 ^ 32.
Definition bits32_1 (bits64 : Z) : Z := (bits64 / 2 ^ 32) mod 2 ^ 32.

(** [hashNumber], on the bits of the double. *)
Definition hashNumber (num : Z) : Z := Z.lxor (bits32_0 num) (bits32_1 num).

(** [hashObject]. The [default] branch is the failed [ASSERT]; it returns 0. *)
Definition hashObject (object : Obj) : Z :=
  match object with
  | ObjClass name => string_hash name
  | ObjFiber id => id
  | ObjRange from to _ => Z.lxor (hashNumber from) (hashNumber to)
  | ObjStr s => string_hash s
  | ObjOther _ => 0
  end.

(** The C comparison [a == b] of two doubles, on their bits: false when
    either is a NaN, true for two zeros of either sign. *)
Definition double_is_nan (b : Z) : bool :=
  (Z.land (Z.shiftr b 52) 0x7ff =? 0x7ff) && negb (Z.land b 0xfffffffffffff =? 0).

Definition double_is_zero (b : Z) : bool := Z.land b 0x7fffffffffffffff =? 0.

Definition double_eq (a b : Z) : bool :=
  negb (double_is_nan a) && negb (double_is_nan b)
  && ((a =? b) || (double_is_zero a && double_is_zero b)).

(** [memcmp(a, b, n) == 0]. *)
Definition memcmp_eq (a b : list Z) (n : Z) : bool :=
  bool_decide (take (Z.to_nat n) a = take (Z.to_nat n) b).

(** The surface that both encodings of a [Value] offer (wren_value.h). *)
Class ValueRep (Value : Type) : Type := {
  FALSE_VAL : Value;
  NULL_VAL : Value;
  TRUE_VAL : Value;
  UNDEFINED_VAL : Value;
  NUM_VAL : Z -> Value;
  OBJ_VAL : ObjPtr -> Value;
  IS_FALSE : Value -> bool;
  IS_NULL : Value -> bool;
  IS_NUM : Value -> bool;
  IS_OBJ : Value -> bool;
  IS_UNDEFINED : Value -> bool;
  AS_NUM : Value -> Z;
  AS_OBJ : Value -> ObjPtr;
  wrenValuesSame : Value -> Value -> bool;
  (** [hashValue] has one body for each encoding, see below. *)
  hashValue : (ObjPtr -> Obj) -> Value -> Z
}.

(** *** NaN tagging: a value is 64 bits *)

(** Modelled from the spec: wren_value.h is not among the sources. The spec
    describes the encoding as a double whose quiet-NaN patterns carry a
    three-bit tag; the numbers below are those of the Wren header. *)
Definition SIGN_BIT : Z := 0x8000000000000000.
Definition QNAN : Z := 0x7ffc000000000000.
Definition TAG_NAN : Z := 0.
Definition TAG_NULL : Z := 1.
Definition TAG_FALSE : Z := 2.
Definition TAG_TRUE : Z := 3.
Definition TAG_UNDEFINED : Z := 4.

Definition NanValue : Type := Z.

Definition nan_FALSE_VAL : NanValue := Z.lor QNAN TAG_FALSE.
Definition nan_NULL_VAL : NanValue := Z.lor QNAN TAG_NULL.
Definition nan_TRUE_VAL : NanValue := Z.lor QNAN TAG_TRUE.
Definition nan_UNDEFINED_VAL : NanValue := Z.lor QNAN TAG_UNDEFINED.
Definition nan_NUM_VAL (bits : Z) : NanValue := bits.
Definition nan_OBJ_VAL (obj : ObjPtr) : NanValue := Z.lor (Z.lor SIGN_BIT QNAN) obj.
Definition nan_IS_NUM (v : NanValue) : bool := negb (Z.land v QNAN =? QNAN).
Definition nan_IS_OBJ (v : NanValue) : bool :=
  Z.land v (Z.lor QNAN SIGN_BIT) =? Z.lor QNAN SIGN_BIT.
Definition nan_AS_OBJ (v : NanValue) : ObjPtr :=
  Z.land v (Z.lxor (Z.ones 64) (Z.lor SIGN_BIT QNAN)).

(** [hashValue], the branch [#if WREN_NAN_TAGGING]. *)
Definition nan_hashValue (heap : ObjPtr -> Obj) (value : NanValue) : Z :=
  if nan_IS_OBJ value then hashObject (heap (nan_AS_OBJ value))
  else Z.lxor (bits32_0 value) (bits32_1 value).

(** Modelled from the spec: the macros and [wrenValuesSame] of wren_value.h
    for this encoding; two values are the same when their bits are. *)
#[export] Instance NanTagging : ValueRep NanValue := {|
  FALSE_VAL := nan_FALSE_VAL;
  NULL_VAL := nan_NULL_VAL;
  TRUE_VAL := nan_TRUE_VAL;
  UNDEFINED_VAL := nan_UNDEFINED_VAL;
  NUM_VAL := nan_NUM_VAL;
  OBJ_VAL := nan_OBJ_VAL;
  IS_FALSE := fun v => v =? nan_FALSE_VAL;
  IS_NULL := fun v => v =? nan_NULL_VAL;
  IS_NUM := nan_IS_NUM;
  IS_OBJ := nan_IS_OBJ;
  IS_UNDEFINED := fun v => v =? nan_UNDEFINED_VAL;
  AS_NUM := fun v => v;
  AS_OBJ := nan_AS_OBJ;
  wrenValuesSame := fun a b => a =? b;
  hashValue := nan_hashValue
|}.

(** *** Tagged union: a tag and a payload *)

(** Modelled from the spec: the struct of wren_value.h is not among the
    sources; the tags are those of the [switch] in [hashValue]. *)
Inductive UnionValue : Type :=
  | VAL_FALSE
  | VAL_NULL
  | VAL_NUM (num : Z)
  | VAL_TRUE
  | VAL_UNDEFINED
  | VAL_OBJ (obj : ObjPtr).

(** [hashValue], the branch [#else]. [default] is [UNREACHABLE]. *)
Definition union_hashValue (heap : ObjPtr -> Obj) (value : UnionValue) : Z :=
  match value with
  | VAL_FALSE => 0
  | VAL_NULL => 1
  | VAL_NUM num => hashNumber num
  | VAL_TRUE => 2
  | VAL_OBJ obj => hashObject (heap obj)
  | VAL_UNDEFINED => 0
  end.

(** Modelled from the spec: [wrenValuesSame] of wren_value.h, "tag equality;
    for numbers this is IEEE-754 equality", objects by address. *)
Definition union_wrenValuesSame (a b : UnionValue) : bool :=
  match a, b with
  | VAL_FALSE, VAL_FALSE | VAL_NULL, VAL_NULL | VAL_TRUE, VAL_TRUE
  | VAL_UNDEFINED, VAL_UNDEFINED => true
  | VAL_NUM x, VAL_NUM y => double_eq x y
  | VAL_OBJ p, VAL_OBJ q => p =? q
  | _, _ => false
  end.

(** Modelled from the spec: the macros of wren_value.h for this encoding. *)
#[export] Instance TaggedUnion : ValueRep UnionValue := {|
  FALSE_VAL := VAL_FALSE;
  NULL_VAL := VAL_NULL;
  TRUE_VAL := VAL_TRUE;
  UNDEFINED_VAL := VAL_UNDEFINED;
  NUM_VAL := VAL_NUM;
  OBJ_VAL := VAL_OBJ;
  IS_FALSE := fun v => match v with VAL_FALSE => true | _ => false end;
  IS_NULL := fun v => match v with VAL_NULL => true | _ => false end;
  IS_NUM := fun v => match v with VAL_NUM _ => true | _ => false end;
  IS_OBJ := fun v => match v with VAL_OBJ _ => true | _ => false end;
  IS_UNDEFINED := fun v => match v with VAL_UNDEFINED => true | _ => false end;
  AS_NUM := fun v => match v with VAL_NUM n => n | _ => 0 end;
  AS_OBJ := fun v => match v with VAL_OBJ p => p | _ => 0 end;
  wrenValuesSame := union_wrenValuesSame;
  hashValue := union_hashValue
|}.

(** What the map code relies on: the undefined value is recognised as
    undefined and the false value as false. *)
Class ValueRepOk (Value : Type) `{ValueRep Value} : Prop := {
  undefined_is_undefined : IS_UNDEFINED UNDEFINED_VAL = true;
  false_is_false : IS_FALSE FALSE_VAL = true
}.

Section Equality.
Context {Value : Type} `{ValueRep Value}.
Variable heap : ObjPtr -> Obj.

(** [wrenValuesEqual]. *)
Definition wrenValuesEqual (a b : Value) : bool :=
  if wrenValuesSame a b then true
  else if negb (IS_OBJ a) || negb (IS_OBJ b) then false
  else
    let aObj := heap (AS_OBJ a) in
    let bObj := heap (AS_OBJ b) in
    if negb (ObjType_eqb (obj_type aObj) (obj_type bObj)) then false
    else
      match aObj, bObj with
      | ObjRange aFrom aTo aIncl, ObjRange bFrom bTo bIncl =>
          double_eq aFrom bFrom && double_eq aTo bTo && Bool.eqb aIncl bIncl
      | ObjStr aString, ObjStr bString =>
          (string_length aString =? string_length bString)
          && (string_hash aString =? string_hash bString)
          && memcmp_eq (string_value aString) (string_value bString)
               (string_length aString)
      | _, _ => false
      end.
End Equality.

End Value.

(** ** Maps (wren_value.c) *)

Module Map.
Import Value.

Definition MIN_CAPACITY : Z := 16.
Definition GROW_FACTOR : Z := 2.
Definition MAP_LOAD_PERCENT : Z := 75.

Record MapEntry (Value : Type) : Type := {
  key : Value;
  value : Value
}.
Arguments key {Value} _.
Arguments value {Value} _.
Arguments Build_MapEntry {Value} _ _.

(** [ObjMap]: [entries] is the array of [capacity] slots ([NULL], here the
    empty list, when [capacity] is 0); [capacity] and [count] are
    [uint32_t]. *)
Record ObjMap (Value : Type) : Type := {
  capacity : Z;
  count : Z;
  entries : list (MapEntry Value)
}.
Arguments capacity {Value} _.
Arguments count {Value} _.
Arguments entries {Value} _.
Arguments Build_ObjMap {Value} _ _ _.

Inductive MapOp (Value : Type) : Type :=
  | OpSet (k v : Value)
  | OpRemoveKey (k : Value)
  | OpClear.
Arguments OpSet {Value} k v.
Arguments OpRemoveKey {Value} k.
Arguments OpClear {Value}.

Section Map.
Context {Value : Type} `{ValueRep Value}.
Variable heap : ObjPtr -> Obj.

(** [wrenNewMap]. *)
Definition wrenNewMap : ObjMap Value :=
  {| capacity := 0; count := 0; entries := [] |}.

(** The [while (true)] loop of [addEntry]: one probe for each unit of fuel.
    The result holds the returned flag and the array after the store. *)
Fixpoint addEntryLoop (fuel : nat) (entries : list (MapEntry Value))
    (capacity : Z) (k v : Value) (index : Z)
    : outcome (bool * list (MapEntry Value)) :=
  match fuel with
  | O => Hangs
  | S fuel' =>
      match entries !! Z.to_nat index with
      | None => OutOfBounds
      | Some entry =>
          if IS_UNDEFINED (key entry) then
            if IS_FALSE (value entry) then
              Returns (true, <[Z.to_nat index := {| key := k; value := v |}]> entries)
            else
              addEntryLoop fuel' entries capacity k v (uint32 (index + 1) mod capacity)
          else if wrenValuesEqual heap (key entry) k then
            Returns (false,
                     <[Z.to_nat index := {| key := key entry; value := v |}]> entries)
          else
            addEntryLoop fuel' entries capacity k v (uint32 (index + 1) mod capacity)
      end
  end.

(** [addEntry]. The probe visits the slots in cyclic order and stores nothing
    before it stops, so [capacity] probes decide whether it stops at all. *)
Definition addEntry (entries : list (MapEntry Value)) (capacity : Z)
    (k v : Value) : outcome (bool * list (MapEntry Value)) :=
  addEntryLoop (Z.to_nat capacity) entries capacity k v
    (uint32 (hashValue heap k) mod capacity).

(** The loop of [resizeMap] that adds the entries of the old array [old] to
    the new one. *)
Fixpoint reAddEntries (old : list (MapEntry Value))
    (entries : list (MapEntry Value)) (capacity : Z)
    : outcome (list (MapEntry Value)) :=
  match old with
  | [] => Returns entries
  | entry :: rest =>
      if IS_UNDEFINED (key entry) then reAddEntries rest entries capacity
      else
        do r <- addEntry entries capacity (key entry) (value entry);
        reAddEntries rest (snd r) capacity
  end.

(** [resizeMap]. *)
Definition resizeMap (map : ObjMap Value) (capacity : Z)
    : outcome (ObjMap Value) :=
  let fresh :=
    replicate (Z.to_nat capacity)
      {| key := UNDEFINED_VAL; value := FALSE_VAL |} in
  do entries <- (if 0 <? Map.capacity map
                 then reAddEntries (Map.entries map) fresh capacity
                 else Returns fresh);
  Returns {| capacity := capacity; count := count map; entries := entries |}.

(** The [while (true)] loop of [findEntry]; the result is the index of the
    entry found, [None] for [NULL]. *)
Fixpoint findEntryLoop (fuel : nat) (entries : list (MapEntry Value))
    (capacity : Z) (k : Value) (index : Z) : outcome (option Z) :=
  match fuel with
  | O => Hangs
  | S fuel' =>
      match entries !! Z.to_nat index with
      | None => OutOfBounds
      | Some entry =>
          if IS_UNDEFINED (key entry) then
            if IS_FALSE (value entry) then Returns None
            else findEntryLoop fuel' entries capacity k (uint32 (index + 1) mod capacity)
          else if wrenValuesEqual heap (key entry) k then Returns (Some index)
          else findEntryLoop fuel' entries capacity k (uint32 (index + 1) mod capacity)
      end
  end.

(** [findEntry]. *)
Definition findEntry (map : ObjMap Value) (k : Value) : outcome (option Z) :=
  if capacity map =? 0 then Returns None
  else
    findEntryLoop (Z.to_nat (capacity map)) (entries map) (capacity map) k
      (uint32 (hashValue heap k) mod capacity map).

(** [wrenMapGet]. *)
Definition wrenMapGet (map : ObjMap Value) (k : Value) : outcome Value :=
  do found <- findEntry map k;
  match found with
  | Some index =>
      match entries map !! Z.to_nat index with
      | Some entry => Returns (value entry)
      | None => OutOfBounds
      end
  | None => Returns UNDEFINED_VAL
  end.

(** [wrenMapSet]. *)
Definition wrenMapSet (map : ObjMap Value) (k v : Value)
    : outcome (ObjMap Value) :=
  do map <- (if uint32 (count map + 1)
                  >? uint32 (capacity map * MAP_LOAD_PERCENT) / 100
             then
               let capacity := uint32 (capacity map * GROW_FACTOR) in
               let capacity :=
                 if capacity <? MIN_CAPACITY then MIN_CAPACITY else capacity in
               resizeMap map capacity
             else Returns map);
  do r <- addEntry (entries map) (capacity map) k v;
  Returns {| capacity := capacity map;
             count := if fst r then uint32 (count map + 1) else count map;
             entries := snd r |}.

(** [wrenMapClear]. *)
Definition wrenMapClear (map : ObjMap Value) : ObjMap Value :=
  {| capacity := 0; count := 0; entries := [] |}.

(** [wrenMapRemoveKey]: the value returned and the map afterwards. *)
Definition wrenMapRemoveKey (map : ObjMap Value) (k : Value)
    : outcome (Value * ObjMap Value) :=
  do found <- findEntry map k;
  match found with
  | None => Returns (NULL_VAL, map)
  | Some index =>
      match entries map !! Z.to_nat index with
      | None => OutOfBounds
      | Some entry =>
          let v := value entry in
          let map :=
            {| capacity := capacity map;
               count := uint32 (count map - 1);
               entries := <[Z.to_nat index :=
                              {| key := UNDEFINED_VAL; value := TRUE_VAL |}]>
                            (entries map) |} in
          if count map =? 0 then Returns (v, wrenMapClear map)
          else if (MIN_CAPACITY <? capacity map)
                  && (count map
                        <? uint32 (capacity map / GROW_FACTOR * MAP_LOAD_PERCENT) / 100)
          then
            let capacity := capacity map / GROW_FACTOR in
            let capacity :=
              if capacity <? MIN_CAPACITY then MIN_CAPACITY else capacity in
            do map <- resizeMap map capacity;
            Returns (v, map)
          else Returns (v, map)
      end
  end.

(** One call of the map interface, and a sequence of calls. *)
Definition runOp (map : ObjMap Value) (op : MapOp Value)
    : outcome (ObjMap Value) :=
  match op with
  | OpSet k v => wrenMapSet map k v
  | OpRemoveKey k => do r <- wrenMapRemoveKey map k; Returns (snd r)
  | OpClear => Returns (wrenMapClear map)
  end.

Fixpoint runOps (map : ObjMap Value) (ops : list (MapOp Value))
    : outcome (ObjMap Value) :=
  match ops with
  | [] => Returns map
  | op :: rest => do map <- runOp map op; runOps map rest
  end.

(** *** The state of a table *)

(** The probe for the key [k] passes over [entry]: a tombstone, or another
    key. *)
Definition passesOver (k : Value) (entry : MapEntry Value) : bool :=
  if IS_UNDEFINED (key entry) then negb (IS_FALSE (value entry))
  else negb (wrenValuesEqual heap (key entry) k).

(** The slots that hold a key, and the slots that are empty (a tombstone is
    neither). *)
Definition occupies (entry : MapEntry Value) : Z :=
  if IS_UNDEFINED (key entry) then 0 else 1.

Definition isEmpty (entry : MapEntry Value) : Z :=
  if IS_UNDEFINED (key entry) && IS_FALSE (value entry) then 1 else 0.

Fixpoint total (f : MapEntry Value -> Z) (entries : list (MapEntry Value)) : Z :=
  match entries with
  | [] => 0
  | entry :: rest => f entry + total f rest
  end.

Definition occupied (entries : list (MapEntry Value)) : Z :=
  total occupies entries.

Definition emptySlots (entries : list (MapEntry Value)) : Z :=
  total isEmpty entries.

(** A map as the code keeps it: the array has [capacity] slots, the fields
    are [uint32_t], and no more slots hold a key than [count] says. *)
Definition mapWf (map : ObjMap Value) : Prop :=
  Z.of_nat (length (entries map)) = capacity map
  /\ 0 <= capacity map < 2 ^ 32
  /\ occupied (entries map) <= count map < 2 ^ 32.

(** The load invariant of the spec. Capacity 0 is the map without a table;
    any other capacity is 16 times a power of two. *)
Definition loadInvariant (map : ObjMap Value) : Prop :=
  count map <= capacity map * 75 / 100
  /\ (capacity map = 0 \/ 16 <= capacity map)
  /\ (capacity map = 0 \/ exists k : nat, capacity map = 16 * 2 ^ Z.of_nat k).

(** What every call keeps. *)
Definition tableInvariant (map : ObjMap Value) : Prop :=
  mapWf map /\ loadInvariant map.

(** Along the calls [ops] from [map], every call starts on a table of fewer
    than 2^31 slots. A table of 2^31 slots has 32 GiB of entries, and twice
    its capacity does not fit [uint32_t]. *)
Fixpoint tableFits (map : ObjMap Value) (ops : list (MapOp Value)) : bool :=
  (capacity map <? 2 ^ 31)
  && match ops with
     | [] => true
     | op :: rest =>
         match runOp map op with
         | Returns map' => tableFits map' rest
         | _ => true
         end
     end.

End Map.

End Map.

(** ** Lists (wren_value.c) *)

Module ObjList.

Definition GROW_FACTOR : Z := 2.

(** [ValueBuffer]: [data] is the array of [capacity] slots, of which the
    first [count] hold elements; [count] and [capacity] are [int]. *)
Record ValueBuffer (Value : Type) : Type := {
  data : list Value;
  count : Z;
  capacity : Z
}.
Arguments data {Value} _.
Arguments count {Value} _.
Arguments capacity {Value} _.
Arguments Build_ValueBuffer {Value} _ _ _.

Section ObjList.
Context {Value : Type}.

(** The loop [for (int i = index; i < count - 1; i++) data[i] = data[i + 1]],
    with [n] iterations left. *)
Fixpoint shiftUp (n : nat) (data : list Value) (i : nat)
    : option (list Value) :=
  match n with
  | O => Some data
  | S n' =>
      match data !! S i with
      | None => None
      | Some next => shiftUp n' (<[i := next]> data) (S i)
      end
  end.

(** Modelled from the spec: [wrenReallocate] (wren_vm.c) is not among the
    sources; shrinking an array keeps its leading elements. *)
Definition reallocateArray (data : list Value) (newCount : Z) : list Value :=
  take (Z.to_nat newCount) data.

(** [wrenListRemoveAt] on [list->elements]: the removed value and the buffer
    afterwards. [capacity / GROW_FACTOR] is the division of [int]. *)
Definition wrenListRemoveAt (elements : ValueBuffer Value) (index : Z)
    : option (Value * ValueBuffer Value) :=
  match data elements !! Z.to_nat index with
  | None => None
  | Some removed =>
      match shiftUp (Z.to_nat (count elements - 1 - index)) (data elements)
              (Z.to_nat index) with
      | None => None
      | Some shifted =>
          let elements :=
            {| data := shifted; count := count elements;
               capacity := capacity elements |} in
          let elements :=
            if Z.quot (capacity elements) GROW_FACTOR >=? count elements then
              {| data := reallocateArray (data elements)
                           (Z.quot (capacity elements) GROW_FACTOR);
                 count := count elements;
                 capacity := Z.quot (capacity elements) GROW_FACTOR |}
            else elements in
          Some (removed,
                {| data := data elements; count := count elements - 1;
                   capacity := capacity elements |})
      end
  end.

End ObjList.

End ObjList.

(** ** Classes (wren_value.c) *)

Module Classes.

Definition ObjPtr : Type := Z.

Definition int32 (x : Z) : Z := (x + 2 ^ 31) mod 2 ^ 32 - 2 ^ 31.

Inductive MethodType : Type :=
  | METHOD_PRIMITIVE
  | METHOD_FOREIGN
  | METHOD_BLOCK
  | METHOD_NONE.

(** [Method]: the tag and the payload of the union (a function pointer or an
    object pointer, as an address). *)
Record Method : Type := {
  type : MethodType;
  fn : Z
}.

(** The [noMethod] of [wrenBindMethod]; only its tag is initialised. *)
Definition noMethod : Method := {| type := METHOD_NONE; fn := 0 |}.

(** [ObjClass]. [methods] is the [data] of the method buffer and its length is
    the buffer's [count]. The name is the bytes of the name string. *)
Record ObjClass : Type := {
  classObj : option ObjPtr;
  superclass : option ObjPtr;
  numFields : Z;
  name : list Z;
  methods : list Method
}.

(** The part of the VM that class construction uses: the class objects of the
    heap by address, and [vm->classClass]. *)
Record WrenVM : Type := {
  heap : gmap Z ObjClass;
  classClass : option ObjPtr
}.

(** Assignment to one field of a class. *)
Definition set_classObj (c : ObjClass) (v : option ObjPtr) : ObjClass :=
  {| classObj := v; superclass := superclass c; numFields := numFields c;
     name := name c; methods := methods c |}.

Definition set_superclass (c : ObjClass) (v : option ObjPtr) : ObjClass :=
  {| classObj := classObj c; superclass := v; numFields := numFields c;
     name := name c; methods := methods c |}.

Definition set_numFields (c : ObjClass) (v : Z) : ObjClass :=
  {| classObj := classObj c; superclass := superclass c; numFields := v;
     name := name c; methods := methods c |}.

Definition set_methods (c : ObjClass) (v : list Method) : ObjClass :=
  {| classObj := classObj c; superclass := superclass c;
     numFields := numFields c; name := name c; methods := v |}.

(** [ALLOCATE]: an address that is not in use. A collection triggered by the
    allocation frees only objects that are not reachable, and the callers keep
    every class they use on the root stack. *)
Definition allocate (vm : WrenVM) : ObjPtr := fresh (dom (heap vm)).

Definition store (vm : WrenVM) (p : ObjPtr) (c : ObjClass) : WrenVM :=
  {| heap := <[p := c]> (heap vm); classClass := classClass vm |}.

(** [wrenNewSingleClass]. *)
Definition wrenNewSingleClass (vm : WrenVM) (numFields : Z) (name : list Z)
    : ObjPtr * WrenVM :=
  let p := allocate vm in
  (p, store vm p {| classObj := None; superclass := None;
                    numFields := numFields; name := name; methods := [] |}).

(** Modelled from the spec: [wrenMethodBufferFill] comes from the macro
    [DEFINE_BUFFER] of wren_utils.h, which is not among the sources; it
    appends [count] copies of [data]. *)
Definition wrenMethodBufferFill (buffer : list Method) (data : Method)
    (count : Z) : list Method :=
  buffer ++ replicate (Z.to_nat count) data.

(** [wrenBindMethod]. A [symbol] outside the buffer after the fill (a
    negative one) is a store outside the array. *)
Definition wrenBindMethod (vm : WrenVM) (classObj : ObjPtr) (symbol : Z)
    (method : Method) : option WrenVM :=
  match heap vm !! classObj with
  | None => None
  | Some c =>
      let count := Z.of_nat (length (methods c)) in
      let buffer :=
        if symbol >=? count
        then wrenMethodBufferFill (methods c) noMethod (symbol - count + 1)
        else methods c in
      if (0 <=? symbol) && (symbol <? Z.of_nat (length buffer)) then
        Some (store vm classObj
                (set_methods c (<[Z.to_nat symbol := method]> buffer)))
      else None
  end.

(** The loop of [wrenBindSuperclass], from symbol [i] for [n] iterations. The
    method is read from the superclass as the heap is at that iteration. *)
Fixpoint inheritMethods (n : nat) (vm : WrenVM) (subclass superclass : ObjPtr)
    (i : Z) : option WrenVM :=
  match n with
  | O => Some vm
  | S n' =>
      match heap vm !! superclass with
      | None => None
      | Some super =>
          match methods super !! Z.to_nat i with
          | None => None
          | Some method =>
              match wrenBindMethod vm subclass i method with
              | None => None
              | Some vm => inheritMethods n' vm subclass superclass (i + 1)
              end
          end
      end
  end.

(** [wrenBindSuperclass]. Binding symbol [i] below the superclass's method
    count never changes that count, so the loop runs once for each method the
    superclass has on entry. [numFields] is an [int]. *)
Definition wrenBindSuperclass (vm : WrenVM) (subclass superclass : ObjPtr)
    : option WrenVM :=
  match heap vm !! subclass with
  | None => None
  | Some sub =>
      let vm := store vm subclass (set_superclass sub (Some superclass)) in
      match heap vm !! subclass, heap vm !! superclass with
      | Some sub, Some super =>
          let vm :=
            store vm subclass
              (set_numFields sub (int32 (numFields sub + numFields super))) in
          match heap vm !! superclass with
          | None => None
          | Some super =>
              inheritMethods (length (methods super)) vm subclass superclass 0
          end
      | _, _ => None
      end
  end.

(** The result of [wrenStringFormat(vm, "@ metaclass", OBJ_VAL(name))]: the
    bytes of the name, then those of " metaclass". *)
Definition metaclassName (name : list Z) : list Z :=
  name ++ [32; 109; 101; 116; 97; 99; 108; 97; 115; 115].

(** The assignment [p->obj.classObj = cls]. *)
Definition assignClassObj (vm : WrenVM) (p : ObjPtr) (cls : option ObjPtr)
    : option WrenVM :=
  match heap vm !! p with
  | None => None
  | Some c => Some (store vm p (set_classObj c cls))
  end.

(** [wrenNewClass]. *)
Definition wrenNewClass (vm : WrenVM) (superclass : ObjPtr) (numFields : Z)
    (name : list Z) : option (ObjPtr * WrenVM) :=
  let '(metaclass, vm) := wrenNewSingleClass vm 0 (metaclassName name) in
  vm ← assignClassObj vm metaclass (classClass vm);
  root ← classClass vm;
  vm ← wrenBindSuperclass vm metaclass root;
  let '(classObj, vm) := wrenNewSingleClass vm numFields name in
  vm ← assignClassObj vm classObj (Some metaclass);
  vm ← wrenBindSuperclass vm classObj superclass;
  Some (classObj, vm).

End Classes.

(** ** Substring search (wren_value.c) *)

Module StringFind.
Import Value.

(** The loop that fills the shift table from the needle, from [index] for [n]
    iterations. The table is the list [shift]; a store outside it is
    [OutOfBounds]. *)
Fixpoint fillShift (n : nat) (needle : list Z) (needleEnd : Z)
    (shift : list Z) (index : Z) : outcome (list Z) :=
  match n with
  | O => Returns shift
  | S n' =>
      match needle !! Z.to_nat index with
      | None => OutOfBounds
      | Some c =>
          if uint8 c <? Z.of_nat (length shift) then
            fillShift n' needle needleEnd
              (<[Z.to_nat (uint8 c) := needleEnd - index]> shift) (index + 1)
          else OutOfBounds
      end
  end.

(** The search loop [for (uint32_t index = 0; index <= range; )]. *)
Fixpoint searchLoop (fuel : nat) (haystack needle : list Z)
    (needleEnd lastChar range : Z) (shift : list Z) (index : Z) : outcome Z :=
  match fuel with
  | O => Hangs
  | S fuel' =>
      if index <=? range then
        match haystack !! Z.to_nat (uint32 (index + needleEnd)) with
        | None => OutOfBounds
        | Some c =>
            if (lastChar =? c)
               && memcmp_eq (drop (Z.to_nat index) haystack) needle needleEnd
            then Returns index
            else
              match shift !! Z.to_nat (uint8 c) with
              | None => OutOfBounds
              | Some s =>
                  searchLoop fuel' haystack needle needleEnd lastChar range
                    shift (uint32 (index + s))
              end
        end
      else Returns UINT32_MAX
  end.

(** [wrenStringFind]. The table [shift] is declared with [UINT8_MAX] entries
    and the first loop sets each of them to the needle's length. Every turn of
    the search loop advances [index] by at least one, so [range + 2] turns
    are enough. *)
Definition wrenStringFind (haystack needle : ObjString) : outcome Z :=
  if string_length needle =? 0 then Returns 0
  else if string_length needle >? string_length haystack then Returns UINT32_MAX
  else
    let shift := replicate (Z.to_nat UINT8_MAX) (string_length needle) in
    let needleEnd := uint32 (string_length needle - 1) in
    do shift <- fillShift (Z.to_nat needleEnd) (string_value needle) needleEnd
                  shift 0;
    match string_value needle !! Z.to_nat needleEnd with
    | None => OutOfBounds
    | Some lastChar =>
        let range := uint32 (string_length haystack - string_length needle) in
        searchLoop (Z.to_nat (range + 2)) (string_value haystack)
          (string_value needle) needleEnd lastChar range shift 0
    end.

(** The needle occurs in the haystack at index [i]. *)
Definition occursAt (haystack needle : list Z) (i : nat) : Prop :=
  take (length needle) (drop i haystack) = needle.

(** What the search needs of the shift table once the needle has been read
    up to [upTo]: every shift is at least 1 and at most the needle's length,
    and no byte of the needle before [upTo] and before the last byte is
    closer to the end of the needle than its shift. *)
Definition safeShifts (needle : list Z) (needleEnd upTo : Z) (shift : list Z)
    : Prop :=
  forall (c : nat) (s : Z),
    shift !! c = Some s ->
    1 <= s <= needleEnd + 1
    /\ forall (i : nat) (b : Z),
         Z.of_nat i < upTo -> needle !! i = Some b ->
         Z.to_nat (uint8 b) = c -> s <= needleEnd - Z.of_nat i.

(** A string object for the bytes [bs]; the hash plays no part in the
    search. *)
Definition str (bs : list Z) : ObjString :=
  {| string_length := Z.of_nat (length bs); string_hash := 0;
     string_value := bs |}.

End StringFind.

(** ** Lists: insertion (wren_value.c) *)

Module ListOps.
Import Value ObjList.

Section ListOps.
Context {Value : Type} `{ValueRep Value}.

(** What a slot of an array holds before the first store to it. *)
Variable uninitialised : Value.

(** The elements of a list: the first [count] slots of the array. *)
Definition elementsOf (elements : ValueBuffer Value) : list Value :=
  take (Z.to_nat (count elements)) (data elements).

(** Modelled from the spec: [wrenValueBufferWrite] comes from the macro
    [DEFINE_BUFFER] of wren_utils.h, which is not among the sources. It
    appends one value; a full buffer first grows, from capacity 0 to 16 and
    from any other capacity to twice that. *)
Definition wrenValueBufferWrite (buffer : ValueBuffer Value) (v : Value)
    : ValueBuffer Value :=
  let buffer :=
    if capacity buffer <? count buffer + 1 then
      let capacity' :=
        if capacity buffer =? 0 then 16 else capacity buffer * 2 in
      {| data := data buffer
                 ++ replicate (Z.to_nat (capacity' - capacity buffer))
                      uninitialised;
         count := count buffer;
         capacity := capacity' |}
    else buffer in
  {| data := <[Z.to_nat (count buffer) := v]> (data buffer);
     count := count buffer + 1;
     capacity := capacity buffer |}.

(** [wrenNewList] on [list->elements]: [numElements] slots, not yet
    written. *)
Definition wrenNewList (numElements : Z) : ValueBuffer Value :=
  {| data := replicate (Z.to_nat numElements) uninitialised;
     count := numElements;
     capacity := numElements |}.

(** The loop [for (uint32_t i = count - 1; i > index; i--)
    data[i] = data[i - 1]], at [i] with [n] iterations left. *)
Fixpoint shiftDown (n : nat) (data : list Value) (i : nat)
    : option (list Value) :=
  match n with
  | O => Some data
  | S n' =>
      match i with
      | O => None
      | S j =>
          match data !! j, data !! S j with
          | Some previous, Some _ =>
              shiftDown n' (<[S j := previous]> data) j
          | _, _ => None
          end
      end
  end.

(** [wrenListInsert] on [list->elements]. [count - 1] is converted to
    [uint32_t] for the loop. *)
Definition wrenListInsert (elements : ValueBuffer Value) (value : Value)
    (index : Z) : option (ValueBuffer Value) :=
  let elements := wrenValueBufferWrite elements NULL_VAL in
  let last := uint32 (count elements - 1) in
  match shiftDown (Z.to_nat (last - index)) (data elements) (Z.to_nat last) with
  | None => None
  | Some shifted =>
      match shifted !! Z.to_nat index with
      | None => None
      | Some _ =>
          Some {| data := <[Z.to_nat index := value]> shifted;
                  count := count elements;
                  capacity := capacity elements |}
      end
  end.

(** A list buffer as the code keeps it. *)
Definition bufferWf (elements : ValueBuffer Value) : Prop :=
  0 <= count elements <= capacity elements
  /\ Z.of_nat (length (data elements)) = capacity elements
  /\ capacity elements < 2 ^ 30.

End ListOps.

End ListOps.

(** ** Symbol tables (wren_utils.c) *)

Module Symbols.
Import Value ObjList ListOps.

(** [size_t] is taken to have 64 bits. *)
Definition size_t (x : Z) : Z := x mod 2 ^ 64.

(** [String]: the owned bytes of a name with their terminator, and the
    length without it. *)
Record String : Type := {
  buffer : list Z;
  length : Z
}.

(** A [SymbolTable] is a [StringBuffer]. *)
Definition SymbolTable : Type := ValueBuffer String.

(** What a slot of the array beyond [count] holds. *)
Definition unused : String := {| buffer := []; length := 0 |}.

(** Modelled from the spec: [wrenStringBufferInit] comes from [DEFINE_BUFFER]
    (wren_utils.h), which is not among the sources; a buffer starts with no
    storage, count 0 and capacity 0. *)
Definition wrenStringBufferInit : SymbolTable :=
  {| data := []; count := 0; capacity := 0 |}.

(** [wrenStringBufferWrite] is the same [DEFINE_BUFFER] code as
    [wrenValueBufferWrite], at type [String]. *)
Definition wrenStringBufferWrite (symbols : SymbolTable) (symbol : String)
    : SymbolTable :=
  wrenValueBufferWrite unused symbols symbol.

(** [wrenSymbolTableInit]. *)
Definition wrenSymbolTableInit : SymbolTable := wrenStringBufferInit.

(** [wrenSymbolTableAdd]: the table afterwards and the index returned. The
    name is the bytes at [name], of which [length] are copied. *)
Definition wrenSymbolTableAdd (symbols : SymbolTable) (name : list Z)
    (length : Z) : SymbolTable * Z :=
  let symbol :=
    {| buffer := take (Z.to_nat length) name ++ [0];
       length := Classes.int32 length |} in
  let symbols := wrenStringBufferWrite symbols symbol in
  (symbols, count symbols - 1).

(** The loop of [wrenSymbolTableFind] from index [i], with [n] symbols left;
    [None] is a read outside the array. *)
Fixpoint findLoop (n : nat) (symbols : SymbolTable) (name : list Z)
    (length : Z) (i : Z) : option Z :=
  match n with
  | O => Some (-1)
  | S n' =>
      match data symbols !! Z.to_nat i with
      | None => None
      | Some symbol =>
          if (size_t (Symbols.length symbol) =? length)
             && memcmp_eq (buffer symbol) name length
          then Some i
          else findLoop n' symbols name length (i + 1)
      end
  end.

(** [wrenSymbolTableFind]. *)
Definition wrenSymbolTableFind (symbols : SymbolTable) (name : list Z)
    (length : Z) : option Z :=
  findLoop (Z.to_nat (count symbols)) symbols name length 0.

(** [wrenSymbolTableEnsure]. *)
Definition wrenSymbolTableEnsure (symbols : SymbolTable) (name : list Z)
    (length : Z) : option (SymbolTable * Z) :=
  match wrenSymbolTableFind symbols name length with
  | None => None
  | Some existing =>
      if negb (existing =? -1) then Some (symbols, existing)
      else Some (wrenSymbolTableAdd symbols name length)
  end.

(** *** The state of a table *)

(** The symbol is the name of [length] bytes at [name]. *)
Definition names (symbol : String) (name : list Z) (length : Z) : Prop :=
  Symbols.length symbol = length
  /\ take (Z.to_nat length) (buffer symbol) = take (Z.to_nat length) name.

(** The array has a slot for every symbol and has grown by doubling only,
    and every symbol has a length that an [int] holds. *)
Definition symbolsWf (symbols : SymbolTable) : Prop :=
  0 <= count symbols <= capacity symbols
  /\ Z.of_nat (List.length (data symbols)) = capacity symbols
  /\ capacity symbols <= Z.max 16 (2 * count symbols)
  /\ forall (i : nat) (symbol : String),
       elementsOf symbols !! i = Some symbol ->
       0 <= Symbols.length symbol < 2 ^ 31.

(** What [wrenSymbolTableFind] is to return: the first index whose symbol is
    the name, or -1 when no symbol is. *)
Definition foundAt (symbols : SymbolTable) (name : list Z) (length : Z)
    (r : Z) : Prop :=
  (r = -1
   /\ forall (i : nat) (symbol : String),
        elementsOf symbols !! i = Some symbol -> ~ names symbol name length)
  \/ (0 <= r
      /\ exists symbol,
           elementsOf symbols !! Z.to_nat r = Some symbol
           /\ names symbol name length
           /\ forall (i : nat) (other : String),
                (i < Z.to_nat r)%nat ->
                elementsOf symbols !! i = Some other ->
                ~ names other name length).

(** No two symbols of the table are the same name. *)
Definition distinct (symbols : SymbolTable) : Prop :=
  forall (i j : nat) (a b : String),
    elementsOf symbols !! i = Some a ->
    elementsOf symbols !! j = Some b ->
    names a (buffer b) (Symbols.length b) ->
    i = j.

(** Ensuring the names of a list, one after the other. *)
Fixpoint ensureAll (symbols : SymbolTable) (names : list (list Z))
    : option SymbolTable :=
  match names with
  | [] => Some symbols
  | name :: rest =>
      match wrenSymbolTableEnsure symbols name
              (Z.of_nat (List.length name)) with
      | None => None
      | Some (symbols, _) => ensureAll symbols rest
      end
  end.

End Symbols.

(** ** Equality of values: what it asks of an encoding *)

Module Equality.
Import Value.

(** The laws of [wrenValuesSame] that [wrenValuesEqual] builds on: it is
    symmetric and transitive, and a value that is the same as an object is
    that object. *)
Class ValuesSameOk (Value : Type) `{ValueRep Value} : Prop := {
  same_sym : forall a b : Value, wrenValuesSame a b = wrenValuesSame b a;
  same_trans : forall a b c : Value,
    wrenValuesSame a b = true -> wrenValuesSame b c = true ->
    wrenValuesSame a c = true;
  same_obj : forall a b : Value,
    wrenValuesSame a b = true -> IS_OBJ a = true ->
    IS_OBJ b = true /\ AS_OBJ a = AS_OBJ b
}.

(** The part of [wrenValuesEqual] that compares two objects by their
    contents, after its early returns. *)
Definition objectsEqual (aObj bObj : Obj) : bool :=
  if negb (ObjType_eqb (obj_type aObj) (obj_type bObj)) then false
  else
    match aObj, bObj with
    | ObjRange aFrom aTo aIncl, ObjRange bFrom bTo bIncl =>
        double_eq aFrom bFrom && double_eq aTo bTo && Bool.eqb aIncl bIncl
    | ObjStr aString, ObjStr bString =>
        (string_length aString =? string_length bString)
        && (string_hash aString =? string_hash bString)
        && memcmp_eq (string_value aString) (string_value bString)
             (string_length aString)
    | _, _ => false
    end.

(** How [hashValue] goes with [wrenValuesSame]: the same values hash alike,
    but for a number that is a zero, and an object hashes as [hashObject]
    says. *)
Class HashOk (Value : Type) `{ValueRep Value} : Prop := {
  same_hash : forall (heap : ObjPtr -> Obj) (a b : Value),
    wrenValuesSame a b = true ->
    (IS_NUM a = true -> double_is_zero (AS_NUM a) = false) ->
    hashValue heap a = hashValue heap b;
  obj_hash : forall (heap : ObjPtr -> Obj) (a : Value),
    IS_OBJ a = true -> hashValue heap a = hashObject (heap (AS_OBJ a))
}.

(** The object is no range with a zero, of either sign, as a bound. *)
Definition noZeroBound (object : Obj) : Prop :=
  match object with
  | ObjRange from to _ => double_is_zero from = false /\ double_is_zero to = false
  | _ => True
  end.

End Equality.

(** ** Strings (wren_value.c) *)

Module Strings.
Import Value Utf8.

Section Strings.

(** Whether plain [char] is signed is the compiler's choice. *)
Variable charSigned : bool.

(** The value of the [char] that holds a byte. *)
Definition charOf (byte : Z) : Z :=
  if charSigned && (128 <=? byte) then byte - 256 else byte.

(** The array [value] of a string: its bytes and the terminator. *)
Definition bufferOf (string : ObjString) : list Z := string_value string ++ [0].

(** [allocateString]: the length is stored as an [int] and the terminator is
    written; the bytes and the hash are not written yet and are zeros
    here. *)
Definition allocateString (length : Z) : ObjString :=
  {| string_length := Classes.int32 length;
     string_hash := 0;
     string_value := replicate (Z.to_nat length) 0 |}.

(** Stores [bytes] at the start of [string->value]; [None] is a store
    outside the array. *)
Definition storeBytes (bytes : list Z) (string : ObjString) : option ObjString :=
  if (List.length (bufferOf string) <? List.length bytes)%nat then None
  else
    Some {| string_length := string_length string;
            string_hash := string_hash string;
            string_value :=
              take (List.length (string_value string))
                (bytes ++ drop (List.length bytes) (bufferOf string)) |}.

(** [memcpy(string->value, text, length)]; [None] is a read outside [text]
    or a store outside the array. *)
Definition memcpy (text : list Z) (length : Z) (string : ObjString)
    : option ObjString :=
  if (List.length text <? Z.to_nat length)%nat then None
  else storeBytes (take (Z.to_nat length) text) string.

(** The loop of [hashString] from index [i], with [n] bytes left. *)
Fixpoint hashLoop (n : nat) (value : list Z) (i : nat) (hash : Z) : option Z :=
  match n with
  | O => Some hash
  | S n' =>
      match value !! i with
      | None => None
      | Some byte =>
          let hash := Z.lxor hash (uint32 (charOf byte)) in
          let hash := uint32 (hash * 16777619) in
          hashLoop n' value (S i) hash
      end
  end.

(** [hashString]: the string with its hash stored. The bound of the loop
    is [string->length] as a [uint32_t]. *)
Definition hashString (string : ObjString) : option ObjString :=
  hash ← hashLoop (Z.to_nat (uint32 (string_length string))) (bufferOf string)
           O 2166136261;
  Some {| string_length := string_length string;
          string_hash := hash;
          string_value := string_value string |}.

(** [wrenNewString]: the string object made. *)
Definition wrenNewString (text : list Z) (length : Z) : option ObjString :=
  let string := allocateString length in
  string ← (if length >? 0 then memcpy text length string else Some string);
  hashString string.

(** [wrenStringFromCodePoint]. The [ASSERT] is compiled out of release
    builds. *)
Definition wrenStringFromCodePoint (value : Z) : option ObjString :=
  let length := wrenUtf8NumBytes value in
  let string := allocateString length in
  string ← storeBytes (wrenUtf8Encode value) string;
  hashString string.

(** The number of bytes that [wrenStringCodePointAt] takes the sequence
    that starts with [first] to have. *)
Definition sequenceBytes (first : Z) : Z :=
  if Z.land first 0xc0 =? 0x80 then 0
  else if Z.land first 0xf8 =? 0xf0 then 4
  else if Z.land first 0xf0 =? 0xe0 then 3
  else if Z.land first 0xe0 =? 0xc0 then 2
  else 1.

(** [wrenStringCodePointAt]. The [ASSERT] on the index is compiled out of
    release builds; [string->value + index] is the array from [index] on. *)
Definition wrenStringCodePointAt (string : ObjString) (index : Z)
    : option ObjString :=
  first ← bufferOf string !! Z.to_nat index;
  let numBytes := sequenceBytes (charOf first) in
  wrenNewString (drop (Z.to_nat index) (bufferOf string)) numBytes.

End Strings.

(** *** The state of a string *)

(** The length of the string is the number of its bytes, and an [int]
    holds it. *)
Definition stringWf (string : ObjString) : Prop :=
  string_length string = Z.of_nat (List.length (string_value string))
  /\ string_length string < 2 ^ 31.

End Strings.

(** ** String formatting (wren_value.c) *)

Module Format.
Import Value Strings.

(** An argument after the format: a C string for [$], a string object for
    [@]. *)
Inductive FormatArg : Type :=
  | ArgCString (chars : list Z)
  | ArgString (string : ObjString).

(** [strlen]: the number of bytes before the first zero; [None] is a read
    outside the array. *)
Fixpoint strlen (chars : list Z) : option nat :=
  match chars with
  | [] => None
  | c :: rest => if c =? 0 then Some O else S <$> strlen rest
  end.

(** [memcpy(start, bytes, ...)] into the array at offset [start]; [None] is
    a store outside the array. *)
Definition storeAt (bytes : list Z) (start : nat) (array : list Z)
    : option (list Z) :=
  if (List.length array <? start + List.length bytes)%nat then None
  else Some (take start array ++ bytes
             ++ drop (start + List.length bytes) array).

(** The bytes that [memcpy(.., string->value, string->length)] reads. *)
Definition bytesOf (string : ObjString) : option (list Z) :=
  if (List.length (bufferOf string) <? Z.to_nat (string_length string))%nat
  then None
  else Some (take (Z.to_nat (string_length string)) (bufferOf string)).

(** The first loop of [wrenStringFormat], from the byte [c] of the format on:
    the total length. A format without terminator, a missing argument and
    an argument of the other kind are [None]. *)
Fixpoint formatLength (format : list Z) (args : list FormatArg)
    (totalLength : Z) : option Z :=
  match format with
  | [] => None
  | c :: rest =>
      if c =? 0 then Some totalLength
      else if c =? 36 then
        match args with
        | ArgCString chars :: args =>
            n ← strlen chars;
            formatLength rest args (Symbols.size_t (totalLength + Z.of_nat n))
        | _ => None
        end
      else if c =? 64 then
        match args with
        | ArgString string :: args =>
            formatLength rest args
              (Symbols.size_t
                 (totalLength + Symbols.size_t (string_length string)))
        | _ => None
        end
      else formatLength rest args (Symbols.size_t (totalLength + 1))
  end.

(** The second loop: the array of the result, with [start] as an offset
    into it. *)
Fixpoint formatFill (format : list Z) (args : list FormatArg)
    (array : list Z) (start : nat) : option (list Z) :=
  match format with
  | [] => None
  | c :: rest =>
      if c =? 0 then Some array
      else if c =? 36 then
        match args with
        | ArgCString chars :: args =>
            n ← strlen chars;
            array ← storeAt (take n chars) start array;
            formatFill rest args array (start + n)
        | _ => None
        end
      else if c =? 64 then
        match args with
        | ArgString string :: args =>
            bytes ← bytesOf string;
            array ← storeAt bytes start array;
            formatFill rest args array
              (start + Z.to_nat (string_length string))
        | _ => None
        end
      else
        array ← storeAt [c] start array;
        formatFill rest args array (start + 1)
  end.

Section Format.
Variable charSigned : bool.

(** [wrenStringFormat] on the bytes of the format and the arguments that
    follow it. *)
Definition wrenStringFormat (format : list Z) (args : list FormatArg)
    : option ObjString :=
  totalLength ← formatLength format args 0;
  let result := allocateString totalLength in
  array ← formatFill format args (bufferOf result) O;
  hashString charSigned
    {| string_length := string_length result;
       string_hash := string_hash result;
       string_value := take (List.length (string_value result)) array |}.

End Format.

(** *** What the format stands for *)

(** The text that a format and its arguments spell: [$] stands for the next
    argument, a C string, [@] for the next argument, a string object, and
    every other byte for itself. *)
Fixpoint formatted (format : list Z) (args : list FormatArg)
    : option (list Z) :=
  match format with
  | [] => None
  | c :: rest =>
      if c =? 0 then Some []
      else if c =? 36 then
        match args with
        | ArgCString chars :: args =>
            n ← strlen chars;
            text ← formatted rest args;
            Some (take n chars ++ text)
        | _ => None
        end
      else if c =? 64 then
        match args with
        | ArgString string :: args =>
            text ← formatted rest args;
            Some (string_value string ++ text)
        | _ => None
        end
      else
        text ← formatted rest args;
        Some (c :: text)
  end.

(** The string objects among the arguments are well formed. *)
Definition argWf (arg : FormatArg) : Prop :=
  match arg with
  | ArgCString _ => True
  | ArgString string => stringWf string
  end.

End Format.

(** ** Maps: tombstones *)

Module Tombstones.
Import Value Map.

Section Tombstones.
Context {Value : Type} `{ValueRep Value}.

(** A tombstone: the slot of a removed key, undefined key and a value that
    is not false. *)
Definition isTombstone (entry : MapEntry Value) : Z :=
  if IS_UNDEFINED (key entry) && negb (IS_FALSE (value entry)) then 1 else 0.

Definition tombstones (entries : list (MapEntry Value)) : Z :=
  total isTombstone entries.

(** A call that removes no key: a set of a key that is not the undefined
    value, or a clear. *)
Definition removesNothing (op : MapOp Value) : Prop :=
  match op with
  | OpSet k _ => IS_UNDEFINED k = false
  | OpRemoveKey _ => False
  | OpClear => True
  end.

End Tombstones.

End Tombstones.

(** ** Marking (wren_value.c) *)

Module Gc.
Import Value.

(** The sizes that the marking adds up, as the compiler gives them. *)
Record Sizes : Type := {
  sizeof_ObjClass : Z;
  sizeof_Method : Z;
  sizeof_ObjClosure : Z;
  sizeof_pointer : Z;
  sizeof_ObjFiber : Z;
  sizeof_ObjFn : Z;
  sizeof_uint8_t : Z;
  sizeof_Value : Z;
  sizeof_int : Z;
  sizeof_ObjInstance : Z;
  sizeof_ObjList : Z;
  sizeof_ObjMap : Z;
  sizeof_MapEntry : Z;
  sizeof_ObjModule : Z;
  sizeof_ObjRange : Z;
  sizeof_ObjString : Z;
  sizeof_ObjUpvalue : Z
}.

Section Objects.
Context {Value : Type}.

(** Modelled from the spec: the structs of wren_value.h are not among the
    sources. An object is held with the fields that the marking functions
    read. An array that comes with a count is a list and the count; the
    frames of a fiber are the functions of [frames[0 .. numFrames)], its
    stack the slots from [stack] to [stackTop]. A pointer is an address,
    [None] for [NULL]. *)
Inductive Body : Type :=
  | Class (superclass : option ObjPtr) (methods : list Classes.Method)
      (methodsCapacity : Z) (numFields : Z) (name : option ObjPtr)
  | Closure (fn : option ObjPtr) (upvalues : list (option ObjPtr))
  | Fiber (frames : list (option ObjPtr)) (stack : list Value)
      (openUpvalues caller error : option ObjPtr)
  | Fn (constants : list Value) (numConstants : Z)
      (sourcePath : option ObjPtr) (numUpvalues : Z) (bytecodeLength : Z)
  | Instance (fields : list Value)
  | List (elements : ObjList.ValueBuffer Value)
  | MapOf (capacity : Z) (entries : list (Map.MapEntry Value))
  | Module (variables : ObjList.ValueBuffer Value) (name : option ObjPtr)
  | Range
  | String (length : Z)
  | Upvalue (closed : Value) (next : option ObjPtr).

(** The header [Obj] and the rest of the object. *)
Record Object : Type := {
  marked : bool;
  classObj : option ObjPtr;
  body : Body
}.

(** The part of the VM that the marking uses. *)
Record WrenVM : Type := {
  heap : gmap Z Object;
  bytesAllocated : Z
}.

(** [obj->marked = true]. *)
Definition setMarked (vm : WrenVM) (p : ObjPtr) (object : Object) : WrenVM :=
  {| heap := <[p := {| marked := true; classObj := classObj object;
                       body := body object |}]> (heap vm);
     bytesAllocated := bytesAllocated vm |}.

(** [vm->bytesAllocated += n], in [size_t]. *)
Definition addBytes (vm : WrenVM) (n : Z) : WrenVM :=
  {| heap := heap vm;
     bytesAllocated := Symbols.size_t (bytesAllocated vm + n) |}.

(** A loop over the elements of an array, each turn a call. *)
Fixpoint forEach {A : Type} (f : WrenVM -> A -> outcome WrenVM)
    (vm : WrenVM) (xs : list A) : outcome WrenVM :=
  match xs with
  | [] => Returns vm
  | x :: rest => do vm <- f vm x; forEach f vm rest
  end.

(** The elements [data[0 .. n)]; a count beyond the array is a read outside
    it. *)
Definition readArray {A : Type} (data : list A) (n : Z) : outcome (list A) :=
  if Z.of_nat (length data) <? n then OutOfBounds
  else Returns (take (Z.to_nat n) data).

(** [fn->numUpvalues] through a pointer to a function. *)
Definition numUpvaluesOf (vm : WrenVM) (fn : option ObjPtr) : outcome Z :=
  match fn with
  | None => OutOfBounds
  | Some f =>
      match heap vm !! f with
      | Some {| body := Fn _ _ _ numUpvalues _ |} => Returns numUpvalues
      | _ => OutOfBounds
      end
  end.

(** [classObj->numFields] through a pointer to a class. *)
Definition numFieldsOf (vm : WrenVM) (cls : option ObjPtr) : outcome Z :=
  match cls with
  | None => OutOfBounds
  | Some c =>
      match heap vm !! c with
      | Some {| body := Class _ _ _ numFields _ |} => Returns numFields
      | _ => OutOfBounds
      end
  end.

(** [upvalue->next]. *)
Definition nextOf (vm : WrenVM) (upvalue : ObjPtr) : outcome (option ObjPtr) :=
  match heap vm !! upvalue with
  | Some {| body := Upvalue _ next |} => Returns next
  | _ => OutOfBounds
  end.

End Objects.

Arguments Body Value : clear implicits.
Arguments Object Value : clear implicits.
Arguments WrenVM Value : clear implicits.

Section Marking.
Context {Value : Type} `{ValueRep Value}.
Variable sizes : Sizes.

(** The marking functions call [wrenMarkObj], which calls them: here they
    take it as [markObj]. *)
Section MarkFunctions.
Variable markObj : WrenVM Value -> option ObjPtr -> outcome (WrenVM Value).

(** [wrenMarkValue]. *)
Definition markValue (vm : WrenVM Value) (value : Value)
    : outcome (WrenVM Value) :=
  if negb (IS_OBJ value) then Returns vm
  else markObj vm (Some (AS_OBJ value)).

(** [wrenMarkBuffer]. *)
Definition markBuffer (vm : WrenVM Value)
    (buffer : ObjList.ValueBuffer Value) : outcome (WrenVM Value) :=
  do values <- readArray (ObjList.data buffer) (ObjList.count buffer);
  forEach markValue vm values.

(** [markClass]. *)
Definition markClass (vm : WrenVM Value) (object : Object Value)
    (superclass : option ObjPtr) (methods : list Classes.Method)
    (methodsCapacity : Z) (name : option ObjPtr) : outcome (WrenVM Value) :=
  do vm <- markObj vm (classObj object);
  do vm <- markObj vm superclass;
  do vm <- forEach
             (fun vm method =>
                match Classes.type method with
                | Classes.METHOD_BLOCK => markObj vm (Some (Classes.fn method))
                | _ => Returns vm
                end) vm methods;
  do vm <- markObj vm name;
  let vm := addBytes vm (sizeof_ObjClass sizes) in
  Returns (addBytes vm (methodsCapacity * sizeof_Method sizes)).

(** [markClosure]. *)
Definition markClosure (vm : WrenVM Value) (fn : option ObjPtr)
    (upvalues : list (option ObjPtr)) : outcome (WrenVM Value) :=
  do vm <- markObj vm fn;
  do numUpvalues <- numUpvaluesOf vm fn;
  do marked <- readArray upvalues numUpvalues;
  do vm <- forEach markObj vm marked;
  let vm := addBytes vm (sizeof_ObjClosure sizes) in
  Returns (addBytes vm (sizeof_pointer sizes * numUpvalues)).

(** The loop of [markFiber] over the open upvalues, one turn for each unit
    of fuel. *)
Fixpoint markOpenUpvalues (fuel : nat) (vm : WrenVM Value)
    (upvalue : option ObjPtr) : outcome (WrenVM Value) :=
  match fuel with
  | O => Hangs
  | S fuel' =>
      match upvalue with
      | None => Returns vm
      | Some p =>
          do vm <- markObj vm (Some p);
          do next <- nextOf vm p;
          markOpenUpvalues fuel' vm next
      end
  end.

(** [markFiber]. A list of upvalues that has not ended after as many turns
    as the heap has objects goes round for ever. *)
Definition markFiber (vm : WrenVM Value) (frames : list (option ObjPtr))
    (stack : list Value) (openUpvalues caller error : option ObjPtr)
    : outcome (WrenVM Value) :=
  do vm <- forEach markObj vm frames;
  do vm <- forEach markValue vm stack;
  do vm <- markOpenUpvalues (S (size (heap vm))) vm openUpvalues;
  do vm <- markObj vm caller;
  do vm <- markObj vm error;
  Returns (addBytes vm (sizeof_ObjFiber sizes)).

(** [markFn]. *)
Definition markFn (vm : WrenVM Value) (constants : list Value)
    (numConstants : Z) (sourcePath : option ObjPtr) (bytecodeLength : Z)
    : outcome (WrenVM Value) :=
  do marked <- readArray constants numConstants;
  do vm <- forEach markValue vm marked;
  do vm <- match sourcePath with
           | Some _ => markObj vm sourcePath
           | None => Returns vm
           end;
  let vm := addBytes vm (sizeof_ObjFn sizes) in
  let vm := addBytes vm (sizeof_uint8_t sizes * bytecodeLength) in
  let vm := addBytes vm (sizeof_Value sizes * numConstants) in
  Returns (addBytes vm (sizeof_int sizes * bytecodeLength)).

(** [markInstance]. *)
Definition markInstance (vm : WrenVM Value) (object : Object Value)
    (fields : list Value) : outcome (WrenVM Value) :=
  do vm <- markObj vm (classObj object);
  do numFields <- numFieldsOf vm (classObj object);
  do marked <- readArray fields numFields;
  do vm <- forEach markValue vm marked;
  let vm := addBytes vm (sizeof_ObjInstance sizes) in
  Returns (addBytes vm (sizeof_Value sizes * numFields)).

(** [markList]. *)
Definition markList (vm : WrenVM Value)
    (elements : ObjList.ValueBuffer Value) : outcome (WrenVM Value) :=
  do vm <- markBuffer vm elements;
  let vm := addBytes vm (sizeof_ObjList sizes) in
  Returns (addBytes vm (sizeof_Value sizes * ObjList.capacity elements)).

(** [markMap]. *)
Definition markMap (vm : WrenVM Value) (capacity : Z)
    (entries : list (Map.MapEntry Value)) : outcome (WrenVM Value) :=
  do visited <- readArray entries capacity;
  do vm <- forEach
             (fun vm entry =>
                if IS_UNDEFINED (Map.key entry) then Returns vm
                else
                  do vm <- markValue vm (Map.key entry);
                  markValue vm (Map.value entry)) vm visited;
  let vm := addBytes vm (sizeof_ObjMap sizes) in
  Returns (addBytes vm (sizeof_MapEntry sizes * capacity)).

(** [markModule]. *)
Definition markModule (vm : WrenVM Value)
    (variables : ObjList.ValueBuffer Value) (name : option ObjPtr)
    : outcome (WrenVM Value) :=
  do vm <- markBuffer vm variables;
  do vm <- markObj vm name;
  Returns (addBytes vm (sizeof_ObjModule sizes)).

(** [markRange]. *)
Definition markRange (vm : WrenVM Value) : outcome (WrenVM Value) :=
  Returns (addBytes vm (sizeof_ObjRange sizes)).

(** [markString]. *)
Definition markString (vm : WrenVM Value) (length : Z)
    : outcome (WrenVM Value) :=
  Returns (addBytes vm (sizeof_ObjString sizes + length + 1)).

(** [markUpvalue]. *)
Definition markUpvalue (vm : WrenVM Value) (closed : Value)
    : outcome (WrenVM Value) :=
  do vm <- markValue vm closed;
  Returns (addBytes vm (sizeof_ObjUpvalue sizes)).

(** The [switch] of [wrenMarkObj]. *)
Definition markFields (vm : WrenVM Value) (object : Object Value)
    : outcome (WrenVM Value) :=
  match body object with
  | Class superclass methods methodsCapacity _ name =>
      markClass vm object superclass methods methodsCapacity name
  | Closure fn upvalues => markClosure vm fn upvalues
  | Fiber frames stack openUpvalues caller error =>
      markFiber vm frames stack openUpvalues caller error
  | Fn constants numConstants sourcePath _ bytecodeLength =>
      markFn vm constants numConstants sourcePath bytecodeLength
  | Instance fields => markInstance vm object fields
  | List elements => markList vm elements
  | MapOf capacity entries => markMap vm capacity entries
  | Module variables name => markModule vm variables name
  | Range => markRange vm
  | String length => markString vm length
  | Upvalue closed _ => markUpvalue vm closed
  end.

End MarkFunctions.

(** [wrenMarkObj], with one unit of fuel for each call inside a call. A
    pointer that is not [NULL] and not an object of the heap is a read
    outside it. *)
Fixpoint markObjFuel (fuel : nat) (vm : WrenVM Value) (obj : option ObjPtr)
    : outcome (WrenVM Value) :=
  match fuel with
  | O => Hangs
  | S fuel' =>
      match obj with
      | None => Returns vm
      | Some p =>
          match heap vm !! p with
          | None => OutOfBounds
          | Some object =>
              if marked object then Returns vm
              else markFields (markObjFuel fuel') (setMarked vm p object) object
          end
      end
  end.

(** A call marks an object that was not marked or returns at once, so the
    calls are never nested deeper than the heap has objects. *)
Definition wrenMarkObj (vm : WrenVM Value) (obj : option ObjPtr)
    : outcome (WrenVM Value) :=
  markObjFuel (S (size (heap vm))) vm obj.

Definition wrenMarkValue (vm : WrenVM Value) (value : Value)
    : outcome (WrenVM Value) :=
  markValue wrenMarkObj vm value.

Definition wrenMarkBuffer (vm : WrenVM Value)
    (buffer : ObjList.ValueBuffer Value) : outcome (WrenVM Value) :=
  markBuffer wrenMarkObj vm buffer.

End Marking.

End Gc.

(** ** Marking: the object graph *)

Module GcGraph.
Import Value Gc.

Section Graph.
Context {Value : Type} `{ValueRep Value}.

(** The objects among some values, as pointers. *)
Definition values (vs : list Value) : list (option ObjPtr) :=
  flat_map (fun v => if IS_OBJ v then [Some (AS_OBJ v)] else []) vs.

(** The function objects of the methods that are blocks. *)
Definition methodRefs (methods : list Classes.Method) : list (option ObjPtr) :=
  flat_map
    (fun method =>
       match Classes.type method with
       | Classes.METHOD_BLOCK => [Some (Classes.fn method)]
       | _ => []
       end) methods.

(** The keys and values of the entries that hold a key. *)
Definition entryRefs (entries : list (Map.MapEntry Value))
    : list (option ObjPtr) :=
  flat_map
    (fun entry =>
       if IS_UNDEFINED (Map.key entry) then []
       else values [Map.key entry; Map.value entry]) entries.

(** The list of open upvalues from [upvalue] on. *)
Fixpoint chainOf (fuel : nat) (vm : WrenVM Value) (upvalue : option ObjPtr)
    : outcome (list (option ObjPtr)) :=
  match fuel with
  | O => Hangs
  | S fuel' =>
      match upvalue with
      | None => Returns []
      | Some p =>
          do next <- nextOf vm p;
          do rest <- chainOf fuel' vm next;
          Returns (Some p :: rest)
      end
  end.

(** The pointers that the marking function of an object passes to
    [wrenMarkObj], in the order of the calls. *)
Definition references (vm : WrenVM Value) (object : Object Value)
    : outcome (list (option ObjPtr)) :=
  match body object with
  | Class superclass methods _ _ name =>
      Returns (classObj object :: superclass :: methodRefs methods ++ [name])
  | Closure fn upvalues =>
      do numUpvalues <- numUpvaluesOf vm fn;
      do marked <- readArray upvalues numUpvalues;
      Returns (fn :: marked)
  | Fiber frames stack openUpvalues caller error =>
      do chain <- chainOf (S (size (heap vm))) vm openUpvalues;
      Returns (frames ++ values stack ++ chain ++ [caller; error])
  | Fn constants numConstants sourcePath _ _ =>
      do marked <- readArray constants numConstants;
      Returns (values marked
               ++ match sourcePath with Some _ => [sourcePath] | None => [] end)
  | Instance fields =>
      do numFields <- numFieldsOf vm (classObj object);
      do marked <- readArray fields numFields;
      Returns (classObj object :: values marked)
  | List elements =>
      do marked <- readArray (ObjList.data elements) (ObjList.count elements);
      Returns (values marked)
  | MapOf capacity entries =>
      do visited <- readArray entries capacity;
      Returns (entryRefs visited)
  | Module variables name =>
      do marked <- readArray (ObjList.data variables) (ObjList.count variables);
      Returns (values marked ++ [name])
  | Range => Returns []
  | String _ => Returns []
  | Upvalue closed _ => Returns (values [closed])
  end.

(** The object at [p] is marked. *)
Definition isMarked (vm : WrenVM Value) (p : ObjPtr) : Prop :=
  exists object, heap vm !! p = Some object /\ marked object = true.

(** [q] is reached from [p] along references. *)
Inductive reaches (vm : WrenVM Value) : ObjPtr -> ObjPtr -> Prop :=
  | reaches_here (p : ObjPtr) : reaches vm p p
  | reaches_on (p q r : ObjPtr) (object : Object Value)
      (refs : list (option ObjPtr)) :
      heap vm !! p = Some object ->
      references vm object = Returns refs ->
      Some q ∈ refs ->
      reaches vm q r ->
      reaches vm p r.

(** What an object keeps when it is marked. *)
Definition keeps (before after : Object Value) : Prop :=
  body after = body before
  /\ classObj after = classObj before
  /\ (marked before = true -> marked after = true).

(** The heaps hold the same objects, with marks added at most. *)
Definition sameObjects (vm vm' : WrenVM Value) : Prop :=
  forall p : ObjPtr, option_Forall2 keeps (heap vm !! p) (heap vm' !! p).

(** Every reference of the object at [p] is to a marked object. *)
Definition refsMarked (vm : WrenVM Value) (p : ObjPtr) : Prop :=
  forall (object : Object Value) (refs : list (option ObjPtr)) (r : ObjPtr),
    heap vm !! p = Some object ->
    references vm object = Returns refs ->
    Some r ∈ refs ->
    isMarked vm r.

(** The marks are closed: a marked object refers to marked objects only. *)
Definition closedMarks (vm : WrenVM Value) : Prop :=
  forall p : ObjPtr, isMarked vm p -> refsMarked vm p.

(** The heap is closed: the references of every object can be read, and
    they are to objects of the heap. *)
Definition heapClosed (vm : WrenVM Value) : Prop :=
  forall (p : ObjPtr) (object : Object Value),
    heap vm !! p = Some object ->
    exists refs,
      references vm object = Returns refs
      /\ forall r : ObjPtr, Some r ∈ refs -> is_Some (heap vm !! r).

(** What marking from some roots leaves: the same objects with marks added;
    the roots are marked; every object that got its mark refers to marked
    objects only, and is reached from a root. *)
Definition marksFrom (vm : WrenVM Value) (roots : list (option ObjPtr))
    (vm' : WrenVM Value) : Prop :=
  sameObjects vm vm'
  /\ (forall r : ObjPtr, Some r ∈ roots -> isMarked vm' r)
  /\ (forall q : ObjPtr,
        isMarked vm' q -> ~ isMarked vm q -> refsMarked vm' q)
  /\ (forall q : ObjPtr,
        isMarked vm' q -> ~ isMarked vm q ->
        exists r : ObjPtr, Some r ∈ roots /\ reaches vm r q).

(** The objects that are not marked. *)
Definition unmarked (vm : WrenVM Value) : gset Z :=
  dom (filter (fun entry => marked entry.2 = false) (heap vm)).

End Graph.

End GcGraph.

(** ** Example inputs *)

Module Examples.
Import Value.

(** A heap on which no key is an object with fields. *)
Definition noObjects : ObjPtr -> Obj := fun _ => ObjOther OBJ_LIST.

(** A list buffer of sixteen slots that holds nine elements. *)
Definition nineOfSixteen : ObjList.ValueBuffer Z :=
  {| ObjList.data := [1; 2; 3; 4; 5; 6; 7; 8; 9; 0; 0; 0; 0; 0; 0; 0];
     ObjList.count := 9;
     ObjList.capacity := 16 |}.

(** A list buffer of sixteen slots that holds eight elements. *)
Definition eightOfSixteen : ObjList.ValueBuffer Z :=
  {| ObjList.data := [1; 2; 3; 4; 5; 6; 7; 8; 0; 0; 0; 0; 0; 0; 0; 0];
     ObjList.count := 8;
     ObjList.capacity := 16 |}.

(** The bits of the double that holds the integer [n], for [n >= 1]. *)
Definition doubleOf (n : Z) : Z :=
  let e := Z.log2 n in
  Z.lor (Z.shiftl (1023 + e) 52) (Z.shiftl (n - 2 ^ e) (52 - e)).

(** The calls of the script
    [m[0] = 0; for (i in 1..15) { m[i] = i; m.remove(i) }]:
    the key 0.0 stays in the map, each of the keys 1.0 to 15.0 is set and
    then removed. *)
Definition tombstoneOps {Value : Type} `{ValueRep Value}
    : list (Map.MapOp Value) :=
  Map.OpSet (NUM_VAL 0) (NUM_VAL 0)
  :: flat_map
       (fun i => [Map.OpSet (NUM_VAL (doubleOf i)) (NUM_VAL (doubleOf i));
                  Map.OpRemoveKey (NUM_VAL (doubleOf i))])
       (map Z.of_nat (seq 1 15)).

(** A table of sixteen slots that holds the key 1.0 with the value true. *)
Definition oneKeyMap : Map.ObjMap UnionValue :=
  {| Map.capacity := 16;
     Map.count := 1;
     Map.entries :=
       {| Map.key := VAL_NUM (doubleOf 1); Map.value := VAL_TRUE |}
       :: replicate 15 {| Map.key := VAL_UNDEFINED; Map.value := VAL_FALSE |} |}.

(** Scenario S3: thirteen keys are set, then twelve of them removed. *)
Definition growAndShrinkOps : list (Map.MapOp UnionValue) :=
  map (fun i => Map.OpSet (VAL_NUM (doubleOf i)) VAL_TRUE)
    (map Z.of_nat (seq 1 13))
  ++ map (fun i => Map.OpRemoveKey (VAL_NUM (doubleOf i)))
       (map Z.of_nat (seq 1 12)).

(** Scenario S4: the root class at address 1, and at address 2 a class A
    with two fields and a method bound at symbol 7. *)
Definition method7 : Classes.Method :=
  {| Classes.type := Classes.METHOD_BLOCK; Classes.fn := 4096 |}.

Definition vmS4 : Classes.WrenVM :=
  {| Classes.heap :=
       {[ 1 := {| Classes.classObj := Some 1; Classes.superclass := None;
                  Classes.numFields := 0; Classes.name := [67];
                  Classes.methods := [] |};
          2 := {| Classes.classObj := None; Classes.superclass := Some 1;
                  Classes.numFields := 2; Classes.name := [65];
                  Classes.methods :=
                    replicate 7 Classes.noMethod ++ [method7] |} ]};
     Classes.classClass := Some 1 |}.

(** The names [foo] and [bar], as bytes. *)
Definition foo : list Z := [102; 111; 111].
Definition bar : list Z := [98; 97; 114].

(** A symbol table of sixteen slots that holds [foo] and [bar]. *)
Definition twoSymbols : Symbols.SymbolTable :=
  {| ObjList.data :=
       [ {| Symbols.buffer := foo ++ [0]; Symbols.length := 3 |};
         {| Symbols.buffer := bar ++ [0]; Symbols.length := 3 |} ]
       ++ replicate 14 Symbols.unused;
     ObjList.count := 2;
     ObjList.capacity := 16 |}.

(** A heap with the ranges [0..1] and [-0..1] at the addresses 8 and 16 and
    two strings of the same bytes at 24 and 32; the bounds are the bits of
    the doubles. *)
Definition twoRanges : Value.ObjPtr -> Value.Obj := fun p =>
  if p =? 8 then Value.ObjRange 0 0x3ff0000000000000 true
  else if p =? 16 then Value.ObjRange Value.SIGN_BIT 0x3ff0000000000000 true
  else if (p =? 24) || (p =? 32) then
    Value.ObjStr {| Value.string_length := 3; Value.string_hash := 7;
                    Value.string_value := foo |}
  else Value.ObjOther Value.OBJ_LIST.

(** The string of [a], the euro sign and [b]; the hash is not read. *)
Definition euroString : Value.ObjString :=
  {| Value.string_length := 5; Value.string_hash := 0;
     Value.string_value := [97] ++ Utf8.wrenUtf8Encode 0x20ac ++ [98] |}.

(** A string that ends with the lead byte of a four-byte sequence. *)
Definition cutString : Value.ObjString :=
  {| Value.string_length := 2; Value.string_hash := 0;
     Value.string_value := [97; 0xf0] |}.

(** Thirteen keys are set; the thirteenth set doubles the table. *)
Definition thirteenSets : list (Map.MapOp UnionValue) :=
  map (fun i => Map.OpSet (VAL_NUM (doubleOf i)) VAL_TRUE)
    (map Z.of_nat (seq 1 13)).

(** Sizes for the marking: every size is eight bytes. *)
Definition gcSizes : Gc.Sizes :=
  {| Gc.sizeof_ObjClass := 8; Gc.sizeof_Method := 8; Gc.sizeof_ObjClosure := 8;
     Gc.sizeof_pointer := 8; Gc.sizeof_ObjFiber := 8; Gc.sizeof_ObjFn := 8;
     Gc.sizeof_uint8_t := 1; Gc.sizeof_Value := 8; Gc.sizeof_int := 4;
     Gc.sizeof_ObjInstance := 8; Gc.sizeof_ObjList := 8; Gc.sizeof_ObjMap := 8;
     Gc.sizeof_MapEntry := 16; Gc.sizeof_ObjModule := 8;
     Gc.sizeof_ObjRange := 8; Gc.sizeof_ObjString := 8;
     Gc.sizeof_ObjUpvalue := 8 |}.

(** A heap of five objects, none marked: at 32 an instance whose one field
    is the instance itself, at 40 its class, at 16 the name of the class;
    at 8 a list that holds the name, and at 24 a range. *)
Definition gcVm : Gc.WrenVM UnionValue :=
  {| Gc.heap :=
       <[8 := {| Gc.marked := false; Gc.classObj := None;
                 Gc.body :=
                   Gc.List {| ObjList.data := [VAL_OBJ 16; VAL_NULL];
                              ObjList.count := 1; ObjList.capacity := 2 |} |}]>
       (<[16 := {| Gc.marked := false; Gc.classObj := None;
                   Gc.body := Gc.String 3 |}]>
       (<[24 := {| Gc.marked := false; Gc.classObj := None;
                   Gc.body := Gc.Range |}]>
       (<[32 := {| Gc.marked := false; Gc.classObj := Some 40;
                   Gc.body := Gc.Instance [VAL_OBJ 32] |}]>
       (<[40 := {| Gc.marked := false; Gc.classObj := None;
                   Gc.body := Gc.Class None [] 0 1 (Some 16) |}]> ∅))));
     Gc.bytesAllocated := 0 |}.

End Examples.

(** * Properties *)

(** ** Bit arithmetic *)

Lemma land_low_bits (x n : Z) :
  0 <= n -> 0 <= x < 2 ^ n -> Z.land x (Z.ones n) = x.
Proof.
  intros Hn Hx. rewrite Z.land_ones by assumption. apply Z.mod_small, Hx.
Qed.

Lemma land_disjoint (hi x n : Z) :
  0 <= n -> 0 <= x < 2 ^ n -> Z.land hi (Z.ones n) = 0 -> Z.land hi x = 0.
Proof.
  intros Hn Hx Hhi.
  rewrite <- (land_low_bits x n Hn Hx).
  rewrite (Z.land_comm x), Z.land_assoc, Hhi. apply Z.land_0_l.
Qed.

Lemma lor_disjoint_add (hi x n : Z) :
  0 <= n -> 0 <= x < 2 ^ n -> Z.land hi (Z.ones n) = 0 -> Z.lor hi x = hi + x.
Proof.
  intros Hn Hx Hhi.
  pose proof (land_disjoint hi x n Hn Hx Hhi) as Hd.
  rewrite <- (Z.lxor_lor _ _ Hd). symmetry. apply Z.add_nocarry_lxor, Hd.
Qed.

Lemma land_lor_high (hi x n mask : Z) :
  0 <= n -> 0 <= x < 2 ^ n -> Z.land mask (Z.ones n) = 0 ->
  Z.land (Z.lor hi x) mask = Z.land hi mask.
Proof.
  intros Hn Hx Hm.
  rewrite Z.land_lor_distr_l.
  rewrite (Z.land_comm x mask), (land_disjoint mask x n Hn Hx Hm).
  apply Z.lor_0_r.
Qed.

Lemma land_lor_low (hi x n : Z) :
  0 <= n -> 0 <= x < 2 ^ n -> Z.land hi (Z.ones n) = 0 ->
  Z.land (Z.lor hi x) (Z.ones n) = x.
Proof.
  intros Hn Hx Hhi.
  rewrite Z.land_lor_distr_l, Hhi, Z.lor_0_l. apply land_low_bits; assumption.
Qed.

Lemma shiftl_lor_add (v x n : Z) :
  0 <= n -> 0 <= x < 2 ^ n -> Z.lor (Z.shiftl v n) x = v * 2 ^ n + x.
Proof.
  intros Hn Hx.
  rewrite (lor_disjoint_add (Z.shiftl v n) x n Hn Hx).
  - now rewrite Z.shiftl_mul_pow2.
  - rewrite Z.land_ones, Z.shiftl_mul_pow2 by assumption.
    apply Z.mod_mul. lia.
Qed.

Lemma land_shiftr_digit (v mask n k : Z) :
  0 <= n -> 0 <= k -> Z.shiftr mask n = Z.ones k ->
  Z.shiftr (Z.land v mask) n = (v / 2 ^ n) mod 2 ^ k.
Proof.
  intros Hn Hk Hmask.
  rewrite Z.shiftr_land, Hmask, Z.land_ones, Z.shiftr_div_pow2 by assumption.
  reflexivity.
Qed.

(** ** Machine integers and outcomes *)

Lemma uint32_small (x : Z) : 0 <= x < 2 ^ 32 -> uint32 x = x.
Proof. intros Hx. unfold uint32. apply Z.mod_small, Hx. Qed.

Lemma outcome_bind_returns {A B : Type} (m : outcome A) (k : A -> outcome B)
    (b : B) :
  obind m k = Returns b -> exists a, m = Returns a /\ k a = Returns b.
Proof. destruct m; cbn; intros Hk; try discriminate. eauto. Qed.

(** ** UTF-8 *)

Module Utf8Facts.
Import Utf8.

Lemma uint8_small (x : Z) : 0 <= x < 256 -> uint8 x = x.
Proof. intros Hx. unfold uint8. apply Z.mod_small. lia. Qed.

(** A lead or continuation byte: the marker bits [hi] over [n] payload
    bits. *)
Lemma marked_byte (hi x n : Z) :
  0 <= n -> 0 <= x < 2 ^ n -> Z.land hi (Z.ones n) = 0 ->
  0 <= hi -> hi + 2 ^ n <= 256 ->
  uint8 (Z.lor hi x) = Z.lor hi x /\ Z.lor hi x = hi + x.
Proof.
  intros Hn Hx Hhi H0 H256.
  pose proof (lor_disjoint_add hi x n Hn Hx Hhi) as ->.
  split; [apply uint8_small; lia | reflexivity].
Qed.

Lemma encode_1 (v : Z) : 0 <= v <= 0x7f -> wrenUtf8Encode v = [v].
Proof.
  intros Hv. unfold wrenUtf8Encode.
  destruct (Z.leb_spec v 0x7f) as [_|]; [|lia].
  change 0x7f with (Z.ones 7). rewrite land_low_bits by (simpl; lia).
  now rewrite uint8_small by lia.
Qed.

Lemma digit_bounds (v k : Z) :
  0 < k -> 0 <= v < 64 * k -> 0 <= v / 64 < k /\ 0 <= v mod 64 < 2 ^ 6.
Proof.
  intros Hk Hv. split; [split|].
  - apply Z.div_pos; lia.
  - apply Z.div_lt_upper_bound; lia.
  - apply Z.mod_pos_bound. lia.
Qed.

Ltac marked hi x n Hx :=
  let E := fresh "E" in
  destruct (marked_byte hi x n ltac:(lia) Hx ltac:(reflexivity) ltac:(lia)
              ltac:(simpl; lia)) as [E _];
  rewrite E; clear E.

Lemma encode_2 (v : Z) :
  0x7f < v <= 0x7ff ->
  wrenUtf8Encode v = [Z.lor 0xc0 (v / 64); Z.lor 0x80 (v mod 64)].
Proof.
  intros Hv. unfold wrenUtf8Encode.
  destruct (Z.leb_spec v 0x7f) as [|_]; [lia|].
  destruct (Z.leb_spec v 0x7ff) as [_|]; [|lia].
  rewrite (land_shiftr_digit v 0x7c0 6 5) by (reflexivity || lia).
  change 0x3f with (Z.ones 6). rewrite Z.land_ones by lia.
  change (2 ^ 6) with 64. change (2 ^ 5) with 32.
  destruct (digit_bounds v 32) as [Hh Hl]; [lia|lia|].
  rewrite (Z.mod_small (v / 64) 32) by exact Hh.
  marked 0xc0 (v / 64) 5 Hh. marked 0x80 (v mod 64) 6 Hl.
  reflexivity.
Qed.

Lemma encode_3 (v : Z) :
  0x7ff < v <= 0xffff ->
  wrenUtf8Encode v =
    [Z.lor 0xe0 (v / 64 / 64); Z.lor 0x80 ((v / 64) mod 64);
     Z.lor 0x80 (v mod 64)].
Proof.
  intros Hv. unfold wrenUtf8Encode.
  destruct (Z.leb_spec v 0x7f) as [|_]; [lia|].
  destruct (Z.leb_spec v 0x7ff) as [|_]; [lia|].
  destruct (Z.leb_spec v 0xffff) as [_|]; [|lia].
  rewrite (land_shiftr_digit v 0xf000 12 4) by (reflexivity || lia).
  rewrite (land_shiftr_digit v 0xfc0 6 6) by (reflexivity || lia).
  change 0x3f with (Z.ones 6). rewrite Z.land_ones by lia.
  change (2 ^ 12) with (64 * 64). rewrite <- Z.div_div by lia.
  change (2 ^ 6) with 64. change (2 ^ 4) with 16.
  destruct (digit_bounds v 1024) as [Hh Hl]; [lia|lia|].
  destruct (digit_bounds (v / 64) 16) as [Hh2 Hl2]; [lia|lia|].
  rewrite (Z.mod_small (v / 64 / 64) 16) by exact Hh2.
  marked 0xe0 (v / 64 / 64) 4 Hh2. marked 0x80 ((v / 64) mod 64) 6 Hl2.
  marked 0x80 (v mod 64) 6 Hl.
  reflexivity.
Qed.

Lemma encode_4 (v : Z) :
  0xffff < v <= 0x10ffff ->
  wrenUtf8Encode v =
    [Z.lor 0xf0 (v / 64 / 64 / 64); Z.lor 0x80 ((v / 64 / 64) mod 64);
     Z.lor 0x80 ((v / 64) mod 64); Z.lor 0x80 (v mod 64)].
Proof.
  intros Hv. unfold wrenUtf8Encode.
  destruct (Z.leb_spec v 0x7f) as [|_]; [lia|].
  destruct (Z.leb_spec v 0x7ff) as [|_]; [lia|].
  destruct (Z.leb_spec v 0xffff) as [|_]; [lia|].
  destruct (Z.leb_spec v 0x10ffff) as [_|]; [|lia].
  rewrite (land_shiftr_digit v 0x1c0000 18 3) by (reflexivity || lia).
  rewrite (land_shiftr_digit v 0x3f000 12 6) by (reflexivity || lia).
  rewrite (land_shiftr_digit v 0xfc0 6 6) by (reflexivity || lia).
  change 0x3f with (Z.ones 6). rewrite Z.land_ones by lia.
  change (2 ^ 18) with (64 * 64 * 64). change (2 ^ 12) with (64 * 64).
  rewrite <- !Z.div_div by lia.
  change (2 ^ 6) with 64. change (2 ^ 3) with 8.
  destruct (digit_bounds v 32768) as [Hh Hl]; [lia|lia|].
  destruct (digit_bounds (v / 64) 512) as [Hh2 Hl2]; [lia|lia|].
  destruct (digit_bounds (v / 64 / 64) 8) as [Hh3 Hl3]; [lia|lia|].
  rewrite (Z.mod_small (v / 64 / 64 / 64) 8) by exact Hh3.
  marked 0xf0 (v / 64 / 64 / 64) 3 Hh3.
  marked 0x80 ((v / 64 / 64) mod 64) 6 Hl3.
  marked 0x80 ((v / 64) mod 64) 6 Hl2.
  marked 0x80 (v mod 64) 6 Hl.
  reflexivity.
Qed.

(** What the decoder sees of a byte [hi | x] with [n] payload bits: it is
    not ASCII, its marker bits are [hi] and its payload is [x]. *)
Lemma marked_byte_fields (hi x n : Z) :
  0 <= n -> 0 <= x < 2 ^ n -> Z.land hi (Z.ones n) = 0 -> 0x80 <= hi ->
  (Z.lor hi x <=? 0x7f) = false
  /\ (forall mask, Z.land mask (Z.ones n) = 0 ->
        Z.land (Z.lor hi x) mask = Z.land hi mask)
  /\ Z.land (Z.lor hi x) (Z.ones n) = x.
Proof.
  intros Hn Hx Hhi Hge. split; [|split].
  - rewrite (lor_disjoint_add hi x n) by assumption. apply Z.leb_gt. lia.
  - intros mask Hmask. apply (land_lor_high hi x n); assumption.
  - apply land_lor_low; assumption.
Qed.

(** One turn of the decoder's loop on a well-formed continuation byte. *)
Lemma decodeLoop_step (buf : list Z) (pos remaining : nat) (value d : Z) :
  buf !! S pos = Some (Z.lor 0x80 d) -> 0 <= d < 2 ^ 6 ->
  decodeLoop buf pos (S remaining) value =
    decodeLoop buf (S pos) remaining (value * 64 + d).
Proof.
  intros Hb Hd. cbn [decodeLoop]. rewrite Hb.
  destruct (marked_byte_fields 0x80 d 6) as (_ & Hhigh & Hlow);
    [lia | exact Hd | reflexivity | lia |].
  rewrite (Hhigh 0xc0) by reflexivity.
  change 0x3f with (Z.ones 6). rewrite Hlow.
  change (Z.land 0x80 0xc0 =? 0x80) with true. cbn [negb].
  now rewrite shiftl_lor_add by lia.
Qed.

Lemma decode_1 (v : Z) : 0 <= v <= 0x7f -> wrenUtf8Decode [v] 1 = Some v.
Proof.
  intros Hv. unfold wrenUtf8Decode. cbn [lookup list_lookup].
  destruct (Z.leb_spec v 0x7f); [reflexivity | lia].
Qed.

Lemma decode_2 (h d : Z) :
  0 <= h < 2 ^ 5 -> 0 <= d < 2 ^ 6 ->
  wrenUtf8Decode [Z.lor 0xc0 h; Z.lor 0x80 d] 2 = Some (h * 64 + d).
Proof.
  intros Hh Hd. unfold wrenUtf8Decode. cbn [lookup list_lookup].
  destruct (marked_byte_fields 0xc0 h 5) as (-> & Hhigh & Hlow);
    [lia | exact Hh | reflexivity | lia |].
  rewrite (Hhigh 0xe0) by reflexivity.
  change (Z.land 0xc0 0xe0 =? 0xc0) with true. cbv iota.
  change (1 >? uint32 (2 - 1)) with false. cbv iota.
  change (Z.to_nat 1) with 1%nat.
  rewrite (decodeLoop_step _ 0 0 _ d) by (reflexivity || exact Hd).
  change 0x1f with (Z.ones 5). now rewrite Hlow.
Qed.

Lemma decode_3 (h d1 d0 : Z) :
  0 <= h < 2 ^ 4 -> 0 <= d1 < 2 ^ 6 -> 0 <= d0 < 2 ^ 6 ->
  wrenUtf8Decode [Z.lor 0xe0 h; Z.lor 0x80 d1; Z.lor 0x80 d0] 3 =
    Some ((h * 64 + d1) * 64 + d0).
Proof.
  intros Hh Hd1 Hd0. unfold wrenUtf8Decode. cbn [lookup list_lookup].
  destruct (marked_byte_fields 0xe0 h 4) as (-> & Hhigh & Hlow);
    [lia | exact Hh | reflexivity | lia |].
  rewrite (Hhigh 0xe0), (Hhigh 0xf0) by reflexivity.
  change (Z.land 0xe0 0xe0 =? 0xc0) with false.
  change (Z.land 0xe0 0xf0 =? 0xe0) with true. cbv iota.
  change (2 >? uint32 (3 - 1)) with false. cbv iota.
  change (Z.to_nat 2) with 2%nat.
  rewrite (decodeLoop_step _ 0 1 _ d1) by (reflexivity || exact Hd1).
  rewrite (decodeLoop_step _ 1 0 _ d0) by (reflexivity || exact Hd0).
  change 0x0f with (Z.ones 4). now rewrite Hlow.
Qed.

Lemma decode_4 (h d2 d1 d0 : Z) :
  0 <= h < 2 ^ 3 -> 0 <= d2 < 2 ^ 6 -> 0 <= d1 < 2 ^ 6 -> 0 <= d0 < 2 ^ 6 ->
  wrenUtf8Decode [Z.lor 0xf0 h; Z.lor 0x80 d2; Z.lor 0x80 d1; Z.lor 0x80 d0] 4 =
    Some (((h * 64 + d2) * 64 + d1) * 64 + d0).
Proof.
  intros Hh Hd2 Hd1 Hd0. unfold wrenUtf8Decode. cbn [lookup list_lookup].
  destruct (marked_byte_fields 0xf0 h 3) as (-> & Hhigh & Hlow);
    [lia | exact Hh | reflexivity | lia |].
  rewrite (Hhigh 0xe0), (Hhigh 0xf0), (Hhigh 0xf8) by reflexivity.
  change (Z.land 0xf0 0xe0 =? 0xc0) with false.
  change (Z.land 0xf0 0xf0 =? 0xe0) with false.
  change (Z.land 0xf0 0xf8 =? 0xf0) with true. cbv iota.
  change (3 >? uint32 (4 - 1)) with false. cbv iota.
  change (Z.to_nat 3) with 3%nat.
  rewrite (decodeLoop_step _ 0 2 _ d2) by (reflexivity || exact Hd2).
  rewrite (decodeLoop_step _ 1 1 _ d1) by (reflexivity || exact Hd1).
  rewrite (decodeLoop_step _ 2 0 _ d0) by (reflexivity || exact Hd0).
  change 0x07 with (Z.ones 3). now rewrite Hlow.
Qed.

Lemma digits_2 (v : Z) : v / 64 * 64 + v mod 64 = v.
Proof. pose proof (Z.div_mod v 64). lia. Qed.

(** C2. For every code point [c] from 0 to 0x10FFFF, decoding the bytes that
    [wrenUtf8Encode] stores for [c] gives [c] back, and the number of bytes
    stored is [wrenUtf8NumBytes c]: 1 up to 0x7F, 2 up to 0x7FF, 3 up to
    0xFFFF and 4 up to 0x10FFFF. *)
Theorem utf8_round_trip (c : Z) :
  0 <= c <= 0x10ffff ->
  wrenUtf8Decode (wrenUtf8Encode c) (wrenUtf8NumBytes c) = Some c
  /\ Z.of_nat (length (wrenUtf8Encode c)) = wrenUtf8NumBytes c
  /\ wrenUtf8NumBytes c =
       (if c <=? 0x7f then 1 else if c <=? 0x7ff then 2
        else if c <=? 0xffff then 3 else 4).
Proof.
  intros Hc.
  assert (Hn : wrenUtf8NumBytes c =
                (if c <=? 0x7f then 1 else if c <=? 0x7ff then 2
                 else if c <=? 0xffff then 3 else 4)).
  { unfold wrenUtf8NumBytes.
    destruct (c <=? 0x7f), (c <=? 0x7ff), (c <=? 0xffff); try reflexivity.
    destruct (Z.leb_spec c 0x10ffff); [reflexivity | lia]. }
  rewrite Hn.
  destruct (Z.leb_spec c 0x7f) as [H1|H1].
  { rewrite encode_1 by lia. rewrite decode_1 by lia. auto. }
  destruct (Z.leb_spec c 0x7ff) as [H2|H2].
  { rewrite encode_2 by lia.
    destruct (digit_bounds c 32) as [Hh Hl]; [lia|lia|].
    rewrite decode_2 by (exact Hl || (simpl; lia)).
    rewrite digits_2. auto. }
  destruct (Z.leb_spec c 0xffff) as [H3|H3].
  { rewrite encode_3 by lia.
    destruct (digit_bounds c 1024) as [Hh Hl]; [lia|lia|].
    destruct (digit_bounds (c / 64) 16) as [Hh2 Hl2]; [lia|lia|].
    rewrite decode_3 by (exact Hl || exact Hl2 || (simpl; lia)).
    rewrite !digits_2. auto. }
  rewrite encode_4 by lia.
  destruct (digit_bounds c 32768) as [Hh Hl]; [lia|lia|].
  destruct (digit_bounds (c / 64) 512) as [Hh2 Hl2]; [lia|lia|].
  destruct (digit_bounds (c / 64 / 64) 8) as [Hh3 Hl3]; [lia|lia|].
  rewrite decode_4 by (exact Hl || exact Hl2 || exact Hl3 || (simpl; lia)).
  rewrite !digits_2. auto.
Qed.

Lemma utf8_round_trip_witness :
  0 <= 0x20ac <= 0x10ffff
  /\ wrenUtf8Encode 0x20ac = [0xe2; 0x82; 0xac]
  /\ wrenUtf8Decode (wrenUtf8Encode 0x20ac) (wrenUtf8NumBytes 0x20ac)
     = Some 0x20ac.
Proof.
  split; [lia|]. split; [reflexivity|].
  apply (utf8_round_trip 0x20ac). lia.
Defined.

(** The encodings of scenario S1. *)
Example encode_dollar : wrenUtf8Encode 0x24 = [0x24].
Proof. reflexivity. Qed.

Example encode_cent : wrenUtf8Encode 0xa2 = [0xc2; 0xa2].
Proof. reflexivity. Qed.

Example encode_face : wrenUtf8Encode 0x1f600 = [0xf0; 0x9f; 0x98; 0x80].
Proof. reflexivity. Qed.

(** The loop reads offsets [pos + 1] to [pos + remaining] and no other. *)
Lemma decodeLoop_in_bounds (buf : list Z) (remaining pos : nat) (value : Z) :
  (pos + remaining < length buf)%nat ->
  is_Some (decodeLoop buf pos remaining value).
Proof.
  revert pos value. induction remaining as [|remaining IH]; intros pos value Hlen.
  - cbn. eauto.
  - cbn [decodeLoop].
    destruct (lookup_lt_is_Some_2 buf (S pos)) as [b ->]; [lia|].
    destruct (negb _); [eauto|]. apply IH. lia.
Qed.

Lemma decodeLoop_app (buf extra : list Z) (remaining pos : nat) (value : Z) :
  (pos + remaining < length buf)%nat ->
  decodeLoop (buf ++ extra) pos remaining value =
    decodeLoop buf pos remaining value.
Proof.
  revert pos value. induction remaining as [|remaining IH]; intros pos value Hlen.
  - reflexivity.
  - cbn [decodeLoop]. rewrite lookup_app_l by lia.
    destruct (buf !! S pos) as [b|]; [|reflexivity].
    destruct (negb _); [reflexivity|]. apply IH. lia.
Qed.

(** C10. A call [wrenUtf8Decode(bytes, length)] with [length >= 1] reads
    offsets 0 to [length - 1] only: on a buffer of exactly [length] bytes no
    read falls outside, the result is the same whatever bytes follow the
    buffer, and when the lead byte announces more continuation bytes than the
    [length - 1] that remain the result is -1. *)
Theorem decode_reads_within_length (buf : list Z) (len : Z) :
  1 <= len < 2 ^ 32 -> Z.of_nat (length buf) = len ->
  is_Some (wrenUtf8Decode buf len)
  /\ (forall extra, wrenUtf8Decode (buf ++ extra) len = wrenUtf8Decode buf len)
  /\ (forall b0 n, buf !! O = Some b0 -> announcedBytes b0 = Some n ->
        n > len - 1 -> wrenUtf8Decode buf len = Some (-1)).
Proof.
  intros Hlen Hbuf.
  assert (Hwrap : uint32 (len - 1) = len - 1)
    by (unfold uint32; apply Z.mod_small; lia).
  destruct (lookup_lt_is_Some_2 buf O) as [b0 Hb0]; [lia|].
  assert (Hloop : forall value r, 0 <= r -> (r >? len - 1) = false ->
            is_Some (decodeLoop buf O (Z.to_nat r) value)
            /\ forall extra, decodeLoop (buf ++ extra) O (Z.to_nat r) value
                             = decodeLoop buf O (Z.to_nat r) value).
  { intros value r Hr Hgt.
    assert (0 + Z.to_nat r < length buf)%nat by lia.
    split; [apply decodeLoop_in_bounds | intros; apply decodeLoop_app];
      assumption. }
  split; [|split].
  - unfold wrenUtf8Decode. rewrite Hb0, Hwrap.
    destruct (b0 <=? 0x7f); [eauto|].
    destruct (Z.land b0 0xe0 =? 0xc0);
      [| destruct (Z.land b0 0xf0 =? 0xe0);
         [| destruct (Z.land b0 0xf8 =? 0xf0); [|eauto]]];
      (match goal with
       | |- context [?r >? len - 1] =>
           destruct (r >? len - 1) eqn:Hgt; [eauto | apply Hloop; [lia|exact Hgt]]
       end).
  - intros extra. unfold wrenUtf8Decode.
    rewrite lookup_app_l by lia. rewrite Hb0, Hwrap.
    destruct (b0 <=? 0x7f); [reflexivity|].
    destruct (Z.land b0 0xe0 =? 0xc0);
      [| destruct (Z.land b0 0xf0 =? 0xe0);
         [| destruct (Z.land b0 0xf8 =? 0xf0); [|reflexivity]]];
      (match goal with
       | |- context [?r >? len - 1] =>
           destruct (r >? len - 1) eqn:Hgt; [reflexivity | apply Hloop; [lia|exact Hgt]]
       end).
  - intros b n Hb Hn Hmore. rewrite Hb0 in Hb. injection Hb as <-.
    unfold wrenUtf8Decode. rewrite Hb0, Hwrap.
    unfold announcedBytes in Hn.
    destruct (b0 <=? 0x7f); [injection Hn as <-; lia|].
    destruct (Z.land b0 0xe0 =? 0xc0);
      [| destruct (Z.land b0 0xf0 =? 0xe0);
         [| destruct (Z.land b0 0xf8 =? 0xf0); [|discriminate]]];
      injection Hn as <-;
      (match goal with
       | |- context [?r >? len - 1] =>
           destruct (Z.gtb_spec r (len - 1)); [reflexivity | lia]
       end).
Qed.

(** A three-byte sequence cut after its second byte. *)
Lemma decode_reads_within_length_witness :
  is_Some (wrenUtf8Decode [0xe2; 0x82] 2)
  /\ wrenUtf8Decode [0xe2; 0x82] 2 = Some (-1).
Proof.
  destruct (decode_reads_within_length [0xe2; 0x82] 2) as (Hdef & _ & Htrunc);
    [lia | reflexivity |].
  split; [exact Hdef|].
  apply (Htrunc 0xe2 2); [reflexivity | reflexivity | lia].
Defined.

End Utf8Facts.

(** ** Hashing of values *)

Module ValueFacts.
Import Value Examples.

(** The hash of a NaN-tagged value that is not an object is the XOR of the
    halves of its 64 bits, whatever the value is. *)
Lemma nan_hashValue_bits (heap : ObjPtr -> Obj) (value : NanValue) :
  nan_IS_OBJ value = false ->
  nan_hashValue heap value = Z.lxor (bits32_0 value) (bits32_1 value).
Proof. intros Hobj. unfold nan_hashValue. now rewrite Hobj. Qed.

Lemma nan_number_is_not_object (bits : Z) :
  nan_IS_NUM bits = true -> nan_IS_OBJ bits = false.
Proof.
  unfold nan_IS_NUM, nan_IS_OBJ. intros Hnum.
  apply negb_true_iff, Z.eqb_neq in Hnum. apply Z.eqb_neq. intros Hobj.
  apply Hnum.
  replace QNAN with (Z.land (Z.lor QNAN SIGN_BIT) QNAN) at 1 by reflexivity.
  rewrite Z.land_assoc, Hobj. reflexivity.
Qed.

(** C8, as the code has it. With the tagged union, [hashValue] gives 2 for
    true, 0 for false, 1 for null and the XOR of the two 32-bit halves of the
    bits for a number. With NaN tagging it gives the XOR of the two halves
    of the 64-bit value for a number and for true, false and null alike, which
    for these three is 0x7ffc0003, 0x7ffc0002 and 0x7ffc0001. *)
Theorem hashValue_primitives (heap : ObjPtr -> Obj) :
  (hashValue (Value := UnionValue) heap TRUE_VAL = 2
   /\ hashValue (Value := UnionValue) heap FALSE_VAL = 0
   /\ hashValue (Value := UnionValue) heap NULL_VAL = 1
   /\ forall bits, hashValue (Value := UnionValue) heap (NUM_VAL bits)
                   = Z.lxor (bits32_0 bits) (bits32_1 bits))
  /\ (hashValue (Value := NanValue) heap TRUE_VAL = 0x7ffc0003
      /\ hashValue (Value := NanValue) heap FALSE_VAL = 0x7ffc0002
      /\ hashValue (Value := NanValue) heap NULL_VAL = 0x7ffc0001
      /\ forall bits, IS_NUM (Value := NanValue) (NUM_VAL bits) = true ->
                      hashValue (Value := NanValue) heap (NUM_VAL bits)
                      = Z.lxor (bits32_0 bits) (bits32_1 bits)).
Proof.
  split; [repeat split|].
  repeat split.
  intros bits Hnum. cbn in *.
  apply nan_hashValue_bits, nan_number_is_not_object, Hnum.
Qed.

(** The double 1.0 under both encodings. *)
Lemma hashValue_primitives_witness :
  IS_NUM (Value := NanValue) (NUM_VAL 0x3ff0000000000000) = true
  /\ hashValue (Value := NanValue) noObjects (NUM_VAL 0x3ff0000000000000)
     = 0x3ff00000.
Proof.
  split; [reflexivity|].
  destruct (hashValue_primitives noObjects) as (_ & _ & _ & _ & Hnum).
  rewrite Hnum; reflexivity.
Defined.

Lemma lxor_below_pow2 (a b n : Z) :
  0 < n -> 0 <= a < 2 ^ n -> 0 <= b < 2 ^ n -> 0 <= Z.lxor a b < 2 ^ n.
Proof.
  intros Hn Ha Hb.
  assert (H0 : 0 <= Z.lxor a b) by (apply Z.lxor_nonneg; lia).
  split; [exact H0|].
  destruct (Z.eq_dec (Z.lxor a b) 0) as [->|Hne]; [apply Z.pow_pos_nonneg; lia|].
  apply Z.log2_lt_pow2; [lia|].
  eapply Z.le_lt_trans; [apply Z.log2_lxor; lia|].
  assert (Z.log2 a < n).
  { destruct (Z.eq_dec a 0) as [->|]; [cbn; lia|]. apply Z.log2_lt_pow2; lia. }
  assert (Z.log2 b < n).
  { destruct (Z.eq_dec b 0) as [->|]; [cbn; lia|]. apply Z.log2_lt_pow2; lia. }
  lia.
Qed.

(** The hash of a boxed singleton does not hang on the numbers chosen for
    [QNAN] and the tags: whenever the upper half of a boxed value holds the bits of a
    NaN, which make it 8 or more, and the lower half a tag of three bits, the
    XOR of the halves is 8 or more, so it is none of 0, 1 and 2. *)
Lemma boxed_tag_hash (upper tag : Z) :
  8 <= upper < 2 ^ 32 -> 0 <= tag < 8 ->
  Z.lxor (bits32_0 (Z.lor (upper * 2 ^ 32) tag))
         (bits32_1 (Z.lor (upper * 2 ^ 32) tag)) = Z.lxor tag upper
  /\ 8 <= Z.lxor tag upper.
Proof.
  intros Hupper Htag.
  rewrite (lor_disjoint_add (upper * 2 ^ 32) tag 32) by
    (try lia; rewrite Z.land_ones by lia; apply Z.mod_mul; lia).
  unfold bits32_0, bits32_1.
  rewrite Z.add_comm, Z_mod_plus_full, (Z.mod_small tag) by lia.
  rewrite Z.div_add, (Z.div_small tag), Z.add_0_l, (Z.mod_small upper) by lia.
  split; [reflexivity|].
  destruct (Z.lt_ge_cases (Z.lxor tag upper) 8) as [Hlow|]; [exfalso | lia].
  assert (Hback : upper = Z.lxor tag (Z.lxor tag upper))
    by now rewrite <- Z.lxor_assoc, Z.lxor_nilpotent, Z.lxor_0_l.
  assert (0 <= Z.lxor tag upper) by (apply Z.lxor_nonneg; lia).
  pose proof (lxor_below_pow2 tag (Z.lxor tag upper) 3 ltac:(lia) ltac:(lia)
                ltac:(lia)) as Hbound.
  rewrite <- Hback in Hbound. lia.
Qed.

(** C8 as stated fails with NaN tagging: the hash of true is not 2. *)
Lemma nan_tagging_hash_of_true :
  hashValue (Value := NanValue) noObjects TRUE_VAL = 0x7ffc0003
  /\ hashValue (Value := NanValue) noObjects TRUE_VAL <> 2.
Proof. split; [reflexivity | discriminate]. Qed.

End ValueFacts.

(** ** Lists *)

Module ObjListFacts.
Import ObjList Examples.

Section ObjListFacts.
Context {Value : Type}.
Implicit Types (data : list Value) (elements : ValueBuffer Value).

Lemma shiftUp_in_bounds (n : nat) data (i : nat) :
  (i + n < length data)%nat ->
  exists shifted, shiftUp n data i = Some shifted /\ length shifted = length data.
Proof.
  revert data i. induction n as [|n IH]; intros data i Hlen.
  - exists data. split; reflexivity.
  - cbn [shiftUp].
    destruct (lookup_lt_is_Some_2 data (S i)) as [next ->]; [lia|].
    destruct (IH (<[i := next]> data) (S i)) as (shifted & -> & Hshifted).
    + rewrite length_insert. lia.
    + exists shifted. split; [reflexivity|].
      now rewrite Hshifted, length_insert.
Qed.

(** C6, as the code has it. For a list with a valid index,
    [wrenListRemoveAt] returns the element at the index and takes one from
    the count; it halves the capacity exactly when the count before the
    removal is at most half the capacity, that is, when the count after the
    removal is below half the capacity, and leaves the capacity as it is
    otherwise. *)
Theorem wrenListRemoveAt_capacity elements (index : Z) :
  0 <= index < count elements ->
  count elements <= capacity elements ->
  Z.of_nat (length (data elements)) = capacity elements ->
  exists removed after,
    wrenListRemoveAt elements index = Some (removed, after)
    /\ data elements !! Z.to_nat index = Some removed
    /\ count after = count elements - 1
    /\ (count after < capacity elements / 2 ->
        capacity after = capacity elements / 2)
    /\ (capacity elements / 2 <= count after ->
        capacity after = capacity elements).
Proof.
  intros Hindex Hcount Hdata. unfold wrenListRemoveAt.
  destruct (lookup_lt_is_Some_2 (data elements) (Z.to_nat index))
    as [removed Hremoved]; [lia|].
  rewrite Hremoved.
  destruct (shiftUp_in_bounds (Z.to_nat (count elements - 1 - index))
              (data elements) (Z.to_nat index)) as (shifted & -> & _); [lia|].
  cbn [count capacity data].
  assert (Hquot : Z.quot (capacity elements) GROW_FACTOR = capacity elements / 2)
    by (unfold GROW_FACTOR; apply Z.quot_div_nonneg; lia).
  rewrite Hquot.
  destruct (Z.geb_spec (capacity elements / 2) (count elements)) as [Hge|Hlt];
    cbn [count capacity data];
    eexists _, _; (split; [reflexivity|]); cbn [count capacity data];
    repeat split; try assumption; lia.
Qed.

End ObjListFacts.

(** Removing from eight elements in sixteen slots: the capacity is halved. *)
Lemma wrenListRemoveAt_capacity_witness :
  exists removed after,
    wrenListRemoveAt eightOfSixteen 0 = Some (removed, after)
    /\ capacity after = 8.
Proof.
  destruct (wrenListRemoveAt_capacity eightOfSixteen 0)
    as (removed & after & Hcall & _ & Hcount & Hhalved & _);
    [cbn; lia | cbn; lia | reflexivity |].
  exists removed, after. split; [exact Hcall|].
  rewrite Hhalved; [reflexivity | rewrite Hcount; reflexivity].
Defined.

(** C6 as stated fails: removing from nine elements in sixteen slots leaves
    eight, which is half the capacity, and the capacity stays sixteen. *)
Lemma wrenListRemoveAt_half_full :
  exists removed after,
    wrenListRemoveAt nineOfSixteen 0 = Some (removed, after)
    /\ count after <= capacity nineOfSixteen / 2
    /\ capacity after = capacity nineOfSixteen
    /\ ~ (capacity after = capacity nineOfSixteen / 2
          <-> count after <= capacity nineOfSixteen / 2).
Proof.
  eexists _, _. split; [reflexivity|].
  split; [discriminate|]. split; [reflexivity|]. intros [_ Hhalved].
  discriminate Hhalved. discriminate.
Qed.

End ObjListFacts.

(** ** Classes *)

Module ClassFacts.
Import Classes Examples.

Lemma store_store (vm : WrenVM) (p : ObjPtr) (c c' : ObjClass) :
  store (store vm p c) p c' = store vm p c'.
Proof. unfold store. cbn. now rewrite insert_insert_eq. Qed.

Lemma store_same (vm : WrenVM) (p : ObjPtr) (c : ObjClass) :
  heap vm !! p = Some c -> store vm p c = vm.
Proof. intros Hp. destruct vm as [h r]. unfold store. cbn in *. now rewrite insert_id. Qed.

Lemma set_methods_same (c : ObjClass) : set_methods c (methods c) = c.
Proof. now destruct c. Qed.

Lemma set_methods_twice (c : ObjClass) (ms ms' : list Method) :
  set_methods (set_methods c ms) ms' = set_methods c ms'.
Proof. reflexivity. Qed.

(** Binding the next symbol of a class that has the first [k] methods of
    [ms] gives it the first [k + 1]. *)
Lemma wrenBindMethod_next (vm : WrenVM) (p : ObjPtr) (sub : ObjClass)
    (ms : list Method) (k : nat) (m : Method) :
  heap vm !! p = Some sub -> methods sub = take k ms -> ms !! k = Some m ->
  wrenBindMethod vm p (Z.of_nat k) m
  = Some (store vm p (set_methods sub (take (S k) ms))).
Proof.
  intros Hp Hsub Hk. unfold wrenBindMethod. rewrite Hp, Hsub.
  assert (Hlt : (k < length ms)%nat) by (eapply lookup_lt_Some; eassumption).
  assert (Hlen : length (take k ms) = k) by (rewrite length_take; lia).
  rewrite Hlen.
  destruct (Z.geb_spec (Z.of_nat k) (Z.of_nat k)) as [_|]; [|lia].
  unfold wrenMethodBufferFill.
  replace (Z.to_nat (Z.of_nat k - Z.of_nat k + 1)) with 1%nat by lia.
  cbn [replicate]. rewrite length_app, Hlen. cbn [length].
  destruct (Z.leb_spec 0 (Z.of_nat k)); [|lia].
  destruct (Z.ltb_spec (Z.of_nat k) (Z.of_nat (k + 1))); [|lia].
  cbn [andb]. rewrite Nat2Z.id.
  rewrite (take_S_r ms k m Hk).
  replace (<[k := m]> (take k ms ++ [noMethod])) with (take k ms ++ [m]);
    [reflexivity|].
  rewrite insert_app_r_alt by lia. rewrite Hlen, Nat.sub_diag. reflexivity.
Qed.

(** The loop copies the methods of the superclass from symbol [k] on. *)
Lemma inheritMethods_copies (n : nat) :
  forall (vm : WrenVM) (p q : ObjPtr) (sub super : ObjClass) (k : nat),
    p <> q -> heap vm !! p = Some sub -> heap vm !! q = Some super ->
    methods sub = take k (methods super) ->
    (k + n = length (methods super))%nat ->
    inheritMethods n vm p q (Z.of_nat k)
    = Some (store vm p (set_methods sub (methods super))).
Proof.
  induction n as [|n IH]; intros vm p q sub super k Hpq Hp Hq Hsub Hlen.
  - cbn [inheritMethods]. rewrite Nat.add_0_r in Hlen. subst k.
    rewrite firstn_all in Hsub. rewrite <- Hsub, set_methods_same.
    now rewrite store_same.
  - cbn [inheritMethods]. rewrite Hq, Nat2Z.id.
    destruct (lookup_lt_is_Some_2 (methods super) k) as [m Hm]; [lia|].
    rewrite Hm.
    rewrite (wrenBindMethod_next vm p sub (methods super) k m Hp Hsub Hm).
    replace (Z.of_nat k + 1) with (Z.of_nat (S k)) by lia.
    rewrite (IH _ p q (set_methods sub (take (S k) (methods super))) super (S k)).
    + now rewrite store_store, set_methods_twice.
    + exact Hpq.
    + cbn. apply lookup_insert_eq.
    + cbn. now rewrite lookup_insert_ne.
    + reflexivity.
    + lia.
Qed.

(** [wrenBindSuperclass] on a class that has no methods yet. *)
Lemma wrenBindSuperclass_new (vm : WrenVM) (p q : ObjPtr)
    (sub super : ObjClass) :
  p <> q -> heap vm !! p = Some sub -> heap vm !! q = Some super ->
  methods sub = [] ->
  wrenBindSuperclass vm p q
  = Some (store vm p
            {| classObj := classObj sub; superclass := Some q;
               numFields := int32 (numFields sub + numFields super);
               name := name sub; methods := methods super |}).
Proof.
  intros Hpq Hp Hq Hsub. unfold wrenBindSuperclass. rewrite Hp.
  cbn [heap store]. rewrite lookup_insert_eq, lookup_insert_ne, Hq by exact Hpq.
  rewrite store_store. rewrite !lookup_insert_ne by exact Hpq. rewrite Hq.
  rewrite (inheritMethods_copies _ _ p q
             (set_numFields (set_superclass sub (Some q))
                (int32 (numFields (set_superclass sub (Some q)) + numFields super)))
             super 0).
  - now rewrite store_store.
  - exact Hpq.
  - cbn. apply lookup_insert_eq.
  - cbn. now rewrite lookup_insert_ne.
  - cbn. exact Hsub.
  - reflexivity.
Qed.

Lemma assignClassObj_stored (vm : WrenVM) (p : ObjPtr) (c : ObjClass)
    (cls : option ObjPtr) :
  assignClassObj (store vm p c) p cls = Some (store vm p (set_classObj c cls)).
Proof.
  unfold assignClassObj. cbn [heap store]. rewrite lookup_insert_eq.
  now rewrite store_store.
Qed.

Lemma allocate_fresh (vm : WrenVM) (p : ObjPtr) (c : ObjClass) :
  heap vm !! p = Some c -> allocate vm <> p.
Proof.
  intros Hp Heq. apply (is_fresh (dom (heap vm))).
  change (fresh (dom (heap vm))) with (allocate vm). rewrite Heq.
  apply elem_of_dom. eauto.
Qed.

Lemma int32_small (x : Z) : - 2 ^ 31 <= x < 2 ^ 31 -> int32 x = x.
Proof. intros Hx. unfold int32. rewrite Z.mod_small; lia. Qed.

(** C7. [wrenNewClass] with superclass [super], [n] fields and a name
    returns a class whose [numFields] is [n] plus that of [super] and whose
    method table holds, at every symbol below the method count of [super],
    the method that [super] has there. The superclass is a class of the heap,
    [vm->classClass] is set, and the sum of the fields is an [int]. *)
Theorem wrenNewClass_inherits (vm : WrenVM) (superclass : ObjPtr)
    (n : Z) (name : list Z) (super root : ObjClass) (rootPtr : ObjPtr) :
  heap vm !! superclass = Some super ->
  classClass vm = Some rootPtr -> heap vm !! rootPtr = Some root ->
  - 2 ^ 31 <= n + numFields super < 2 ^ 31 ->
  exists (classObj : ObjPtr) (vm' : WrenVM) (C : ObjClass),
    wrenNewClass vm superclass n name = Some (classObj, vm')
    /\ heap vm' !! classObj = Some C
    /\ numFields C = n + numFields super
    /\ (forall i, (i < length (methods super))%nat ->
          methods C !! i = methods super !! i)
    /\ Classes.superclass C = Some superclass
    /\ heap vm' !! superclass = Some super.
Proof.
  intros HS Hroot HrootPtr Hint. unfold wrenNewClass, wrenNewSingleClass.
  set (meta := allocate vm).
  assert (Hmeta_S : meta <> superclass) by (eapply allocate_fresh; eassumption).
  assert (Hmeta_root : meta <> rootPtr) by (eapply allocate_fresh; eassumption).
  rewrite assignClassObj_stored. cbn [mbind option_bind classClass store].
  rewrite Hroot. cbn [mbind option_bind].
  erewrite (wrenBindSuperclass_new _ meta rootPtr); cycle 1.
  { exact Hmeta_root. }
  { cbn. apply lookup_insert_eq. }
  { cbn. rewrite lookup_insert_ne by exact Hmeta_root. exact HrootPtr. }
  { reflexivity. }
  cbn [mbind option_bind]. rewrite store_store.
  match goal with |- context [allocate ?v] => set (vm1 := v) end.
  set (cls := allocate vm1).
  assert (HS1 : heap vm1 !! superclass = Some super).
  { subst vm1. cbn. now rewrite lookup_insert_ne. }
  assert (Hcls_S : cls <> superclass) by (eapply allocate_fresh; eassumption).
  rewrite assignClassObj_stored. cbn [mbind option_bind].
  erewrite (wrenBindSuperclass_new _ cls superclass); cycle 1.
  { exact Hcls_S. }
  { cbn. apply lookup_insert_eq. }
  { cbn. rewrite lookup_insert_ne by exact Hcls_S. exact HS1. }
  { reflexivity. }
  cbn [mbind option_bind]. rewrite store_store.
  eexists _, _, _. split; [reflexivity|].
  split; [cbn; apply lookup_insert_eq|]. cbn.
  split; [apply int32_small, Hint|].
  split; [reflexivity|]. split; [reflexivity|].
  now rewrite lookup_insert_ne.
Qed.

(** Scenario S4: B, with one field, as a subclass of A. *)
Lemma wrenNewClass_inherits_witness :
  exists (classObj : ObjPtr) (vm' : WrenVM) (C : ObjClass),
    wrenNewClass vmS4 2 1 [66] = Some (classObj, vm')
    /\ heap vm' !! classObj = Some C
    /\ numFields C = 3
    /\ methods C !! 7%nat = Some method7.
Proof.
  destruct (wrenNewClass_inherits vmS4 2 1 [66]
              {| classObj := None; superclass := Some 1; numFields := 2;
                 name := [65]; methods := replicate 7 noMethod ++ [method7] |}
              {| classObj := Some 1; superclass := None; numFields := 0;
                 name := [67]; methods := [] |} 1)
    as (classObj & vm' & C & Hcall & HC & Hfields & Hmethods & _);
    [reflexivity | reflexivity | reflexivity | cbn; lia |].
  exists classObj, vm', C. split; [exact Hcall|]. split; [exact HC|].
  split; [exact Hfields|]. rewrite Hmethods; [reflexivity | cbn; lia].
Defined.

End ClassFacts.

(** ** Substring search: the shift table *)

Module StringFindFacts.
Import Value StringFind.

(** Scenario S5. *)
Example find_world :
  wrenStringFind (str [104; 101; 108; 108; 111; 32; 119; 111; 114; 108; 100])
    (str [119; 111; 114; 108; 100]) = Returns 6.
Proof. reflexivity. Qed.

Example find_empty_needle : wrenStringFind (str [97; 98; 99]) (str []) = Returns 0.
Proof. reflexivity. Qed.

Example find_long_needle :
  wrenStringFind (str [97]) (str [97; 98; 99]) = Returns UINT32_MAX.
Proof. reflexivity. Qed.

(** C4 fails on the code. The table has [UINT8_MAX], that is 255, entries, so
    the byte 0xFF indexes one past its end: with the needle "\xFFa" the
    loop over the needle stores outside the table, and with the needle "a"
    and the haystack "\xFFa" the search loop reads outside it. *)
Theorem shift_table_misses_byte_255 :
  length (replicate (Z.to_nat UINT8_MAX) 2) = 255%nat
  /\ fillShift 1 [0xff; 0x61] 1 (replicate (Z.to_nat UINT8_MAX) 2) 0
     = OutOfBounds
  /\ wrenStringFind (str [0xff; 0x61]) (str [0xff; 0x61]) = OutOfBounds
  /\ wrenStringFind (str [0xff; 0x61]) (str [0x61]) = OutOfBounds.
Proof. repeat split. Qed.

(** C3 fails on the code, for the same reason. The needle "a" occurs in the
    haystack "\xFFa" at index 1 and not before, but the search does not
    return 1: after the mismatch at index 0 it reads the shift for the byte
    0xFF, which is outside the table. *)
Theorem find_after_byte_255 :
  take 1 (drop 1 [0xff; 0x61]) = [0x61]
  /\ take 1 (drop 0 [0xff; 0x61]) <> [0x61]
  /\ wrenStringFind (str [0xff; 0x61]) (str [0x61]) = OutOfBounds
  /\ wrenStringFind (str [0xff; 0x61]) (str [0x61]) <> Returns 1.
Proof. repeat split; discriminate. Qed.

(** *** The search is right whenever it stays inside the table *)

Lemma occursAt_byte (haystack needle : list Z) (j t : nat) (b : Z) :
  occursAt haystack needle j -> needle !! t = Some b ->
  haystack !! (j + t)%nat = Some b.
Proof.
  unfold occursAt. intros Hocc Hb.
  pose proof (lookup_lt_Some _ _ _ Hb) as Ht.
  rewrite <- Hocc in Hb.
  rewrite lookup_take_lt in Hb by exact Ht. now rewrite lookup_drop in Hb.
Qed.

Lemma occursAt_fits (haystack needle : list Z) (j : nat) :
  occursAt haystack needle j -> needle <> [] ->
  (j + length needle <= length haystack)%nat.
Proof.
  unfold occursAt. intros Hocc Hne.
  assert (Hlen : length (take (length needle) (drop j haystack)) = length needle)
    by now rewrite Hocc.
  rewrite length_take, length_drop in Hlen.
  destruct needle; [congruence|]. cbn [length] in *. lia.
Qed.

(** The test of the search loop is the test for an occurrence. *)
Lemma window_test (haystack needle : list Z) (index : nat) (needleEnd : nat)
    (lastChar c : Z) :
  length needle = S needleEnd ->
  needle !! needleEnd = Some lastChar ->
  haystack !! (index + needleEnd)%nat = Some c ->
  (lastChar =? c)
  && memcmp_eq (drop index haystack) needle (Z.of_nat needleEnd) = true
  <-> occursAt haystack needle index.
Proof.
  intros Hlen Hlast Hc. unfold occursAt, memcmp_eq. rewrite Nat2Z.id, Hlen.
  assert (Hwindow : drop index haystack !! needleEnd = Some c)
    by now rewrite lookup_drop.
  rewrite (take_S_r _ _ _ Hwindow).
  assert (Hneedle : needle = take needleEnd needle ++ [lastChar]).
  { rewrite <- (take_S_r _ _ _ Hlast), <- Hlen. now rewrite firstn_all. }
  rewrite andb_true_iff, Z.eqb_eq, bool_decide_eq_true. split.
  - intros [-> ->]. now rewrite <- Hneedle.
  - intros Heq. rewrite Hneedle in Heq.
    apply app_inj_tail in Heq as [Hprefix ->]. auto.
Qed.

Lemma fillShift_safe (n : nat) :
  forall (needle : list Z) (needleEnd : Z) (shift : list Z) (index : Z)
         (shift' : list Z),
    0 <= index -> index + Z.of_nat n <= needleEnd ->
    safeShifts needle needleEnd index shift ->
    fillShift n needle needleEnd shift index = Returns shift' ->
    safeShifts needle needleEnd (index + Z.of_nat n) shift'
    /\ length shift' = length shift.
Proof.
  induction n as [|n IH]; intros needle needleEnd shift index shift'
    Hindex Hend Hsafe Hfill; cbn [fillShift] in Hfill.
  - injection Hfill as <-. rewrite Z.add_0_r. auto.
  - destruct (needle !! Z.to_nat index) as [c0|] eqn:Hc0; [|discriminate].
    destruct (Z.ltb_spec (uint8 c0) (Z.of_nat (length shift))) as [Hin|];
      [|discriminate].
    assert (0 <= uint8 c0) by (unfold uint8; apply Z.mod_pos_bound; lia).
    apply IH in Hfill as [Hsafe' Hlen']; [| lia | lia |].
    + rewrite length_insert in Hlen'. split; [|exact Hlen'].
      replace (index + Z.of_nat (S n)) with (index + 1 + Z.of_nat n) by lia.
      exact Hsafe'.
    + intros c s Hs.
      destruct (decide (c = Z.to_nat (uint8 c0))) as [->|Hother].
      * rewrite list_lookup_insert_eq in Hs by lia. injection Hs as <-.
        split; [lia|]. intros i b Hi Hb Hsame. lia.
      * rewrite list_lookup_insert_ne in Hs by congruence.
        destruct (Hsafe c s Hs) as [Hrange Hfar]. split; [exact Hrange|].
        intros i b Hi Hb Hsame.
        destruct (decide (Z.of_nat i = index)) as [Heq|Hneq].
        -- rewrite <- Heq, Nat2Z.id in Hc0. congruence.
        -- apply (Hfar i b); [lia | exact Hb | exact Hsame].
Qed.

Section Search.
Variables (haystack needle : list Z) (needleEnd : nat) (lastChar : Z).
Variable shift : list Z.
Hypothesis Hneedle : length needle = S needleEnd.
Hypothesis Hlast : needle !! needleEnd = Some lastChar.
Hypothesis Hfits : (length needle <= length haystack)%nat.
Hypothesis Hsize : Z.of_nat (length haystack) < 2 ^ 32.
Hypothesis Hsafe :
  safeShifts needle (Z.of_nat needleEnd) (Z.of_nat needleEnd) shift.

Let range : Z := Z.of_nat (length haystack) - Z.of_nat (length needle).

(** A mismatch at [index] with the byte [c] under the end of the window rules
    out every occurrence before [index + s], [s] the shift of [c]. *)
Lemma shift_skips_no_occurrence (index : nat) (c s : Z) (j : nat) :
  haystack !! (index + needleEnd)%nat = Some c ->
  shift !! Z.to_nat (uint8 c) = Some s ->
  ~ occursAt haystack needle index ->
  (index <= j)%nat -> Z.of_nat j < Z.of_nat index + s ->
  ~ occursAt haystack needle j.
Proof.
  intros Hc Hs Hhere Hle Hlt Hocc.
  destruct (decide (j = index)) as [->|Hne]; [contradiction|].
  destruct (Hsafe _ _ Hs) as [Hrange Hfar].
  set (d := (j - index)%nat).
  assert (Hd : (0 < d <= needleEnd)%nat) by lia.
  destruct (lookup_lt_is_Some_2 needle (needleEnd - d)) as [b Hb]; [lia|].
  pose proof (occursAt_byte _ _ _ _ _ Hocc Hb) as Hsame.
  replace (j + (needleEnd - d))%nat with (index + needleEnd)%nat in Hsame by lia.
  rewrite Hc in Hsame. injection Hsame as ->.
  specialize (Hfar (needleEnd - d)%nat b ltac:(lia) Hb eq_refl). lia.
Qed.

Lemma searchLoop_correct (fuel : nat) :
  forall (index : nat) (r : Z),
    (forall j, (j < index)%nat -> ~ occursAt haystack needle j) ->
    Z.of_nat index <= Z.of_nat (length haystack) ->
    searchLoop fuel haystack needle (Z.of_nat needleEnd) lastChar range shift
      (Z.of_nat index) = Returns r ->
    (r = UINT32_MAX /\ forall j, ~ occursAt haystack needle j)
    \/ (0 <= r <= range /\ occursAt haystack needle (Z.to_nat r)
        /\ forall j, (j < Z.to_nat r)%nat -> ~ occursAt haystack needle j).
Proof.
  induction fuel as [|fuel IH]; intros index r Hbefore Hindex Hsearch;
    cbn [searchLoop] in Hsearch; [discriminate|].
  assert (Hne : needle <> []) by (destruct needle; [discriminate | congruence]).
  destruct (Z.leb_spec (Z.of_nat index) range) as [Hin|Hout].
  - rewrite uint32_small in Hsearch by (subst range; lia).
    replace (Z.to_nat (Z.of_nat index + Z.of_nat needleEnd))
      with (index + needleEnd)%nat in Hsearch by lia.
    destruct (haystack !! (index + needleEnd)%nat) as [c|] eqn:Hc; [|discriminate].
    pose proof (window_test haystack needle index needleEnd lastChar c
                  Hneedle Hlast Hc) as Htest.
    rewrite Nat2Z.id in Hsearch.
    destruct ((lastChar =? c)
              && memcmp_eq (drop index haystack) needle (Z.of_nat needleEnd)).
    + injection Hsearch as <-. right. rewrite Nat2Z.id.
      split; [lia|]. split; [now apply Htest | exact Hbefore].
    + destruct (shift !! Z.to_nat (uint8 c)) as [s|] eqn:Hs; [|discriminate].
      destruct (Hsafe _ _ Hs) as [Hrange _].
      assert (Hhere : ~ occursAt haystack needle index)
        by (intros Hocc; apply Htest in Hocc; discriminate).
      rewrite uint32_small in Hsearch by (subst range; lia).
      replace (Z.of_nat index + s) with (Z.of_nat (index + Z.to_nat s))
        in Hsearch by lia.
      apply IH in Hsearch; [exact Hsearch | | subst range; lia].
      intros j Hj. destruct (le_lt_dec index j) as [Hle|Hlt];
        [|apply Hbefore; exact Hlt].
      apply (shift_skips_no_occurrence index c s j Hc Hs Hhere Hle). lia.
  - injection Hsearch as <-. left. split; [reflexivity|].
    intros j Hocc. pose proof (occursAt_fits _ _ _ Hocc Hne) as Hj.
    apply (Hbefore j); [subst range; lia | exact Hocc].
Qed.

(** The loop ends: each turn moves the window on. *)
Lemma searchLoop_ends (fuel : nat) :
  forall index : nat,
    (0 < fuel)%nat -> range + 2 <= Z.of_nat index + Z.of_nat fuel ->
    Z.of_nat index <= Z.of_nat (length haystack) ->
    searchLoop fuel haystack needle (Z.of_nat needleEnd) lastChar range shift
      (Z.of_nat index) <> Hangs.
Proof.
  induction fuel as [|fuel IH]; intros index Hpos Hfuel Hindex; cbn [searchLoop].
  - lia.
  - destruct (Z.leb_spec (Z.of_nat index) range) as [Hin|Hout]; [|discriminate].
    destruct (haystack !! _) as [c|]; [|discriminate].
    destruct (_ && _); [discriminate|].
    destruct (shift !! Z.to_nat (uint8 c)) as [s|] eqn:Hs; [|discriminate].
    destruct (Hsafe _ _ Hs) as [Hrange _].
    rewrite uint32_small by (subst range; lia).
    replace (Z.of_nat index + s) with (Z.of_nat (index + Z.to_nat s)) by lia.
    apply IH; subst range; lia.
Qed.

(** With no byte 0xFF in the haystack every read stays inside the buffers
    and the table. *)
Lemma searchLoop_in_bounds (fuel : nat) :
  forall index : nat,
    Z.of_nat index <= Z.of_nat (length haystack) ->
    (forall b, b ∈ haystack -> uint8 b < Z.of_nat (length shift)) ->
    searchLoop fuel haystack needle (Z.of_nat needleEnd) lastChar range shift
      (Z.of_nat index) <> OutOfBounds.
Proof.
  induction fuel as [|fuel IH]; intros index Hindex Hbytes; cbn [searchLoop];
    [discriminate|].
  destruct (Z.leb_spec (Z.of_nat index) range) as [Hin|Hout]; [|discriminate].
  rewrite uint32_small by (subst range; lia).
  destruct (lookup_lt_is_Some_2 haystack
              (Z.to_nat (Z.of_nat index + Z.of_nat needleEnd))) as [c Hc];
    [subst range; lia|].
  rewrite Hc. destruct (_ && _); [discriminate|].
  assert (0 <= uint8 c) by (unfold uint8; apply Z.mod_pos_bound; lia).
  pose proof (Hbytes c ltac:(eapply list_elem_of_lookup_2; exact Hc)) as Hlt.
  destruct (lookup_lt_is_Some_2 shift (Z.to_nat (uint8 c))) as [s Hs]; [lia|].
  rewrite Hs. destruct (Hsafe _ _ Hs) as [Hrange _].
  rewrite uint32_small by (subst range; lia).
  replace (Z.of_nat index + s) with (Z.of_nat (index + Z.to_nat s)) by lia.
  apply IH; [subst range; lia | exact Hbytes].
Qed.

End Search.

Lemma fillShift_in_bounds (n : nat) :
  forall (needle : list Z) (needleEnd : Z) (shift : list Z) (index : Z),
    0 <= index -> index + Z.of_nat n <= Z.of_nat (length needle) ->
    (forall b, b ∈ needle -> uint8 b < Z.of_nat (length shift)) ->
    exists shift', fillShift n needle needleEnd shift index = Returns shift'.
Proof.
  induction n as [|n IH]; intros needle needleEnd shift index Hindex Hend Hbytes;
    cbn [fillShift]; [eauto|].
  destruct (lookup_lt_is_Some_2 needle (Z.to_nat index)) as [c Hc]; [lia|].
  rewrite Hc.
  pose proof (Hbytes c ltac:(eapply list_elem_of_lookup_2; exact Hc)) as Hlt.
  destruct (Z.ltb_spec (uint8 c) (Z.of_nat (length shift))); [|lia].
  apply IH; [lia | lia |]. now rewrite length_insert.
Qed.

Lemma initial_shifts_safe (needle : list Z) (needleEnd : Z) (size : nat) :
  0 <= needleEnd ->
  safeShifts needle needleEnd 0 (replicate size (needleEnd + 1)).
Proof.
  intros Hend c s Hs. apply lookup_replicate in Hs as [-> _].
  split; [lia|]. intros i b Hi. lia.
Qed.

(** Whenever [wrenStringFind] returns, its result is right: either it is the
    index of the first occurrence of the needle in the haystack, or it is
    [UINT32_MAX] and the needle does not occur. An empty needle gives 0 and a
    needle longer than the haystack gives [UINT32_MAX]. *)
Lemma wrenStringFind_correct (haystack needle : list Z) (r : Z) :
  Z.of_nat (length haystack) < 2 ^ 32 ->
  wrenStringFind (str haystack) (str needle) = Returns r ->
  (r = UINT32_MAX /\ forall j, ~ occursAt haystack needle j)
  \/ (0 <= r < UINT32_MAX /\ occursAt haystack needle (Z.to_nat r)
      /\ forall j, (j < Z.to_nat r)%nat -> ~ occursAt haystack needle j).
Proof.
  intros Hsize. unfold wrenStringFind, str. cbn [string_length string_value].
  destruct (Z.eqb_spec (Z.of_nat (length needle)) 0) as [Hempty|Hnonempty].
  { intros [= <-]. right. destruct needle; [|discriminate].
    split; [unfold UINT32_MAX; lia|]. split; [reflexivity | intros j; cbn; lia]. }
  destruct (Z.gtb_spec (Z.of_nat (length needle)) (Z.of_nat (length haystack)))
    as [Hlong|Hfits].
  { intros [= <-]. left. split; [reflexivity|]. intros j Hocc.
    apply occursAt_fits in Hocc; [lia|]. intros ->. cbn in Hnonempty. lia. }
  rewrite uint32_small by lia.
  destruct (length needle) as [|needleEnd] eqn:Hlen; [lia|].
  replace (Z.of_nat (S needleEnd) - 1) with (Z.of_nat needleEnd) by lia.
  rewrite Nat2Z.id. intros Hfind.
  apply outcome_bind_returns in Hfind as (shift & Hfill & Hfind).
  apply fillShift_safe in Hfill as [Hsafe _]; [| lia | lia |].
  2:{ replace (Z.of_nat (S needleEnd)) with (Z.of_nat needleEnd + 1) by lia.
      apply initial_shifts_safe. lia. }
  destruct (needle !! needleEnd) as [lastChar|] eqn:Hlast; [|discriminate].
  rewrite uint32_small in Hfind by lia. rewrite <- Hlen in Hfind.
  destruct (searchLoop_correct haystack needle needleEnd lastChar shift
              Hlen Hlast ltac:(lia) Hsize Hsafe _ O r ltac:(lia) ltac:(lia) Hfind)
    as [Hnone | (Hr & Hocc & Hfirst)]; [left; exact Hnone | right].
  split; [unfold UINT32_MAX; lia | auto].
Qed.

(** On strings without the byte 0xFF the search returns. *)
Lemma wrenStringFind_returns (haystack needle : list Z) :
  Z.of_nat (length haystack) < 2 ^ 32 ->
  (forall b, b ∈ haystack ++ needle -> uint8 b < 255) ->
  exists r, wrenStringFind (str haystack) (str needle) = Returns r.
Proof.
  intros Hsize Hbytes. unfold wrenStringFind, str.
  cbn [string_length string_value].
  destruct (Z.eqb_spec (Z.of_nat (length needle)) 0); [eauto|].
  destruct (Z.gtb_spec (Z.of_nat (length needle)) (Z.of_nat (length haystack)));
    [eauto|].
  rewrite uint32_small by lia.
  destruct (length needle) as [|needleEnd] eqn:Hlen; [lia|].
  replace (Z.of_nat (S needleEnd) - 1) with (Z.of_nat needleEnd) by lia.
  rewrite Nat2Z.id.
  set (table := replicate (Z.to_nat UINT8_MAX) (Z.of_nat (S needleEnd))).
  assert (Htable : length table = 255%nat) by (subst table; now rewrite length_replicate).
  destruct (fillShift_in_bounds needleEnd needle (Z.of_nat needleEnd) table 0)
    as [shift Hfill]; [lia | lia | |].
  { intros b Hb. rewrite Htable. apply Hbytes, elem_of_app. auto. }
  rewrite Hfill. cbn [obind].
  apply fillShift_safe in Hfill as [Hsafe Hshift]; [| lia | lia |].
  2:{ subst table.
      replace (Z.of_nat (S needleEnd)) with (Z.of_nat needleEnd + 1) by lia.
      apply initial_shifts_safe. lia. }
  destruct (lookup_lt_is_Some_2 needle needleEnd) as [lastChar Hlast]; [lia|].
  rewrite Hlast, uint32_small by lia. rewrite <- Hlen.
  set (fuel := Z.to_nat (Z.of_nat (length haystack) - Z.of_nat (length needle) + 2)).
  assert (Hends : searchLoop fuel haystack needle (Z.of_nat needleEnd) lastChar
                    (Z.of_nat (length haystack) - Z.of_nat (length needle))
                    shift (Z.of_nat 0) <> Hangs)
    by (apply searchLoop_ends; subst fuel; try assumption; lia).
  assert (Hbounds : searchLoop fuel haystack needle (Z.of_nat needleEnd) lastChar
                      (Z.of_nat (length haystack) - Z.of_nat (length needle))
                      shift (Z.of_nat 0) <> OutOfBounds).
  { apply searchLoop_in_bounds; try assumption; try lia.
    intros b Hb. rewrite Hshift, Htable. apply Hbytes, elem_of_app. auto. }
  change (Z.of_nat 0) with 0 in *.
  destruct (searchLoop _ _ _ _ _ _ _ _) as [r| |]; [eauto | | ]; contradiction.
Qed.

End StringFindFacts.

(** ** Maps: the table and its invariants *)

Module MapFacts.
Import Value Map Examples.

#[export] Instance TaggedUnionOk : ValueRepOk UnionValue.
Proof. split; reflexivity. Qed.

#[export] Instance NanTaggingOk : ValueRepOk NanValue.
Proof. split; reflexivity. Qed.

(** The index that follows [index] in a table of [capacity] slots. *)
Lemma next_index (index capacity : Z) :
  0 <= index < capacity -> capacity < 2 ^ 32 ->
  uint32 (index + 1) mod capacity = (index + 1) mod capacity
  /\ 0 <= (index + 1) mod capacity < capacity.
Proof.
  intros Hindex Hcap. unfold uint32.
  rewrite (Z.mod_small (index + 1)) by lia.
  split; [reflexivity | apply Z.mod_pos_bound; lia].
Qed.

Lemma first_index (hash capacity : Z) :
  0 < capacity -> 0 <= uint32 hash mod capacity < capacity.
Proof. intros Hcap. apply Z.mod_pos_bound. exact Hcap. Qed.

Section Tables.
Context {Value : Type} `{ValueRepOk Value}.
Variable heap : ObjPtr -> Obj.
Implicit Types (entries old : list (MapEntry Value)) (map : ObjMap Value).
Implicit Types (entry : MapEntry Value) (k v : Value).

Lemma total_insert (f : MapEntry Value -> Z) entries (i : nat) entry entry' :
  entries !! i = Some entry ->
  total f (<[i := entry']> entries) = total f entries - f entry + f entry'.
Proof.
  revert i. induction entries as [|e rest IH]; intros [|i] Hi;
    try discriminate.
  - injection Hi as ->. cbn [total insert list_insert]. lia.
  - change (<[S i := entry']> (e :: rest)) with (e :: <[i := entry']> rest).
    cbn [total]. rewrite (IH i Hi). lia.
Qed.

Lemma total_replicate (f : MapEntry Value -> Z) (n : nat) entry :
  total f (replicate n entry) = Z.of_nat n * f entry.
Proof. induction n as [|n IH]; cbn [replicate total]; lia. Qed.

Lemma occupies_range entry : 0 <= occupies entry <= 1.
Proof. unfold occupies. destruct (IS_UNDEFINED _); lia. Qed.

Lemma isEmpty_range entry : 0 <= isEmpty entry <= 1.
Proof. unfold isEmpty. destruct (_ && _); lia. Qed.

Lemma occupied_nonneg entries : 0 <= occupied entries.
Proof.
  unfold occupied. induction entries as [|e rest IH]; cbn; [lia|].
  pose proof (occupies_range e). lia.
Qed.

(** A table with a positive number of empty slots has an empty slot. *)
Lemma empty_slot_exists entries :
  0 < emptySlots entries ->
  exists (i : nat) entry,
    entries !! i = Some entry
    /\ IS_UNDEFINED (key entry) = true /\ IS_FALSE (value entry) = true.
Proof.
  unfold emptySlots. induction entries as [|e rest IH]; cbn; [lia|].
  intros Hpos. unfold isEmpty at 1 in Hpos.
  destruct (IS_UNDEFINED (key e)) eqn:Hu, (IS_FALSE (value e)) eqn:Hf;
    cbn in Hpos;
    try (destruct IH as (i & entry & Hi & Hempty); [lia|];
         exists (S i), entry; split; [exact Hi | exact Hempty]).
  exists O, e. auto.
Qed.

Lemma fresh_table (n : nat) :
  emptySlots (replicate n {| key := UNDEFINED_VAL; value := FALSE_VAL |})
    = Z.of_nat n
  /\ occupied (replicate n {| key := UNDEFINED_VAL; value := FALSE_VAL |}) = 0.
Proof.
  unfold emptySlots, occupied. rewrite !total_replicate.
  unfold isEmpty, occupies. cbn [key value].
  rewrite undefined_is_undefined, false_is_false. cbn. lia.
Qed.

(** What [addEntry] does to the table when it returns: the array keeps its
    length, at most one more slot holds a key, and then only if the flag is
    set, and at most one empty slot is used. *)
Lemma addEntryLoop_result (fuel : nat) :
  forall entries (capacity : Z) k v (index : Z) (added : bool) entries',
    addEntryLoop heap fuel entries capacity k v index = Returns (added, entries') ->
    length entries' = length entries
    /\ occupied entries <= occupied entries'
       <= occupied entries + (if added then 1 else 0)
    /\ emptySlots entries - 1 <= emptySlots entries'.
Proof.
  induction fuel as [|fuel IH]; intros entries capacity k v index added entries';
    cbn [addEntryLoop]; [discriminate|].
  destruct (entries !! Z.to_nat index) as [entry|] eqn:Hentry; [|discriminate].
  unfold occupied, emptySlots.
  destruct (IS_UNDEFINED (key entry)) eqn:Hu.
  - destruct (IS_FALSE (value entry)) eqn:Hf; [|apply IH].
    intros [= <- <-]. rewrite length_insert.
    rewrite !(total_insert _ _ _ _ _ Hentry).
    pose proof (occupies_range {| key := k; value := v |}).
    pose proof (isEmpty_range {| key := k; value := v |}).
    assert (occupies entry = 0) by (unfold occupies; now rewrite Hu).
    assert (isEmpty entry = 1) by (unfold isEmpty; now rewrite Hu, Hf).
    lia.
  - destruct (wrenValuesEqual heap (key entry) k); [|apply IH].
    intros [= <- <-]. rewrite length_insert.
    rewrite !(total_insert _ _ _ _ _ Hentry).
    assert (occupies entry = 1) by (unfold occupies; now rewrite Hu).
    assert (isEmpty entry = 0) by (unfold isEmpty; now rewrite Hu).
    assert (occupies {| key := key entry; value := v |} = 1)
      by (unfold occupies; cbn [key]; now rewrite Hu).
    assert (isEmpty {| key := key entry; value := v |} = 0)
      by (unfold isEmpty; cbn [key]; now rewrite Hu).
    lia.
Qed.

(** [addEntry] stops when the probe, [distance] slots on, reaches an empty
    slot. *)
Lemma addEntryLoop_stops (distance : nat) :
  forall (fuel : nat) entries (capacity : Z) k v (index : Z) (target : nat) entry,
    entries !! target = Some entry ->
    IS_UNDEFINED (key entry) = true -> IS_FALSE (value entry) = true ->
    0 <= index < capacity -> capacity < 2 ^ 32 ->
    Z.of_nat (length entries) = capacity ->
    (index + Z.of_nat distance) mod capacity = Z.of_nat target ->
    (distance < fuel)%nat ->
    exists r, addEntryLoop heap fuel entries capacity k v index = Returns r.
Proof.
  induction distance as [|distance IH];
    intros [|fuel] entries capacity k v index target entry
      Htarget Hu Hf Hindex Hcap Hlen Hreach Hfuel; try lia;
    cbn [addEntryLoop].
  - rewrite Z.add_0_r, Z.mod_small in Hreach by lia.
    rewrite Hreach, Nat2Z.id, Htarget, Hu, Hf. eauto.
  - destruct (lookup_lt_is_Some_2 entries (Z.to_nat index)) as [here ->]; [lia|].
    destruct (next_index index capacity Hindex Hcap) as [Hnext Hrange].
    assert (Hgo : exists r,
              addEntryLoop heap fuel entries capacity k v
                (uint32 (index + 1) mod capacity) = Returns r).
    { rewrite Hnext. apply (IH fuel _ _ _ _ _ target entry); try assumption.
      - rewrite Zplus_mod_idemp_l. rewrite <- Hreach. f_equal. lia.
      - lia. }
    destruct (IS_UNDEFINED (key here)).
    + destruct (IS_FALSE (value here)); [eauto | exact Hgo].
    + destruct (wrenValuesEqual heap (key here) k); [eauto | exact Hgo].
Qed.

Lemma addEntry_stops entries (capacity : Z) k v :
  0 < capacity < 2 ^ 32 -> Z.of_nat (length entries) = capacity ->
  0 < emptySlots entries ->
  exists r, addEntry heap entries capacity k v = Returns r.
Proof.
  intros Hcap Hlen Hempty.
  destruct (empty_slot_exists entries Hempty) as (target & entry & Htarget & Hu & Hf).
  pose proof (lookup_lt_Some _ _ _ Htarget) as Hlt.
  pose proof (first_index (hashValue heap k) capacity ltac:(lia)) as Hfirst.
  unfold addEntry. set (index := uint32 (hashValue heap k) mod capacity) in *.
  apply (addEntryLoop_stops
           (Z.to_nat ((Z.of_nat target - index) mod capacity))
           _ _ _ _ _ _ target entry); try assumption; try lia.
  - pose proof (Z.mod_pos_bound (Z.of_nat target - index) capacity ltac:(lia)).
    rewrite Z2Nat.id by lia. rewrite Zplus_mod_idemp_r.
    replace (index + (Z.of_nat target - index)) with (Z.of_nat target) by lia.
    apply Z.mod_small. lia.
  - pose proof (Z.mod_pos_bound (Z.of_nat target - index) capacity ltac:(lia)).
    lia.
Qed.

(** The loop of [resizeMap]: what it returns, and that it returns when the
    new table has more empty slots than the old one has keys. *)
Lemma reAddEntries_spec (capacity : Z) old :
  0 < capacity < 2 ^ 32 ->
  forall entries,
    Z.of_nat (length entries) = capacity ->
    (forall entries',
       reAddEntries heap old entries capacity = Returns entries' ->
       length entries' = length entries
       /\ occupied entries' <= occupied entries + occupied old)
    /\ (occupied old < emptySlots entries ->
        exists entries', reAddEntries heap old entries capacity = Returns entries').
Proof.
  intros Hcap. induction old as [|entry rest IH]; intros entries Hlen;
    cbn [reAddEntries].
  - split; [|eauto]. intros entries' [= <-]. unfold occupied at 3. cbn. lia.
  - change (occupied (entry :: rest)) with (occupies entry + occupied rest).
    unfold occupies.
    destruct (IS_UNDEFINED (key entry)).
    + destruct (IH entries Hlen) as [Hres Hstop].
      split; [intros entries' Hr; specialize (Hres entries' Hr); lia|].
      intros Hroom. apply Hstop. lia.
    + pose proof (occupied_nonneg rest) as Hrest. split.
      * intros entries' Hr.
        apply outcome_bind_returns in Hr as ([added entries1] & Hadd & Hr).
        apply addEntryLoop_result in Hadd as (Hlen1 & Hocc1 & _).
        destruct (IH entries1 ltac:(cbn; lia)) as [Hres _].
        specialize (Hres entries' Hr). cbn [snd] in *.
        destruct added; lia.
      * intros Hroom.
        destruct (addEntry_stops entries capacity (key entry) (value entry))
          as ([added entries1] & Hadd); [lia | exact Hlen | lia |].
        rewrite Hadd. cbn [obind snd].
        apply addEntryLoop_result in Hadd as (Hlen1 & _ & Hempty1).
        destruct (IH entries1 ltac:(lia)) as [_ Hstop]. apply Hstop. lia.
Qed.

(** [resizeMap] to a capacity that is not zero. *)
Lemma resizeMap_spec map (capacity : Z) :
  0 < capacity < 2 ^ 32 ->
  (forall map',
     resizeMap heap map capacity = Returns map' ->
     Map.capacity map' = capacity /\ count map' = count map
     /\ Z.of_nat (length (entries map')) = capacity
     /\ occupied (entries map') <= occupied (entries map))
  /\ (occupied (entries map) < capacity ->
      exists map', resizeMap heap map capacity = Returns map').
Proof.
  intros Hcap. unfold resizeMap.
  set (fresh := replicate (Z.to_nat capacity)
                  {| key := UNDEFINED_VAL; value := FALSE_VAL |}).
  assert (Hlen : Z.of_nat (length fresh) = capacity)
    by (subst fresh; rewrite length_replicate; lia).
  destruct (fresh_table (Z.to_nat capacity)) as [Hempty Hocc]. fold fresh in Hempty, Hocc.
  pose proof (occupied_nonneg (entries map)) as Hold.
  destruct (0 <? Map.capacity map).
  - destruct (reAddEntries_spec capacity (entries map) Hcap fresh Hlen)
      as [Hres Hstop].
    split.
    + intros map' Hr. apply outcome_bind_returns in Hr as (entries' & Hre & [= <-]).
      cbn [Map.capacity count entries].
      destruct (Hres entries' Hre) as [Hlen' Hocc']. repeat split; lia.
    + intros Hroom. destruct Hstop as [entries' ->]; [lia|]. cbn. eauto.
  - cbn [obind]. split; [|eauto].
    intros map' [= <-]. cbn [Map.capacity count entries]. repeat split; lia.
Qed.

(** An entry that [findEntry] returns holds a key. *)
Lemma findEntryLoop_found (fuel : nat) :
  forall entries (capacity : Z) k (index found : Z),
    findEntryLoop heap fuel entries capacity k index = Returns (Some found) ->
    0 <= index < capacity -> capacity < 2 ^ 32 ->
    0 <= found < capacity
    /\ exists entry, entries !! Z.to_nat found = Some entry
                     /\ IS_UNDEFINED (key entry) = false.
Proof.
  induction fuel as [|fuel IH]; intros entries capacity k index found;
    cbn [findEntryLoop]; [discriminate|].
  intros Hfind Hindex Hcap.
  destruct (next_index index capacity Hindex Hcap) as [Hnext Hrange].
  destruct (entries !! Z.to_nat index) as [entry|] eqn:Hentry; [|discriminate].
  destruct (IS_UNDEFINED (key entry)) eqn:Hu.
  - destruct (IS_FALSE (value entry)); [discriminate|].
    apply (IH _ _ _ _ _ Hfind); [rewrite Hnext; exact Hrange | exact Hcap].
  - destruct (wrenValuesEqual heap (key entry) k).
    + injection Hfind as <-. eauto.
    + apply (IH _ _ _ _ _ Hfind); [rewrite Hnext; exact Hrange | exact Hcap].
Qed.

Lemma findEntry_found map k (found : Z) :
  findEntry heap map k = Returns (Some found) -> 0 <= capacity map < 2 ^ 32 ->
  0 <= found < capacity map
  /\ exists entry, entries map !! Z.to_nat found = Some entry
                   /\ IS_UNDEFINED (key entry) = false.
Proof.
  unfold findEntry. intros Hfind Hcap.
  destruct (Z.eqb_spec (capacity map) 0); [discriminate|].
  apply (findEntryLoop_found _ _ _ _ _ _ Hfind); [|lia].
  apply first_index. lia.
Qed.

(** *** Fuel: a probe that has not stopped after [capacity] slots never stops *)

Lemma probe_reaches (index target capacity : Z) :
  0 <= index < capacity -> 0 <= target < capacity ->
  exists distance : nat,
    (Z.of_nat distance < capacity)
    /\ (index + Z.of_nat distance) mod capacity = target.
Proof.
  intros Hindex Htarget.
  pose proof (Z.mod_pos_bound (target - index) capacity ltac:(lia)) as Hd.
  exists (Z.to_nat ((target - index) mod capacity)).
  rewrite Z2Nat.id by lia. split; [lia|].
  rewrite Zplus_mod_idemp_r.
  replace (index + (target - index)) with target by lia.
  apply Z.mod_small. lia.
Qed.

Lemma findEntryLoop_hangs_passes (fuel : nat) :
  forall entries (capacity : Z) k (index : Z),
    0 <= index < capacity -> capacity < 2 ^ 32 ->
    findEntryLoop heap fuel entries capacity k index = Hangs ->
    forall distance : nat, (distance < fuel)%nat ->
      exists entry,
        entries !! Z.to_nat ((index + Z.of_nat distance) mod capacity) = Some entry
        /\ passesOver heap k entry = true.
Proof.
  induction fuel as [|fuel IH]; intros entries capacity k index Hindex Hcap Hhangs
    distance Hdistance; [lia|].
  cbn [findEntryLoop] in Hhangs.
  destruct (next_index index capacity Hindex Hcap) as [Hnext Hrange].
  destruct (entries !! Z.to_nat index) as [entry|] eqn:Hentry; [|discriminate].
  assert (Hhere : passesOver heap k entry = true
                  /\ findEntryLoop heap fuel entries capacity k
                       ((index + 1) mod capacity) = Hangs).
  { unfold passesOver. rewrite <- Hnext.
    destruct (IS_UNDEFINED (key entry)).
    - destruct (IS_FALSE (value entry)); [discriminate | auto].
    - destruct (wrenValuesEqual heap (key entry) k); [discriminate | auto]. }
  destruct Hhere as [Hpass Hrest].
  destruct distance as [|distance].
  - rewrite Z.add_0_r, Z.mod_small by lia. eauto.
  - destruct (IH _ _ _ _ Hrange Hcap Hrest distance ltac:(lia))
      as (entry' & Hentry' & Hpass').
    exists entry'. split; [|exact Hpass'].
    rewrite <- Hentry'. do 2 f_equal.
    rewrite Zplus_mod_idemp_l. f_equal. lia.
Qed.

Lemma findEntryLoop_all_pass (fuel : nat) :
  forall entries (capacity : Z) k (index : Z),
    0 <= index < capacity -> capacity < 2 ^ 32 ->
    (forall target, 0 <= target < capacity ->
       exists entry, entries !! Z.to_nat target = Some entry
                     /\ passesOver heap k entry = true) ->
    findEntryLoop heap fuel entries capacity k index = Hangs.
Proof.
  induction fuel as [|fuel IH]; intros entries capacity k index Hindex Hcap Hall;
    [reflexivity|].
  cbn [findEntryLoop].
  destruct (next_index index capacity Hindex Hcap) as [Hnext Hrange].
  destruct (Hall index Hindex) as (entry & -> & Hpass).
  unfold passesOver in Hpass. rewrite Hnext.
  destruct (IS_UNDEFINED (key entry)).
  - destruct (IS_FALSE (value entry)); [discriminate | now apply IH].
  - destruct (wrenValuesEqual heap (key entry) k); [discriminate | now apply IH].
Qed.

(** The fuel that [findEntry] gets is enough: when the loop has not stopped
    after [capacity] probes it has passed over every slot of the table, and
    it stops for no amount of fuel. *)
Lemma findEntry_hangs_for_ever map k :
  0 < capacity map < 2 ^ 32 ->
  findEntry heap map k = Hangs ->
  forall fuel : nat,
    findEntryLoop heap fuel (entries map) (capacity map) k
      (uint32 (hashValue heap k) mod capacity map) = Hangs.
Proof.
  intros Hcap Hhangs fuel. unfold findEntry in Hhangs.
  destruct (Z.eqb_spec (capacity map) 0); [lia|].
  pose proof (first_index (hashValue heap k) (capacity map) ltac:(lia)) as Hfirst.
  apply findEntryLoop_all_pass; [exact Hfirst | lia |].
  intros target Htarget.
  destruct (probe_reaches _ target (capacity map) Hfirst Htarget)
    as (distance & Hdistance & <-).
  apply (findEntryLoop_hangs_passes _ _ _ _ _ Hfirst ltac:(lia) Hhangs). lia.
Qed.

Lemma addEntryLoop_hangs_passes (fuel : nat) :
  forall entries (capacity : Z) k v (index : Z),
    0 <= index < capacity -> capacity < 2 ^ 32 ->
    addEntryLoop heap fuel entries capacity k v index = Hangs ->
    forall distance : nat, (distance < fuel)%nat ->
      exists entry,
        entries !! Z.to_nat ((index + Z.of_nat distance) mod capacity) = Some entry
        /\ passesOver heap k entry = true.
Proof.
  induction fuel as [|fuel IH]; intros entries capacity k v index Hindex Hcap Hhangs
    distance Hdistance; [lia|].
  cbn [addEntryLoop] in Hhangs.
  destruct (next_index index capacity Hindex Hcap) as [Hnext Hrange].
  destruct (entries !! Z.to_nat index) as [entry|] eqn:Hentry; [|discriminate].
  assert (Hhere : passesOver heap k entry = true
                  /\ addEntryLoop heap fuel entries capacity k v
                       ((index + 1) mod capacity) = Hangs).
  { unfold passesOver. rewrite <- Hnext.
    destruct (IS_UNDEFINED (key entry)).
    - destruct (IS_FALSE (value entry)); [discriminate | auto].
    - destruct (wrenValuesEqual heap (key entry) k); [discriminate | auto]. }
  destruct Hhere as [Hpass Hrest].
  destruct distance as [|distance].
  - rewrite Z.add_0_r, Z.mod_small by lia. eauto.
  - destruct (IH _ _ _ _ _ Hrange Hcap Hrest distance ltac:(lia))
      as (entry' & Hentry' & Hpass').
    exists entry'. split; [|exact Hpass'].
    rewrite <- Hentry'. do 2 f_equal.
    rewrite Zplus_mod_idemp_l. f_equal. lia.
Qed.

Lemma addEntryLoop_all_pass (fuel : nat) :
  forall entries (capacity : Z) k v (index : Z),
    0 <= index < capacity -> capacity < 2 ^ 32 ->
    (forall target, 0 <= target < capacity ->
       exists entry, entries !! Z.to_nat target = Some entry
                     /\ passesOver heap k entry = true) ->
    addEntryLoop heap fuel entries capacity k v index = Hangs.
Proof.
  induction fuel as [|fuel IH]; intros entries capacity k v index Hindex Hcap Hall;
    [reflexivity|].
  cbn [addEntryLoop].
  destruct (next_index index capacity Hindex Hcap) as [Hnext Hrange].
  destruct (Hall index Hindex) as (entry & -> & Hpass).
  unfold passesOver in Hpass. rewrite Hnext.
  destruct (IS_UNDEFINED (key entry)).
  - destruct (IS_FALSE (value entry)); [discriminate | now apply IH].
  - destruct (wrenValuesEqual heap (key entry) k); [discriminate | now apply IH].
Qed.

(** The same for [addEntry]. *)
Lemma addEntry_hangs_for_ever entries (capacity : Z) k v :
  0 < capacity < 2 ^ 32 ->
  addEntry heap entries capacity k v = Hangs ->
  forall fuel : nat,
    addEntryLoop heap fuel entries capacity k v
      (uint32 (hashValue heap k) mod capacity) = Hangs.
Proof.
  intros Hcap Hhangs fuel. unfold addEntry in Hhangs.
  pose proof (first_index (hashValue heap k) capacity ltac:(lia)) as Hfirst.
  apply addEntryLoop_all_pass; [exact Hfirst | lia |].
  intros target Htarget.
  destruct (probe_reaches _ target capacity Hfirst Htarget)
    as (distance & Hdistance & <-).
  apply (addEntryLoop_hangs_passes _ _ _ _ _ _ Hfirst ltac:(lia) Hhangs). lia.
Qed.

(** *** Arithmetic of the capacities *)

Lemma uint32_le (x : Z) : 0 <= x -> 0 <= uint32 x <= x.
Proof.
  intros Hx. unfold uint32. split.
  - apply Z.mod_pos_bound. lia.
  - apply Z.mod_le; lia.
Qed.

Lemma capacity_below_limit (capacity : Z) (k : nat) :
  capacity = 16 * 2 ^ Z.of_nat k -> capacity < 2 ^ 25 -> capacity <= 2 ^ 24.
Proof.
  intros -> Hlt.
  change 16 with (2 ^ 4) in *. rewrite <- Z.pow_add_r in * by lia.
  apply Z.pow_le_mono_r; [lia|].
  destruct (Z.le_gt_cases (4 + Z.of_nat k) 24) as [Hle|Hgt]; [exact Hle|].
  exfalso. apply (Z.lt_irrefl (2 ^ 25)).
  eapply Z.le_lt_trans; [|exact Hlt]. apply Z.pow_le_mono_r; lia.
Qed.

Lemma capacity_doubled (capacity : Z) (k : nat) :
  capacity = 16 * 2 ^ Z.of_nat k ->
  capacity * 2 = 16 * 2 ^ Z.of_nat (S k) /\ 16 <= capacity.
Proof.
  intros ->. rewrite Nat2Z.inj_succ, Z.pow_succ_r by lia.
  pose proof (Z.pow_pos_nonneg 2 (Z.of_nat k)). lia.
Qed.

Lemma capacity_halved (capacity : Z) (k : nat) :
  capacity = 16 * 2 ^ Z.of_nat k -> 16 < capacity ->
  exists k' : nat, capacity / 2 = 16 * 2 ^ Z.of_nat k'
                   /\ capacity = 2 * (capacity / 2).
Proof.
  intros -> Hgt. destruct k as [|k]; [cbn in Hgt; lia|].
  exists k. rewrite Nat2Z.inj_succ, Z.pow_succ_r by lia.
  replace (16 * (2 * 2 ^ Z.of_nat k)) with (16 * 2 ^ Z.of_nat k * 2) by lia.
  rewrite Z.div_mul by lia. lia.
Qed.

(** *** The calls keep the invariants *)

Lemma wrenNewMap_invariant : tableInvariant (wrenNewMap (Value := Value)).
Proof.
  unfold tableInvariant, mapWf, loadInvariant, wrenNewMap, occupied. cbn.
  repeat split; try lia; auto; discriminate.
Qed.

Lemma wrenMapClear_invariant map : tableInvariant (wrenMapClear map).
Proof.
  unfold tableInvariant, mapWf, loadInvariant, wrenMapClear, occupied. cbn.
  repeat split; try lia; auto; discriminate.
Qed.

(** [wrenMapSet] keeps the invariant, counts at most one key more, and
    changes the capacity only when the count passes the threshold that the
    code computes, and then to twice the capacity or to 16. *)
Lemma wrenMapSet_invariant map k v map' :
  tableInvariant map -> capacity map < 2 ^ 31 ->
  wrenMapSet heap map k v = Returns map' ->
  tableInvariant map'
  /\ count map' <= count map + 1
  /\ (capacity map' = capacity map
      \/ (uint32 (capacity map * 75) / 100 < count map + 1
          /\ capacity map' = Z.max 16 (capacity map * 2))).
Proof.
  intros ((Hlen & Hcap & Hocc & Hcount) & (Hload & Hmin & Hshape)) Hfit Hset.
  pose proof (occupied_nonneg (entries map)) as Hocc0.
  pose proof (uint32_le (capacity map * 75) ltac:(lia)) as Hwrap.
  assert (Hthreshold : uint32 (capacity map * 75) / 100 <= capacity map * 75 / 100)
    by (apply Z.div_le_mono; lia).
  assert (Hsmall : count map + 1 < 2 ^ 32)
    by (clear - Hload Hfit; Z.div_mod_to_equations; lia).
  unfold wrenMapSet in Hset.
  apply outcome_bind_returns in Hset as (map1 & Hgrow & Hset).
  apply outcome_bind_returns in Hset as ([added entries'] & Hadd & [= <-]).
  cbn [fst snd] in *.
  assert (Hmap1 : mapWf map1 /\ loadInvariant map1 /\ count map1 = count map
                  /\ count map + 1 <= capacity map1 * 75 / 100
                  /\ (capacity map1 = capacity map
                      \/ (uint32 (capacity map * 75) / 100 < count map + 1
                          /\ capacity map1 = Z.max 16 (capacity map * 2)))).
  { unfold MAP_LOAD_PERCENT, GROW_FACTOR, MIN_CAPACITY in Hgrow.
    rewrite (uint32_small (count map + 1)) in Hgrow by lia.
    destruct (Z.gtb_spec (count map + 1) (uint32 (capacity map * 75) / 100))
      as [Hfull|Hroom].
    - rewrite (uint32_small (capacity map * 2)) in Hgrow by lia.
      assert (Hnew : exists k' : nat,
                (if capacity map * 2 <? 16 then 16 else capacity map * 2)
                = 16 * 2 ^ Z.of_nat k'
                /\ 16 * 2 ^ Z.of_nat k' = Z.max 16 (capacity map * 2)
                /\ count map + 1 <= 16 * 2 ^ Z.of_nat k' * 75 / 100).
      { destruct Hshape as [Hzero | [k0 Hk0]].
        - exists O. rewrite Hzero in *.
          change (0 * 75 / 100) with 0 in Hload.
          change (16 * 2 ^ Z.of_nat 0) with 16. change (16 * 75 / 100) with 12.
          split; [reflexivity | split; [reflexivity | lia]].
        - destruct (capacity_doubled _ _ Hk0) as [Hdouble Hsixteen].
          exists (S k0).
          destruct (Z.ltb_spec (capacity map * 2) 16); [lia|].
          rewrite <- Hdouble. split; [reflexivity|]. split; [lia|].
          clear - Hload Hsixteen. Z.div_mod_to_equations. lia. }
      destruct Hnew as (k' & Hnew & Hmax & Hnewload).
      rewrite Hnew in Hgrow.
      pose proof (Z.pow_pos_nonneg 2 (Z.of_nat k')) as Hpos.
      destruct (resizeMap_spec map (16 * 2 ^ Z.of_nat k') ltac:(lia)) as [Hres _].
      destruct (Hres map1 Hgrow) as (Hc1 & Hn1 & Hl1 & Ho1).
      unfold mapWf, loadInvariant. rewrite Hc1, Hn1.
      repeat split; try lia; right; eauto.
    - injection Hgrow as <-.
      unfold mapWf, loadInvariant. repeat split; try assumption; lia. }
  destruct Hmap1 as ((Hlen1 & Hcap1 & Hocc1 & Hcount1) & (_ & Hmin1 & Hshape1)
                     & Hsame & Hroom & Hcapacity).
  apply addEntryLoop_result in Hadd as (Hlen' & Hocc' & _).
  unfold tableInvariant, mapWf, loadInvariant. cbn [capacity count entries].
  rewrite (uint32_small (count map1 + 1)) by lia.
  repeat split; try assumption; destruct added; lia.
Qed.

(** [wrenMapRemoveKey] keeps the invariant and lets neither the count nor
    the capacity grow. *)
Lemma wrenMapRemoveKey_invariant map k v map' :
  tableInvariant map ->
  wrenMapRemoveKey heap map k = Returns (v, map') ->
  tableInvariant map'
  /\ count map' <= count map /\ capacity map' <= capacity map.
Proof.
  intros Hinv Hremove.
  pose proof Hinv as ((Hlen & Hcap & Hocc & Hcount) & (Hload & Hmin & Hshape)).
  pose proof (occupied_nonneg (entries map)) as Hkeys.
  unfold wrenMapRemoveKey in Hremove.
  apply outcome_bind_returns in Hremove as ([found|] & Hfind & Hremove).
  2:{ injection Hremove as <- <-. split; [exact Hinv | lia]. }
  destruct (findEntry_found map k found Hfind Hcap)
    as (Hfound & entry & Hentry & Hkey).
  rewrite Hentry in Hremove. cbn [capacity count entries] in Hremove.
  set (tombstone := {| key := UNDEFINED_VAL; value := TRUE_VAL |}) in *.
  set (entries1 := <[Z.to_nat found := tombstone]> (entries map)) in *.
  assert (Hocc1 : occupied entries1 = occupied (entries map) - 1).
  { unfold entries1, occupied. rewrite (total_insert _ _ _ _ _ Hentry).
    unfold occupies, tombstone. cbn [key].
    rewrite Hkey, undefined_is_undefined. lia. }
  pose proof (occupied_nonneg entries1) as Hocc0.
  assert (Hlen1 : Z.of_nat (length entries1) = capacity map)
    by (unfold entries1; rewrite length_insert; exact Hlen).
  rewrite (uint32_small (count map - 1)) in Hremove by lia.
  destruct (Z.eqb_spec (count map - 1) 0).
  { injection Hremove as <- <-.
    split; [apply wrenMapClear_invariant | cbn; lia]. }
  unfold MIN_CAPACITY, GROW_FACTOR, MAP_LOAD_PERCENT in Hremove.
  destruct (Z.ltb_spec 16 (capacity map)) as [Hbig|Hsmall]; cbn [andb] in Hremove.
  - destruct Hshape as [Hzero | [k0 Hk0]]; [lia|].
    destruct (capacity_halved _ _ Hk0 Hbig) as (k' & Hhalf & Hdouble).
    pose proof (uint32_le (capacity map / 2 * 75) ltac:(lia)) as Hwrap.
    assert (Hthreshold : uint32 (capacity map / 2 * 75) / 100
                         <= capacity map / 2 * 75 / 100)
      by (apply Z.div_le_mono; lia).
    destruct (Z.ltb_spec (count map - 1) (uint32 (capacity map / 2 * 75) / 100))
      as [Hlow|Hhigh].
    + pose proof (Z.pow_pos_nonneg 2 (Z.of_nat k')) as Hpos.
      destruct (Z.ltb_spec (capacity map / 2) 16); [lia|].
      apply outcome_bind_returns in Hremove as (map2 & Hresize & [= <- <-]).
      destruct (resizeMap_spec
                  {| capacity := capacity map; count := count map - 1;
                     entries := entries1 |} (capacity map / 2) ltac:(lia))
        as [Hres _].
      destruct (Hres map2 Hresize) as (Hc2 & Hn2 & Hl2 & Ho2).
      cbn [capacity count entries] in *.
      unfold tableInvariant, mapWf, loadInvariant. rewrite Hc2, Hn2.
      repeat split; try lia. right. eauto.
    + injection Hremove as <- <-.
      unfold tableInvariant, mapWf, loadInvariant. cbn [capacity count entries].
      repeat split; try lia; eauto.
  - injection Hremove as <- <-.
    unfold tableInvariant, mapWf, loadInvariant. cbn [capacity count entries].
    repeat split; try lia; eauto.
Qed.

Lemma runOp_invariant map (op : MapOp Value) map' :
  tableInvariant map -> capacity map < 2 ^ 31 ->
  runOp heap map op = Returns map' ->
  tableInvariant map'
  /\ count map' <= count map + 1
  /\ (capacity map' <= capacity map
      \/ (uint32 (capacity map * 75) / 100 < count map + 1
          /\ capacity map' = Z.max 16 (capacity map * 2))).
Proof.
  intros Hinv Hfit Hop. destruct op as [k v | k |]; cbn [runOp] in Hop.
  - destruct (wrenMapSet_invariant map k v map' Hinv Hfit Hop)
      as (Hinv' & Hcount' & [Hsame | Hgrown]);
      (split; [exact Hinv' | split; [exact Hcount'|]]);
      [left; lia | right; exact Hgrown].
  - apply outcome_bind_returns in Hop as ([v map2] & Hremove & [= <-]).
    destruct (wrenMapRemoveKey_invariant map k v map2 Hinv Hremove)
      as (Hinv' & Hcount' & Hcapacity'). cbn [snd].
    split; [exact Hinv' | split; [lia | left; exact Hcapacity']].
  - injection Hop as <-. pose proof Hinv as ((_ & Hcap & Hocc) & _).
    pose proof (occupied_nonneg (entries map)).
    split; [apply wrenMapClear_invariant|]. cbn. split; [lia | left; lia].
Qed.

Lemma runOps_invariant (ops : list (MapOp Value)) :
  forall map map',
    tableInvariant map -> tableFits heap map ops = true ->
    runOps heap map ops = Returns map' ->
    tableInvariant map'.
Proof.
  induction ops as [|op rest IH]; intros map map' Hinv Hfits Hrun.
  - injection Hrun as <-. exact Hinv.
  - cbn [runOps] in Hrun. cbn [tableFits] in Hfits.
    apply andb_true_iff in Hfits as [Hfit Hrest]. apply Z.ltb_lt in Hfit.
    apply outcome_bind_returns in Hrun as (map1 & Hop & Hrun).
    rewrite Hop in Hrest.
    destruct (runOp_invariant map op map1 Hinv Hfit Hop) as (Hinv1 & _).
    apply (IH map1 map' Hinv1 Hrest Hrun).
Qed.

Lemma tableFits_take (ops : list (MapOp Value)) :
  forall (made : nat) map,
    tableFits heap map ops = true -> tableFits heap map (take made ops) = true.
Proof.
  induction ops as [|op rest IH]; intros made map Hfits.
  - now rewrite take_nil.
  - cbn [tableFits] in Hfits. apply andb_true_iff in Hfits as [Hfit Hrest].
    destruct made as [|made]; cbn [take tableFits]; rewrite Hfit; cbn [andb];
      [reflexivity|].
    destruct (runOp heap map op); auto.
Qed.

(** Sequences of up to 2^24 calls stay far below 2^31 slots. *)
Lemma tableFits_short (ops : list (MapOp Value)) :
  forall (n : Z) map,
    tableInvariant map -> count map <= n -> capacity map <= 2 ^ 25 ->
    n + Z.of_nat (length ops) <= 2 ^ 24 ->
    tableFits heap map ops = true.
Proof.
  induction ops as [|op rest IH]; intros n map Hinv Hcount Hlimit Hbound;
    cbn [tableFits].
  - rewrite andb_true_r. apply Z.ltb_lt. lia.
  - apply andb_true_iff. split; [apply Z.ltb_lt; lia|].
    destruct (runOp heap map op) as [map1| |] eqn:Hop; try reflexivity.
    destruct (runOp_invariant map op map1 Hinv ltac:(lia) Hop)
      as (Hinv1 & Hcount1 & Hcapacity1).
    cbn [length] in Hbound.
    apply (IH (n + 1) map1 Hinv1); [lia | | lia].
    destruct Hcapacity1 as [Hsame | [Hfull ->]]; [lia|].
    destruct Hinv as (_ & _ & _ & [Hzero | [k0 Hk0]]);
      [rewrite Hzero; cbn; lia|].
    rewrite (uint32_small (capacity map * 75)) in Hfull by lia.
    assert (capacity map <= 2 ^ 24).
    { apply (capacity_below_limit _ k0 Hk0).
      clear - Hfull Hcount Hbound. Z.div_mod_to_equations. lia. }
    lia.
Qed.

(** *** After a set that returns, get finds the value *)

(** When [addEntry] returns it has stored into one slot, at which the probe
    for [k] stops, and the slot then holds [v] under a key equal to [k]. *)
Lemma addEntryLoop_stores (fuel : nat) :
  forall entries (capacity : Z) k v (index : Z) (added : bool) entries',
    0 <= index < capacity -> capacity < 2 ^ 32 ->
    IS_UNDEFINED k = false -> wrenValuesEqual heap k k = true ->
    addEntryLoop heap fuel entries capacity k v index = Returns (added, entries') ->
    exists (slot : Z) (before after : MapEntry Value),
      0 <= slot < capacity
      /\ entries !! Z.to_nat slot = Some before
      /\ passesOver heap k before = false
      /\ entries' = <[Z.to_nat slot := after]> entries
      /\ value after = v
      /\ IS_UNDEFINED (key after) = false
      /\ wrenValuesEqual heap (key after) k = true.
Proof.
  induction fuel as [|fuel IH];
    intros entries capacity k v index added entries' Hindex Hcap Hk Hrefl;
    cbn [addEntryLoop]; [discriminate|].
  destruct (next_index index capacity Hindex Hcap) as [Hnext Hrange].
  destruct (entries !! Z.to_nat index) as [entry|] eqn:Hentry; [|discriminate].
  rewrite Hnext.
  destruct (IS_UNDEFINED (key entry)) eqn:Hu.
  - destruct (IS_FALSE (value entry)) eqn:Hf; [|now apply IH].
    intros [= <- <-]. exists index, entry, {| key := k; value := v |}.
    unfold passesOver. rewrite Hu, Hf. cbn [key value]. auto 10.
  - destruct (wrenValuesEqual heap (key entry) k) eqn:Heq; [|now apply IH].
    intros [= <- <-]. exists index, entry, {| key := key entry; value := v |}.
    unfold passesOver. rewrite Hu, Heq. cbn [key value]. auto 10.
Qed.

Lemma findEntryLoop_after_store (fuel : nat) :
  forall entries (capacity : Z) k v (index : Z) (added : bool) entries',
    0 <= index < capacity -> capacity < 2 ^ 32 ->
    IS_UNDEFINED k = false -> wrenValuesEqual heap k k = true ->
    addEntryLoop heap fuel entries capacity k v index = Returns (added, entries') ->
    exists (found : Z) entry,
      findEntryLoop heap fuel entries' capacity k index = Returns (Some found)
      /\ entries' !! Z.to_nat found = Some entry /\ value entry = v.
Proof.
  induction fuel as [|fuel IH];
    intros entries capacity k v index added entries' Hindex Hcap Hk Hrefl Hadd;
    [discriminate|].
  cbn [addEntryLoop] in Hadd. cbn [findEntryLoop].
  destruct (next_index index capacity Hindex Hcap) as [Hnext Hrange].
  destruct (entries !! Z.to_nat index) as [entry|] eqn:Hentry; [|discriminate].
  pose proof (lookup_lt_Some _ _ _ Hentry) as Hlt.
  assert (Hpassed :
            passesOver heap k entry = true ->
            addEntryLoop heap fuel entries capacity k v
              (uint32 (index + 1) mod capacity) = Returns (added, entries') ->
            exists (found : Z) entry',
              match entries' !! Z.to_nat index with
              | Some here =>
                  if IS_UNDEFINED (key here) then
                    if IS_FALSE (value here) then Returns None
                    else findEntryLoop heap fuel entries' capacity k
                           (uint32 (index + 1) mod capacity)
                  else if wrenValuesEqual heap (key here) k
                       then Returns (Some index)
                       else findEntryLoop heap fuel entries' capacity k
                              (uint32 (index + 1) mod capacity)
              | None => OutOfBounds
              end = Returns (Some found)
              /\ entries' !! Z.to_nat found = Some entry' /\ value entry' = v).
  { intros Hpass Hrest. rewrite Hnext in *.
    pose proof (addEntryLoop_stores _ _ _ _ _ _ _ _ Hrange Hcap Hk Hrefl Hrest)
      as (slot & before & after & Hslot & Hbefore & Hstop & Hstored & _).
    assert (Hne : Z.to_nat slot <> Z.to_nat index).
    { intros Hsame. rewrite Hsame, Hentry in Hbefore. congruence. }
    destruct (IH _ _ _ _ _ _ _ Hrange Hcap Hk Hrefl Hrest)
      as (found & entry' & Hfind & Hfound).
    exists found, entry'. split; [|exact Hfound].
    rewrite Hstored at 1. rewrite list_lookup_insert_ne, Hentry by exact Hne.
    unfold passesOver in Hpass.
    destruct (IS_UNDEFINED (key entry)).
    - destruct (IS_FALSE (value entry)); [discriminate | exact Hfind].
    - destruct (wrenValuesEqual heap (key entry) k); [discriminate | exact Hfind]. }
  destruct (IS_UNDEFINED (key entry)) eqn:Hu.
  - destruct (IS_FALSE (value entry)) eqn:Hf.
    + injection Hadd as <- <-. rewrite list_lookup_insert_eq by exact Hlt.
      cbn [key value]. rewrite Hk, Hrefl.
      exists index, {| key := k; value := v |}.
      rewrite list_lookup_insert_eq by exact Hlt. auto.
    + apply Hpassed; [|exact Hadd]. unfold passesOver. now rewrite Hu, Hf.
  - destruct (wrenValuesEqual heap (key entry) k) eqn:Heq.
    + injection Hadd as <- <-. rewrite list_lookup_insert_eq by exact Hlt.
      cbn [key value]. rewrite Hu, Heq.
      exists index, {| key := key entry; value := v |}.
      rewrite list_lookup_insert_eq by exact Hlt. auto.
    + apply Hpassed; [|exact Hadd]. unfold passesOver. now rewrite Hu, Heq.
Qed.

(** Get after set, whenever [wrenMapSet] returns: for a key
    that is not the undefined value and is equal to itself, [wrenMapGet]
    right after [wrenMapSet(m, k, v)] returns [v]. *)
Lemma wrenMapGet_after_wrenMapSet map k v map' :
  mapWf map ->
  IS_UNDEFINED k = false -> wrenValuesEqual heap k k = true ->
  wrenMapSet heap map k v = Returns map' ->
  wrenMapGet heap map' k = Returns v.
Proof.
  intros (Hlen & Hcap & _) Hk Hrefl Hset. unfold wrenMapSet in Hset.
  apply outcome_bind_returns in Hset as (map1 & Hgrow & Hset).
  apply outcome_bind_returns in Hset as ([added entries'] & Hadd & [= <-]).
  cbn [fst snd] in *.
  assert (Hcap1 : capacity map1 < 2 ^ 32).
  { destruct (_ >? _).
    - unfold resizeMap in Hgrow.
      apply outcome_bind_returns in Hgrow as (es & _ & [= <-]).
      cbn [capacity]. unfold uint32.
      pose proof (Z.mod_pos_bound (capacity map * GROW_FACTOR) (2 ^ 32) ltac:(lia)).
      destruct (_ <? _); unfold MIN_CAPACITY; lia.
    - injection Hgrow as <-. lia. }
  unfold addEntry in Hadd.
  destruct (Z.to_nat (capacity map1)) as [|fuel] eqn:Hfuel; [discriminate|].
  rewrite <- Hfuel in Hadd.
  pose proof (first_index (hashValue heap k) (capacity map1) ltac:(lia)) as Hfirst.
  destruct (findEntryLoop_after_store _ _ _ _ _ _ _ _ Hfirst Hcap1 Hk Hrefl Hadd)
    as (found & entry & Hfind & Hentry & Hv).
  unfold wrenMapGet, findEntry. cbn [capacity entries].
  destruct (Z.eqb_spec (capacity map1) 0); [lia|].
  rewrite Hfind. cbn [obind]. now rewrite Hentry, Hv.
Qed.

(** C5. Start from a fresh map and make any sequence of calls of
    [wrenMapSet], [wrenMapRemoveKey] and [wrenMapClear]. At every point where
    the calls made so far have returned, [count <= capacity * 75 / 100], the
    capacity is 0 or at least 16, and a capacity other than 0 is 16 times a
    power of two. The sequence is one along which no call starts on a table of
    2^31 slots, where doubling the capacity leaves [uint32_t]. *)
Theorem map_load_invariant (ops : list (MapOp Value)) (made : nat) map :
  tableFits heap wrenNewMap ops = true ->
  runOps heap wrenNewMap (take made ops) = Returns map ->
  loadInvariant map.
Proof.
  intros Hfits Hrun.
  destruct (runOps_invariant (take made ops) wrenNewMap map
              wrenNewMap_invariant (tableFits_take ops made _ Hfits) Hrun)
    as [_ Hload].
  exact Hload.
Qed.

(** The same for every sequence of up to 2^24 calls. *)
Lemma map_load_invariant_short (ops : list (MapOp Value)) (made : nat) map :
  Z.of_nat (length ops) <= 2 ^ 24 ->
  runOps heap wrenNewMap (take made ops) = Returns map ->
  loadInvariant map.
Proof.
  intros Hbound Hrun.
  assert (Hfits : tableFits heap wrenNewMap ops = true).
  { apply (tableFits_short ops 0); [apply wrenNewMap_invariant | | |];
      cbn; lia. }
  destruct (runOps_invariant (take made ops) wrenNewMap map
              wrenNewMap_invariant (tableFits_take ops made _ Hfits) Hrun)
    as [_ Hload].
  exact Hload.
Qed.

(** The maps that the calls build are well formed. *)
Lemma runOps_wf (ops : list (MapOp Value)) map :
  tableFits heap wrenNewMap ops = true ->
  runOps heap wrenNewMap ops = Returns map -> mapWf map.
Proof.
  intros Hfits Hrun.
  destruct (runOps_invariant ops wrenNewMap map wrenNewMap_invariant Hfits Hrun)
    as [Hwf _].
  exact Hwf.
Qed.

(** C9. When the key [k] is present in a well-formed map, that is, when
    [findEntry] returns an entry for it, [wrenMapRemoveKey] returns, and the
    value it returns is the value of that entry, which is the value that
    [wrenMapGet] gives for [k] before the call. *)
Theorem wrenMapRemoveKey_returns_value map k (found : Z) entry :
  mapWf map ->
  findEntry heap map k = Returns (Some found) ->
  entries map !! Z.to_nat found = Some entry ->
  wrenMapGet heap map k = Returns (value entry)
  /\ exists map', wrenMapRemoveKey heap map k = Returns (value entry, map').
Proof.
  intros (Hlen & Hcap & Hocc & Hcount) Hfind Hentry.
  split; [unfold wrenMapGet; rewrite Hfind; cbn [obind]; now rewrite Hentry|].
  destruct (findEntry_found map k found Hfind Hcap)
    as (Hfound & entry0 & Hentry0 & Hkey).
  rewrite Hentry in Hentry0. injection Hentry0 as <-.
  unfold wrenMapRemoveKey. rewrite Hfind. cbn [obind]. rewrite Hentry.
  cbn [capacity count entries].
  set (tombstone := {| key := UNDEFINED_VAL; value := TRUE_VAL |}).
  set (entries1 := <[Z.to_nat found := tombstone]> (entries map)).
  assert (Hocc1 : occupied entries1 = occupied (entries map) - 1).
  { unfold entries1, occupied. rewrite (total_insert _ _ _ _ _ Hentry).
    unfold occupies, tombstone. cbn [key].
    rewrite Hkey, undefined_is_undefined. lia. }
  pose proof (occupied_nonneg entries1) as Hocc0.
  rewrite (uint32_small (count map - 1)) by lia.
  destruct (count map - 1 =? 0); [eauto|].
  unfold MIN_CAPACITY, GROW_FACTOR, MAP_LOAD_PERCENT.
  destruct (Z.ltb_spec 16 (capacity map)) as [Hbig|Hsmall]; cbn [andb]; [|eauto].
  destruct (Z.ltb_spec (count map - 1)
              (uint32 (capacity map / 2 * 75) / 100)) as [Hlow|Hhigh]; [|eauto].
  set (capacity' := if capacity map / 2 <? 16 then 16 else capacity map / 2).
  assert (Hnew : 0 < capacity' < 2 ^ 32 /\ capacity map / 2 <= capacity').
  { unfold capacity'. destruct (Z.ltb_spec (capacity map / 2) 16).
    - split; [lia|]. lia.
    - split; [|lia]. split; [lia|]. apply Z.div_lt_upper_bound; lia. }
  destruct (resizeMap_spec
              {| capacity := capacity map; count := count map - 1;
                 entries := entries1 |} capacity' ltac:(lia)) as [_ Hstops].
  destruct Hstops as [map' ->]; [|cbn; eauto].
  cbn [entries].
  pose proof (uint32_le (capacity map / 2 * 75)
                ltac:(apply Z.mul_nonneg_nonneg; [apply Z.div_pos|]; lia)) as Hwrap.
  assert (uint32 (capacity map / 2 * 75) / 100 <= capacity map / 2).
  { apply Z.div_le_upper_bound; lia. }
  lia.
Qed.

End Tables.

(** Scenario S3: thirteen keys make the table grow to 32 slots, and with one
    key left it is back at 16. Every prefix of the calls satisfies the load
    invariant. *)
Lemma map_load_invariant_witness :
  (exists map, runOps noObjects wrenNewMap (take 13 growAndShrinkOps) = Returns map
               /\ capacity map = 32 /\ count map = 13 /\ loadInvariant map)
  /\ (exists map, runOps noObjects wrenNewMap (take 25 growAndShrinkOps) = Returns map
                  /\ capacity map = 16 /\ count map = 1 /\ loadInvariant map).
Proof.
  split.
  - eexists. split; [vm_compute; reflexivity|]. split; [reflexivity|].
    split; [reflexivity|].
    apply (map_load_invariant noObjects growAndShrinkOps 13);
      [vm_compute; reflexivity | vm_compute; reflexivity].
  - eexists. split; [vm_compute; reflexivity|]. split; [reflexivity|].
    split; [reflexivity|].
    apply (map_load_invariant noObjects growAndShrinkOps 25);
      [vm_compute; reflexivity | vm_compute; reflexivity].
Defined.

Example oneKeyMap_built :
  runOps noObjects wrenNewMap [OpSet (VAL_NUM (doubleOf 1)) VAL_TRUE]
  = Returns oneKeyMap.
Proof. reflexivity. Qed.

(** Removing the key 1.0 from a map that holds it with the value true. *)
Lemma wrenMapRemoveKey_returns_value_witness :
  wrenMapGet noObjects oneKeyMap (VAL_NUM (doubleOf 1)) = Returns VAL_TRUE
  /\ exists map',
       wrenMapRemoveKey noObjects oneKeyMap (VAL_NUM (doubleOf 1))
       = Returns (VAL_TRUE, map').
Proof.
  apply (wrenMapRemoveKey_returns_value noObjects oneKeyMap
           (VAL_NUM (doubleOf 1)) 0
           {| key := VAL_NUM (doubleOf 1); value := VAL_TRUE |});
    [vm_compute; repeat split; discriminate | reflexivity | reflexivity].
Defined.




End MapFacts.

(** ** Maps: tombstones *)

Module MapTombstones.
Import Value Map Examples MapFacts.

(** C1 fails on the code. [addEntry] stores a new key in an empty slot only
    and never in a tombstone, and below thirteen entries a table of sixteen
    slots is never rebuilt. After the calls of [tombstoneOps] the key 0.0 and
    fifteen tombstones fill the table: the map has returned from
    [wrenMapRemoveKey] for the key 15.0, and [wrenMapGet] for that key then
    probes for ever, whatever the fuel, instead of returning the undefined
    value; so does [wrenMapSet] for a new key. The same holds under both
    encodings. *)
Theorem tombstones_fill_table :
  (exists map : ObjMap UnionValue,
     runOps noObjects wrenNewMap tombstoneOps = Returns map
     /\ capacity map = 16 /\ count map = 1
     /\ wrenMapGet noObjects map (NUM_VAL (doubleOf 15)) = Hangs
     /\ (forall fuel,
           findEntryLoop noObjects fuel (entries map) (capacity map)
             (NUM_VAL (doubleOf 15))
             (uint32 (hashValue (Value := UnionValue) noObjects
                        (NUM_VAL (doubleOf 15)))
                mod capacity map) = Hangs)
     /\ wrenMapSet noObjects map (NUM_VAL (doubleOf 16)) TRUE_VAL = Hangs)
  /\ (exists map : ObjMap NanValue,
        runOps noObjects wrenNewMap tombstoneOps = Returns map
        /\ capacity map = 16 /\ count map = 1
        /\ wrenMapGet noObjects map (NUM_VAL (doubleOf 15)) = Hangs
        /\ (forall fuel,
              findEntryLoop noObjects fuel (entries map) (capacity map)
                (NUM_VAL (doubleOf 15))
                (uint32 (hashValue (Value := NanValue) noObjects
                           (NUM_VAL (doubleOf 15)))
                   mod capacity map) = Hangs)
        /\ wrenMapSet noObjects map (NUM_VAL (doubleOf 16)) TRUE_VAL = Hangs).
Proof.
  split; eexists; (split; [vm_compute; reflexivity|]);
    (split; [reflexivity|]); (split; [reflexivity|]);
    (split; [reflexivity|]); (split; [|reflexivity]).
  - apply (findEntry_hangs_for_ever (Value := UnionValue));
      [cbn; lia | reflexivity].
  - apply (findEntry_hangs_for_ever (Value := NanValue));
      [cbn; lia | reflexivity].
Qed.

End MapTombstones.

(** * More properties *)

(** ** Lists: elements, insertion and removal *)

Module ListOpsFacts.
Import Value ObjList ListOps.

Section ListOpsFacts.
Context {Value : Type} `{ValueRep Value}.
Variable uninitialised : Value.
Implicit Types (data : list Value) (elements : ValueBuffer Value).

(** The array after the loop of [wrenListRemoveAt], slot by slot. *)
Lemma shiftUp_lookup (n : nat) :
  forall data (i : nat),
    (i + n < length data)%nat ->
    exists shifted,
      shiftUp n data i = Some shifted
      /\ length shifted = length data
      /\ forall p : nat,
           shifted !! p
           = if decide (i <= p < i + n)%nat then data !! S p else data !! p.
Proof.
  induction n as [|n IH]; intros data i Hlen.
  - exists data. split; [reflexivity|]. split; [reflexivity|].
    intros p. destruct (decide _); [lia | reflexivity].
  - cbn [shiftUp].
    destruct (lookup_lt_is_Some_2 data (S i)) as [next Hnext]; [lia|].
    rewrite Hnext.
    destruct (IH (<[i := next]> data) (S i)) as (shifted & -> & Hshifted & Hp).
    { rewrite length_insert. lia. }
    exists shifted. split; [reflexivity|].
    split; [now rewrite Hshifted, length_insert|].
    intros p. rewrite Hp.
    destruct (decide (S i <= p < S i + n)%nat), (decide (i <= p < i + S n)%nat);
      try lia.
    + apply list_lookup_insert_ne. lia.
    + assert (p = i) by lia. subst p.
      rewrite list_lookup_insert_eq by lia. now rewrite Hnext.
    + apply list_lookup_insert_ne. lia.
Qed.

(** The array after the loop of [wrenListInsert], slot by slot. *)
Lemma shiftDown_lookup (n : nat) :
  forall data (i : nat),
    (n <= i < length data)%nat ->
    exists shifted,
      shiftDown n data i = Some shifted
      /\ length shifted = length data
      /\ forall p : nat,
           shifted !! p
           = if decide (i - n < p <= i)%nat then data !! (p - 1)%nat
             else data !! p.
Proof.
  induction n as [|n IH]; intros data i Hlen.
  - exists data. split; [reflexivity|]. split; [reflexivity|].
    intros p. destruct (decide _); [lia | reflexivity].
  - destruct i as [|j]; [lia|]. cbn [shiftDown].
    destruct (lookup_lt_is_Some_2 data j) as [previous Hprevious]; [lia|].
    destruct (lookup_lt_is_Some_2 data (S j)) as [old Hold]; [lia|].
    rewrite Hprevious, Hold.
    destruct (IH (<[S j := previous]> data) j) as (shifted & -> & Hshifted & Hp).
    { rewrite length_insert. lia. }
    exists shifted. split; [reflexivity|].
    split; [now rewrite Hshifted, length_insert|].
    intros p. rewrite Hp.
    destruct (decide (j - n < p <= j)%nat), (decide (S j - S n < p <= S j)%nat);
      try lia.
    + apply list_lookup_insert_ne. lia.
    + assert (p = S j) by lia. subst p.
      rewrite list_lookup_insert_eq by lia.
      replace (S j - 1)%nat with j by lia. now rewrite Hprevious.
    + apply list_lookup_insert_ne. lia.
Qed.

(** [wrenListRemoveAt] returns the element at the index and leaves the other
    elements in their order; the buffer still has room for its count. *)
Lemma removeAt_elements elements (index : Z) :
  0 <= index < count elements ->
  count elements <= capacity elements ->
  Z.of_nat (length (data elements)) = capacity elements ->
  exists removed after,
    wrenListRemoveAt elements index = Some (removed, after)
    /\ elementsOf elements !! Z.to_nat index = Some removed
    /\ elementsOf after = delete (Z.to_nat index) (elementsOf elements)
    /\ count after = count elements - 1
    /\ 0 <= count after <= capacity after
    /\ Z.of_nat (length (data after)) = capacity after.
Proof.
  intros Hindex Hcount Hdata. unfold wrenListRemoveAt.
  destruct (lookup_lt_is_Some_2 (data elements) (Z.to_nat index))
    as [removed Hremoved]; [lia|].
  rewrite Hremoved.
  destruct (shiftUp_lookup (Z.to_nat (count elements - 1 - index))
              (data elements) (Z.to_nat index))
    as (shifted & -> & Hshifted & Hp); [lia|].
  cbn [count capacity data].
  assert (Hquot : Z.quot (capacity elements) GROW_FACTOR = capacity elements / 2)
    by (unfold GROW_FACTOR; apply Z.quot_div_nonneg; lia).
  rewrite Hquot.
  assert (Hlive : forall kept : list Value,
            (forall p : nat, (p < Z.to_nat (count elements - 1))%nat ->
                             kept !! p = shifted !! p) ->
            take (Z.to_nat (count elements - 1)) kept
            = delete (Z.to_nat index) (elementsOf elements)).
  { intros kept Hkept. apply list_eq. intros p. unfold elementsOf.
    destruct (decide (p < Z.to_nat (count elements - 1))%nat) as [Hlt|Hge].
    - rewrite lookup_take_lt, Hkept, Hp by lia.
      destruct (decide (Z.to_nat index <= p
                        < Z.to_nat index + Z.to_nat (count elements - 1 - index))%nat).
      + rewrite list_lookup_delete_ge, lookup_take_lt by lia. reflexivity.
      + rewrite list_lookup_delete_lt, lookup_take_lt by lia. reflexivity.
    - rewrite lookup_take_ge by lia. symmetry. apply lookup_ge_None_2.
      rewrite length_delete, length_take.
      + lia.
      + apply lookup_lt_is_Some_2. rewrite length_take. lia. }
  exists removed.
  destruct (Z.geb_spec (capacity elements / 2) (count elements)) as [Hge|Hlt];
    cbn [count capacity data]; eexists; (split; [reflexivity|]);
    unfold elementsOf at 1 2; cbn [count capacity data].
  - rewrite lookup_take_lt by lia. split; [exact Hremoved|].
    split.
    { apply Hlive. intros p Hp'. unfold reallocateArray.
      apply lookup_take_lt. lia. }
    split; [reflexivity|]. split; [lia|].
    unfold reallocateArray. rewrite length_take, Hshifted.
    assert (capacity elements / 2 <= capacity elements)
      by (apply Z.div_le_upper_bound; lia).
    assert (0 <= capacity elements / 2) by (apply Z.div_pos; lia).
    lia.
  - rewrite lookup_take_lt by lia. split; [exact Hremoved|].
    split; [apply Hlive; reflexivity|].
    split; [reflexivity|]. split; [lia|]. now rewrite Hshifted.
Qed.

(** Appending to a buffer: the elements before stay, the new one follows
    them, and the array has a slot for each of them. *)
Lemma wrenValueBufferWrite_spec elements (v : Value) :
  bufferWf elements ->
  let after := wrenValueBufferWrite uninitialised elements v in
  count after = count elements + 1
  /\ count after <= capacity after
  /\ Z.of_nat (length (data after)) = capacity after
  /\ (forall p : nat, (p < Z.to_nat (count elements))%nat ->
                      data after !! p = data elements !! p)
  /\ data after !! Z.to_nat (count elements) = Some v.
Proof.
  intros (Hcount & Hdata & Hlimit). unfold wrenValueBufferWrite.
  destruct (Z.ltb_spec (capacity elements) (count elements + 1)) as [Hfull|Hroom];
    cbn [count capacity data].
  - assert (Hgrown : capacity elements
                     < (if capacity elements =? 0 then 16 else capacity elements * 2))
      by (destruct (Z.eqb_spec (capacity elements) 0); lia).
    split; [reflexivity|]. split; [lia|].
    split; [rewrite length_insert, length_app, length_replicate; lia|].
    split.
    + intros p Hp. rewrite list_lookup_insert_ne by lia.
      apply lookup_app_l. lia.
    + apply list_lookup_insert_eq. rewrite length_app, length_replicate. lia.
  - split; [reflexivity|]. split; [lia|].
    split; [now rewrite length_insert|].
    split.
    + intros p Hp. apply list_lookup_insert_ne. lia.
    + apply list_lookup_insert_eq. lia.
Qed.

(** [wrenListInsert] puts the value at the index, keeps the elements before
    it and moves the ones from the index on by one place. *)
Lemma insert_elements elements (value : Value) (index : Z) :
  bufferWf elements ->
  0 <= index <= count elements ->
  exists after,
    wrenListInsert uninitialised elements value index = Some after
    /\ elementsOf after
       = take (Z.to_nat index) (elementsOf elements)
         ++ value :: drop (Z.to_nat index) (elementsOf elements)
    /\ count after = count elements + 1
    /\ count after <= capacity after
    /\ Z.of_nat (length (data after)) = capacity after.
Proof.
  intros Hwf Hindex. unfold wrenListInsert.
  destruct (wrenValueBufferWrite_spec elements NULL_VAL Hwf)
    as (Hcount' & Hroom' & Hdata' & Hkept & Hlast).
  destruct Hwf as (Hcount & Hdata & Hlimit).
  set (written := wrenValueBufferWrite uninitialised elements NULL_VAL) in *.
  rewrite Hcount'.
  replace (count elements + 1 - 1) with (count elements) by lia.
  assert (Hnowrap : uint32 (count elements) = count elements).
  { apply uint32_small. change (2 ^ 32) with 4294967296.
    change (2 ^ 30) with 1073741824 in Hlimit. lia. }
  rewrite Hnowrap.
  destruct (shiftDown_lookup (Z.to_nat (count elements - index)) (data written)
              (Z.to_nat (count elements)))
    as (shifted & -> & Hshifted & Hp); [lia|].
  destruct (lookup_lt_is_Some_2 shifted (Z.to_nat index)) as [old ->]; [lia|].
  eexists. split; [reflexivity|].
  unfold elementsOf at 1. cbn [count capacity data].
  split; [|split; [reflexivity|split; [lia|now rewrite length_insert, Hshifted]]].
  apply list_eq. intros p.
  assert (Hels : length (elementsOf elements) = Z.to_nat (count elements))
    by (unfold elementsOf; rewrite length_take; lia).
  destruct (decide (p < Z.to_nat index)%nat) as [Hbefore|Hnot].
  - rewrite lookup_take_lt, list_lookup_insert_ne, Hp by lia.
    destruct (decide _); [lia|].
    rewrite lookup_app_l by (rewrite length_take; lia).
    rewrite lookup_take_lt, Hkept by lia.
    unfold elementsOf. now rewrite lookup_take_lt by lia.
  - rewrite lookup_app_r by (rewrite length_take; lia).
    rewrite length_take, Hels.
    replace (Z.to_nat index `min` Z.to_nat (count elements))%nat
      with (Z.to_nat index) by lia.
    destruct (decide (p = Z.to_nat index)) as [->|Hafter].
    + rewrite lookup_take_lt, list_lookup_insert_eq by lia.
      now rewrite Nat.sub_diag.
    + destruct (decide (p <= Z.to_nat (count elements))%nat) as [Hin|Hout].
      * rewrite lookup_take_lt, list_lookup_insert_ne, Hp by lia.
        destruct (decide _); [|lia].
        rewrite Hkept by lia.
        replace (p - Z.to_nat index)%nat with (S (p - 1 - Z.to_nat index)) by lia.
        change ((value :: ?l) !! S ?k) with (l !! k). rewrite lookup_drop.
        unfold elementsOf. rewrite lookup_take_lt by lia. f_equal. lia.
      * rewrite lookup_take_ge by lia. symmetry. apply lookup_ge_None_2.
        cbn [length]. rewrite length_drop. lia.
Qed.

(** X1. For a list whose count does not exceed its capacity and an index
    below the count, [wrenListRemoveAt] returns the element at that index;
    the elements left are the old ones without it, in their order, the count
    is one less, and the array still has a slot for every element. *)
Theorem wrenListRemoveAt_elements elements (index : Z) :
  0 <= index < count elements ->
  count elements <= capacity elements ->
  Z.of_nat (length (data elements)) = capacity elements ->
  exists removed after,
    wrenListRemoveAt elements index = Some (removed, after)
    /\ elementsOf elements !! Z.to_nat index = Some removed
    /\ elementsOf after = delete (Z.to_nat index) (elementsOf elements)
    /\ count after = count elements - 1
    /\ 0 <= count after <= capacity after
    /\ Z.of_nat (length (data after)) = capacity after.
Proof. exact (removeAt_elements elements index). Qed.

(** X2. For a well-formed list and an index from 0 to the count (the count
    itself appends), [wrenListInsert] stays inside the array; afterwards the
    elements are the old ones before the index, the value, then the old ones
    from the index on, and the count is one more. *)
Theorem wrenListInsert_elements elements (value : Value) (index : Z) :
  bufferWf elements ->
  0 <= index <= count elements ->
  exists after,
    wrenListInsert uninitialised elements value index = Some after
    /\ elementsOf after
       = take (Z.to_nat index) (elementsOf elements)
         ++ value :: drop (Z.to_nat index) (elementsOf elements)
    /\ count after = count elements + 1
    /\ count after <= capacity after
    /\ Z.of_nat (length (data after)) = capacity after.
Proof. exact (insert_elements elements value index). Qed.

(** X3. Inserting a value at an index and then removing at the same index
    returns that value and leaves the elements of the list as they were. *)
Theorem wrenListInsert_then_RemoveAt elements (value : Value) (index : Z) :
  bufferWf elements ->
  0 <= index <= count elements ->
  exists inserted after,
    wrenListInsert uninitialised elements value index = Some inserted
    /\ wrenListRemoveAt inserted index = Some (value, after)
    /\ elementsOf after = elementsOf elements.
Proof.
  intros Hwf Hindex.
  destruct (insert_elements elements value index Hwf Hindex)
    as (inserted & Hinsert & Hels & Hcount & Hroom & Hdata).
  destruct (removeAt_elements inserted index)
    as (removed & after & Hremove & Hremoved & Hafter & _); [lia | lia | exact Hdata |].
  assert (Hlen : length (take (Z.to_nat index) (elementsOf elements))
                 = Z.to_nat index).
  { unfold elementsOf. rewrite !length_take.
    destruct Hwf as (? & ? & ?). lia. }
  rewrite Hels in Hremoved, Hafter.
  rewrite <- Hlen in Hremoved at 1. rewrite list_lookup_middle in Hremoved by reflexivity.
  injection Hremoved as <-.
  exists inserted, after. split; [exact Hinsert|]. split; [exact Hremove|].
  rewrite Hafter. rewrite <- Hlen at 1.
  rewrite delete_middle. apply take_drop.
Qed.

End ListOpsFacts.

Lemma wrenListRemoveAt_elements_witness :
  exists removed after,
    wrenListRemoveAt Examples.eightOfSixteen 2 = Some (removed, after)
    /\ elementsOf after = [1; 2; 4; 5; 6; 7; 8].
Proof.
  destruct (wrenListRemoveAt_elements Examples.eightOfSixteen 2)
    as (removed & after & Hcall & _ & Hafter & _);
    [cbn; lia | cbn; lia | reflexivity |].
  exists removed, after. split; [exact Hcall|]. rewrite Hafter. reflexivity.
Defined.

Lemma wrenListInsert_elements_witness :
  exists after,
    wrenListInsert (Value := NanValue) 0 Examples.eightOfSixteen 42 3 = Some after
    /\ elementsOf after = [1; 2; 3; 42; 4; 5; 6; 7; 8].
Proof.
  destruct (wrenListInsert_elements (Value := NanValue) 0
              Examples.eightOfSixteen 42 3)
    as (after & Hcall & Hafter & _);
    [split; [split; discriminate | split; reflexivity] | cbn; lia |].
  exists after. split; [exact Hcall|]. rewrite Hafter. reflexivity.
Defined.

Lemma wrenListInsert_then_RemoveAt_witness :
  exists inserted after,
    wrenListInsert (Value := NanValue) 0 Examples.eightOfSixteen 42 8
    = Some inserted
    /\ wrenListRemoveAt inserted 8 = Some (42, after)
    /\ elementsOf after = [1; 2; 3; 4; 5; 6; 7; 8].
Proof.
  apply (wrenListInsert_then_RemoveAt (Value := NanValue) 0
           Examples.eightOfSixteen 42 8).
  - split; [split; discriminate | split; reflexivity].
  - cbn. lia.
Defined.

End ListOpsFacts.


(** ** Symbol tables *)

Module SymbolFacts.
Import Value ObjList ListOps Symbols.

Lemma wrenValueBufferWrite_elements {Value : Type} (uninitialised : Value)
    (elements : ValueBuffer Value) (v : Value) :
  bufferWf elements ->
  elementsOf (wrenValueBufferWrite uninitialised elements v)
  = elementsOf elements ++ [v].
Proof.
  intros Hwf.
  destruct (ListOpsFacts.wrenValueBufferWrite_spec uninitialised elements v Hwf)
    as (Hcount & Hroom & Hdata & Hkept & Hlast).
  destruct Hwf as (Hle & Hlen & _).
  unfold elementsOf. rewrite Hcount.
  replace (Z.to_nat (count elements + 1)) with (S (Z.to_nat (count elements)))
    by lia.
  rewrite (take_S_r _ _ v) by exact Hlast. f_equal.
  apply list_eq. intros p.
  destruct (decide (p < Z.to_nat (count elements))%nat).
  - rewrite !lookup_take_lt by lia. now apply Hkept.
  - now rewrite !lookup_take_ge by lia.
Qed.

(** The test of the loop of [wrenSymbolTableFind]. *)
Lemma names_test (symbol : String) (name : list Z) (len : Z) :
  0 <= Symbols.length symbol < 2 ^ 31 ->
  (size_t (Symbols.length symbol) =? len) && memcmp_eq (buffer symbol) name len
  = true
  <-> names symbol name len.
Proof.
  intros Hlen. unfold names, memcmp_eq, size_t.
  rewrite Z.mod_small
    by (change (2 ^ 31) with 2147483648 in Hlen;
        change (2 ^ 64) with 18446744073709551616; lia).
  rewrite andb_true_iff, Z.eqb_eq, bool_decide_eq_true. reflexivity.
Qed.

Lemma findLoop_spec (symbols : SymbolTable) (name : list Z) (len : Z) (n : nat) :
  forall i : nat,
    (i + n <= List.length (data symbols))%nat ->
    (forall (k : nat) (symbol : String),
        (k < i + n)%nat -> data symbols !! k = Some symbol ->
        0 <= Symbols.length symbol < 2 ^ 31) ->
    exists r,
      findLoop n symbols name len (Z.of_nat i) = Some r
      /\ ((r = -1
           /\ forall (k : nat) (symbol : String),
                (i <= k < i + n)%nat -> data symbols !! k = Some symbol ->
                ~ names symbol name len)
          \/ exists (k : nat) (symbol : String),
               r = Z.of_nat k /\ (i <= k < i + n)%nat
               /\ data symbols !! k = Some symbol
               /\ names symbol name len
               /\ forall (k' : nat) (other : String),
                    (i <= k' < k)%nat -> data symbols !! k' = Some other ->
                    ~ names other name len).
Proof.
  induction n as [|n IH]; intros i Hin Hlens.
  - exists (-1). split; [reflexivity|]. left. split; [reflexivity|].
    intros k symbol Hk. lia.
  - cbn [findLoop]. rewrite Nat2Z.id.
    destruct (lookup_lt_is_Some_2 (data symbols) i) as [symbol Hsymbol]; [lia|].
    rewrite Hsymbol.
    destruct ((size_t (Symbols.length symbol) =? len)
              && memcmp_eq (buffer symbol) name len) eqn:Htest.
    + exists (Z.of_nat i). split; [reflexivity|]. right.
      exists i, symbol. split; [reflexivity|]. split; [lia|].
      split; [exact Hsymbol|]. split.
      * apply names_test; [|exact Htest]. apply (Hlens i); [lia | exact Hsymbol].
      * intros k' other Hk'. lia.
    + assert (Hnot : ~ names symbol name len).
      { intros Hnames. apply names_test in Hnames.
        - rewrite Hnames in Htest. discriminate.
        - apply (Hlens i); [lia | exact Hsymbol]. }
      replace (Z.of_nat i + 1) with (Z.of_nat (S i)) by lia.
      destruct (IH (S i)) as (r & Hr & Hspec); [lia | |].
      { intros k other Hk. apply Hlens. lia. }
      exists r. split; [exact Hr|].
      destruct Hspec as [[-> Hnone] | (k & found & -> & Hk & Hfound & Hnames & Hleast)].
      * left. split; [reflexivity|]. intros k other Hk Hother.
        destruct (decide (k = i)) as [->|Hne].
        -- rewrite Hsymbol in Hother. injection Hother as <-. exact Hnot.
        -- apply (Hnone k); [lia | exact Hother].
      * right. exists k, found. split; [reflexivity|]. split; [lia|].
        split; [exact Hfound|]. split; [exact Hnames|].
        intros k' other Hk' Hother.
        destruct (decide (k' = i)) as [->|Hne].
        -- rewrite Hsymbol in Hother. injection Hother as <-. exact Hnot.
        -- apply (Hleast k'); [lia | exact Hother].
Qed.

Lemma find_foundAt (symbols : SymbolTable) (name : list Z) (len : Z) :
  symbolsWf symbols ->
  exists r,
    wrenSymbolTableFind symbols name len = Some r
    /\ foundAt symbols name len r
    /\ -1 <= r < count symbols.
Proof.
  intros (Hcount & Hdata & _ & Hlens). unfold wrenSymbolTableFind.
  destruct (findLoop_spec symbols name len (Z.to_nat (count symbols)) 0)
    as (r & Hr & Hspec); [lia | |].
  { intros k symbol Hk Hsymbol. apply (Hlens k). unfold elementsOf.
    rewrite lookup_take_lt by lia. exact Hsymbol. }
  exists r. split; [exact Hr|].
  assert (Hels : forall (k : nat) (symbol : String),
            elementsOf symbols !! k = Some symbol ->
            (k < Z.to_nat (count symbols))%nat
            /\ data symbols !! k = Some symbol).
  { intros k symbol Hk. unfold elementsOf in Hk.
    destruct (decide (k < Z.to_nat (count symbols))%nat).
    - rewrite lookup_take_lt in Hk by lia. split; [lia | exact Hk].
    - rewrite lookup_take_ge in Hk by lia. discriminate. }
  destruct Hspec as [[-> Hnone] | (k & found & -> & Hk & Hfound & Hnames & Hleast)].
  - split; [|lia]. left. split; [reflexivity|]. intros i symbol Hi.
    destruct (Hels i symbol Hi) as [Hlt Hdata']. apply (Hnone i); [lia | exact Hdata'].
  - split; [|lia]. right. split; [lia|]. exists found. rewrite Nat2Z.id.
    split; [unfold elementsOf; rewrite lookup_take_lt by lia; exact Hfound|].
    split; [exact Hnames|]. intros i other Hi Hother.
    destruct (Hels i other Hother) as [Hlt Hdata']. apply (Hleast i); [lia | exact Hdata'].
Qed.

Lemma foundAt_unique (symbols : SymbolTable) (name : list Z) (len : Z) (r r' : Z) :
  foundAt symbols name len r -> foundAt symbols name len r' -> r = r'.
Proof.
  intros [[-> Hnone] | (Hr & s & Hs & Hnames & Hleast)]
         [[-> Hnone'] | (Hr' & s' & Hs' & Hnames' & Hleast')].
  - reflexivity.
  - destruct (Hnone _ _ Hs' Hnames').
  - destruct (Hnone' _ _ Hs Hnames).
  - destruct (Z.lt_trichotomy r r') as [Hlt | [Heq | Hgt]]; [|exact Heq|].
    + destruct (Hleast' (Z.to_nat r) s); [lia | exact Hs | exact Hnames].
    + destruct (Hleast (Z.to_nat r') s'); [lia | exact Hs' | exact Hnames'].
Qed.

Lemma symbolsWf_bufferWf (symbols : SymbolTable) :
  symbolsWf symbols -> count symbols < 2 ^ 29 -> bufferWf symbols.
Proof.
  intros (Hcount & Hdata & Hgrown & _) Hlimit.
  split; [exact Hcount|]. split; [exact Hdata|].
  change (2 ^ 29) with 536870912 in Hlimit. change (2 ^ 30) with 1073741824.
  lia.
Qed.

(** [wrenSymbolTableAdd] appends the name and returns its index. *)
Lemma add_spec (symbols : SymbolTable) (name : list Z) (len : Z) :
  symbolsWf symbols ->
  count symbols < 2 ^ 29 ->
  0 <= len < 2 ^ 31 ->
  len <= Z.of_nat (List.length name) ->
  exists symbols' symbol,
    wrenSymbolTableAdd symbols name len = (symbols', count symbols)
    /\ elementsOf symbols' = elementsOf symbols ++ [symbol]
    /\ count symbols' = count symbols + 1
    /\ buffer symbol = take (Z.to_nat len) name ++ [0]
    /\ Symbols.length symbol = len
    /\ symbolsWf symbols'.
Proof.
  intros Hwf Hlimit Hlen Hname.
  pose proof (symbolsWf_bufferWf symbols Hwf Hlimit) as Hbuffer.
  unfold wrenSymbolTableAdd, wrenStringBufferWrite.
  set (symbol := {| buffer := take (Z.to_nat len) name ++ [0];
                    length := Classes.int32 len |}).
  destruct (ListOpsFacts.wrenValueBufferWrite_spec unused symbols symbol Hbuffer)
    as (Hcount' & Hroom' & Hdata' & _).
  pose proof (wrenValueBufferWrite_elements unused symbols symbol Hbuffer) as Hels.
  assert (Hgrown' : capacity (wrenValueBufferWrite unused symbols symbol)
                    <= Z.max 16 (2 * (count symbols + 1))).
  { destruct Hwf as (Hcount & Hdata & Hgrown & _). unfold wrenValueBufferWrite.
    destruct (Z.ltb_spec (capacity symbols) (count symbols + 1));
      cbn [count capacity data]; [|lia].
    destruct (Z.eqb_spec (capacity symbols) 0); lia. }
  set (symbols' := wrenValueBufferWrite unused symbols symbol) in *.
  exists symbols', symbol. rewrite Hcount'.
  split; [f_equal; lia|]. split; [exact Hels|]. split; [reflexivity|].
  assert (Hint : Classes.int32 len = len)
    by (apply ClassFacts.int32_small; change (2 ^ 31) with 2147483648 in *; lia).
  split; [reflexivity|]. split; [exact Hint|].
  destruct Hwf as (Hcount & Hdata & Hgrown & Hlens).
  split; [lia|]. split; [exact Hdata'|]. split; [rewrite Hcount'; exact Hgrown'|].
  intros i other. rewrite Hels. intros Hother.
  apply lookup_app_Some in Hother as [Hold | [_ Hnew]].
  - apply (Hlens i other Hold).
  - apply list_lookup_singleton_Some in Hnew as [_ <-]. cbn [Symbols.length symbol].
    rewrite Hint. exact Hlen.
Qed.

(** The symbol that [wrenSymbolTableAdd] stores is the name. *)
Lemma names_stored (symbol : String) (name : list Z) (len : Z) :
  0 <= len <= Z.of_nat (List.length name) ->
  buffer symbol = take (Z.to_nat len) name ++ [0] ->
  Symbols.length symbol = len ->
  names symbol name len.
Proof.
  intros Hlen Hbuffer Hlength. split; [exact Hlength|]. rewrite Hbuffer.
  rewrite take_app_le by (rewrite length_take; lia). apply take_idemp.
Qed.

Lemma length_elementsOf (symbols : SymbolTable) :
  symbolsWf symbols ->
  List.length (elementsOf symbols) = Z.to_nat (count symbols).
Proof.
  intros (Hcount & Hdata & _). unfold elementsOf. rewrite length_take. lia.
Qed.

(** A name found in a table is found at the same index in a longer one. *)
Lemma foundAt_longer (symbols symbols' : SymbolTable) (added : list String)
    (name : list Z) (len : Z) (r : Z) :
  elementsOf symbols' = elementsOf symbols ++ added ->
  foundAt symbols name len r -> r <> -1 ->
  foundAt symbols' name len r.
Proof.
  intros Hels [[-> _] | (Hr & symbol & Hsymbol & Hnames & Hleast)] Hfound;
    [contradiction|].
  right. split; [exact Hr|]. exists symbol. rewrite Hels.
  pose proof (lookup_lt_Some _ _ _ Hsymbol) as Hlt.
  split; [rewrite lookup_app_l by lia; exact Hsymbol|].
  split; [exact Hnames|]. intros i other Hi.
  rewrite lookup_app_l by lia. apply Hleast. exact Hi.
Qed.

(** [wrenSymbolTableEnsure], call by call. *)
Lemma ensure_spec (symbols : SymbolTable) (name : list Z) (len : Z) :
  symbolsWf symbols ->
  count symbols < 2 ^ 29 ->
  0 <= len < 2 ^ 31 ->
  len <= Z.of_nat (List.length name) ->
  exists symbols' i,
    wrenSymbolTableEnsure symbols name len = Some (symbols', i)
    /\ symbolsWf symbols'
    /\ foundAt symbols' name len i
    /\ 0 <= i < count symbols'
    /\ (exists added, elementsOf symbols' = elementsOf symbols ++ added)
    /\ count symbols <= count symbols' <= count symbols + 1
    /\ (distinct symbols -> distinct symbols').
Proof.
  intros Hwf Hlimit Hlen Hname. unfold wrenSymbolTableEnsure.
  destruct (find_foundAt symbols name len Hwf) as (r & -> & Hfound & Hr).
  destruct (Z.eqb_spec r (-1)) as [->|Hne]; cbn [negb].
  - destruct (add_spec symbols name len Hwf Hlimit Hlen Hname)
      as (symbols' & symbol & -> & Hels & Hcount' & Hbuffer & Hlength & Hwf').
    pose proof (length_elementsOf symbols Hwf) as Hsize.
    pose proof (names_stored symbol name len ltac:(lia) Hbuffer Hlength) as Hnames.
    destruct Hfound as [[_ Hnone] | (Hneg & _)]; [|lia].
    assert (Hnew : elementsOf symbols' !! Z.to_nat (count symbols) = Some symbol).
    { rewrite Hels, <- Hsize. apply list_lookup_middle. reflexivity. }
    exists symbols', (count symbols). split; [reflexivity|].
    split; [exact Hwf'|]. split.
    { right. split; [destruct Hwf; lia|]. exists symbol.
      split; [exact Hnew|]. split; [exact Hnames|].
      intros i other Hi. rewrite Hels, lookup_app_l by lia. apply Hnone. }
    split; [destruct Hwf; lia|]. split; [exists [symbol]; exact Hels|].
    split; [lia|]. intros Hdistinct i j a b. rewrite Hels. intros Ha Hb Hab.
    apply lookup_app_Some in Ha as [Ha | [Hi Ha]];
      apply lookup_app_Some in Hb as [Hb | [Hj Hb]].
    + apply (Hdistinct i j a b Ha Hb Hab).
    + apply list_lookup_singleton_Some in Hb as [_ <-].
      destruct (Hnone i a Ha). destruct Hab as [Hsame Htake].
      rewrite Hlength in Hsame, Htake. split; [exact Hsame|].
      rewrite Htake. apply Hnames.
    + apply list_lookup_singleton_Some in Ha as [_ <-].
      destruct (Hnone j b Hb). destruct Hab as [Hsame Htake].
      rewrite Hlength in Hsame. rewrite <- Hsame in Htake.
      split; [now symmetry|]. rewrite <- Htake. apply Hnames.
    + apply list_lookup_singleton_Some in Ha as [Hi' _].
      apply list_lookup_singleton_Some in Hb as [Hj' _]. lia.
  - exists symbols, r. split; [reflexivity|]. split; [exact Hwf|].
    split; [exact Hfound|]. split; [lia|].
    split; [exists []; now rewrite app_nil_r|]. split; [lia|]. trivial.
Qed.

(** The answer of [wrenSymbolTableFind] is the index that [foundAt] names. *)
Lemma find_is_foundAt (symbols : SymbolTable) (name : list Z) (len : Z) (r : Z) :
  symbolsWf symbols ->
  foundAt symbols name len r ->
  wrenSymbolTableFind symbols name len = Some r.
Proof.
  intros Hwf Hfound.
  destruct (find_foundAt symbols name len Hwf) as (r' & -> & Hfound' & _).
  f_equal. apply (foundAt_unique symbols name len); assumption.
Qed.

Lemma ensureAll_spec (names : list (list Z)) :
  forall symbols : SymbolTable,
    symbolsWf symbols ->
    distinct symbols ->
    count symbols + Z.of_nat (List.length names) < 2 ^ 29 ->
    Forall (fun name => Z.of_nat (List.length name) < 2 ^ 31) names ->
    exists symbols',
      ensureAll symbols names = Some symbols'
      /\ symbolsWf symbols'
      /\ distinct symbols'
      /\ (exists added, elementsOf symbols' = elementsOf symbols ++ added)
      /\ forall name, name ∈ names ->
           exists i, foundAt symbols' name (Z.of_nat (List.length name)) i
                     /\ 0 <= i.
Proof.
  induction names as [|name rest IH]; intros symbols Hwf Hdistinct Hmany Hshort.
  - exists symbols. split; [reflexivity|]. split; [exact Hwf|].
    split; [exact Hdistinct|]. split; [exists []; now rewrite app_nil_r|].
    intros name Hin. inversion Hin.
  - apply Forall_cons in Hshort as [Hname Hshort]. cbn [ensureAll].
    cbn [List.length] in Hmany.
    destruct (ensure_spec symbols name (Z.of_nat (List.length name)))
      as (symbols1 & i & -> & Hwf1 & Hfound1 & Hi & [added1 Hels1] & Hcount1
          & Hdistinct1); [exact Hwf | lia | lia | lia |].
    destruct (IH symbols1) as (symbols' & Hall & Hwf' & Hdistinct' & [added Hels']
                               & Hfound');
      [exact Hwf1 | exact (Hdistinct1 Hdistinct) | lia | exact Hshort |].
    exists symbols'. split; [exact Hall|]. split; [exact Hwf'|].
    split; [exact Hdistinct'|].
    split; [exists (added1 ++ added); now rewrite Hels', Hels1, app_assoc|].
    intros name' Hin. apply elem_of_cons in Hin as [->|Hin].
    + exists i. split; [|lia].
      apply (foundAt_longer symbols1 symbols' added); [exact Hels' | exact Hfound1 | lia].
    + apply Hfound'. exact Hin.
Qed.

Lemma wrenSymbolTableInit_wf : symbolsWf wrenSymbolTableInit.
Proof.
  split; [cbn; lia|]. split; [reflexivity|]. split; [cbn; lia|].
  intros i symbol Hsymbol. destruct i; discriminate Hsymbol.
Qed.

(** X4. [wrenSymbolTableFind] returns the first index whose symbol has the
    length and the bytes of the name, and -1 when no symbol of the table
    has. *)
Theorem wrenSymbolTableFind_first (symbols : SymbolTable) (name : list Z)
    (len : Z) :
  symbolsWf symbols ->
  exists r,
    wrenSymbolTableFind symbols name len = Some r
    /\ -1 <= r < count symbols
    /\ (r = -1 ->
        forall (i : nat) (symbol : String),
          elementsOf symbols !! i = Some symbol -> ~ names symbol name len)
    /\ (r <> -1 ->
        exists symbol,
          elementsOf symbols !! Z.to_nat r = Some symbol
          /\ names symbol name len
          /\ forall (i : nat) (other : String),
               (i < Z.to_nat r)%nat ->
               elementsOf symbols !! i = Some other ->
               ~ names other name len).
Proof.
  intros Hwf.
  destruct (find_foundAt symbols name len Hwf) as (r & Hr & Hfound & Hrange).
  exists r. split; [exact Hr|]. split; [exact Hrange|].
  destruct Hfound as [[-> Hnone] | (Hpos & Hsome)].
  - split; [intros _; exact Hnone | intros Hne; contradiction].
  - split; [intros ->; lia | intros _; exact Hsome].
Qed.

(** X5. [wrenSymbolTableEnsure] returns an index of the table it leaves, the
    symbol there is the name, [wrenSymbolTableFind] then returns that index,
    and ensuring the same name again returns it and leaves the table as it
    is. *)
Theorem wrenSymbolTableEnsure_then_Find (symbols : SymbolTable)
    (name : list Z) (len : Z) :
  symbolsWf symbols ->
  count symbols < 2 ^ 29 ->
  0 <= len < 2 ^ 31 ->
  len <= Z.of_nat (List.length name) ->
  exists symbols' i symbol,
    wrenSymbolTableEnsure symbols name len = Some (symbols', i)
    /\ 0 <= i < count symbols'
    /\ elementsOf symbols' !! Z.to_nat i = Some symbol
    /\ names symbol name len
    /\ wrenSymbolTableFind symbols' name len = Some i
    /\ wrenSymbolTableEnsure symbols' name len = Some (symbols', i).
Proof.
  intros Hwf Hlimit Hlen Hname.
  destruct (ensure_spec symbols name len Hwf Hlimit Hlen Hname)
    as (symbols' & i & Hensure & Hwf' & Hfound & Hi & _).
  pose proof (find_is_foundAt symbols' name len i Hwf' Hfound) as Hfind.
  destruct Hfound as [[-> _] | (_ & symbol & Hsymbol & Hnames & _)]; [lia|].
  exists symbols', i, symbol. split; [exact Hensure|]. split; [exact Hi|].
  split; [exact Hsymbol|]. split; [exact Hnames|]. split; [exact Hfind|].
  unfold wrenSymbolTableEnsure. rewrite Hfind.
  destruct (Z.eqb_spec i (-1)); [lia | reflexivity].
Qed.

(** X6. [wrenSymbolTableEnsure] moves no symbol: a name that
    [wrenSymbolTableFind] found before the call is found at the same index
    after it. *)
Theorem wrenSymbolTableEnsure_keeps_indices (symbols : SymbolTable)
    (name : list Z) (len : Z) :
  symbolsWf symbols ->
  count symbols < 2 ^ 29 ->
  0 <= len < 2 ^ 31 ->
  len <= Z.of_nat (List.length name) ->
  exists symbols' i,
    wrenSymbolTableEnsure symbols name len = Some (symbols', i)
    /\ forall (name' : list Z) (len' j : Z),
         wrenSymbolTableFind symbols name' len' = Some j ->
         j <> -1 ->
         wrenSymbolTableFind symbols' name' len' = Some j.
Proof.
  intros Hwf Hlimit Hlen Hname.
  destruct (ensure_spec symbols name len Hwf Hlimit Hlen Hname)
    as (symbols' & i & Hensure & Hwf' & _ & _ & [added Hels] & _).
  exists symbols', i. split; [exact Hensure|]. intros name' len' j Hj Hne.
  apply find_is_foundAt; [exact Hwf'|].
  apply (foundAt_longer symbols symbols' added); [exact Hels | | exact Hne].
  destruct (find_foundAt symbols name' len' Hwf) as (r & Hr & Hfound & _).
  rewrite Hr in Hj. injection Hj as <-. exact Hfound.
Qed.

(** X7. A table filled by [wrenSymbolTableEnsure] alone, from
    [wrenSymbolTableInit], holds no name twice: every ensured name is found,
    and for every symbol of the table [wrenSymbolTableFind] returns the
    index of that very symbol. *)
Theorem ensureAll_distinct (names : list (list Z)) :
  Z.of_nat (List.length names) < 2 ^ 29 ->
  Forall (fun name => Z.of_nat (List.length name) < 2 ^ 31) names ->
  exists symbols,
    ensureAll wrenSymbolTableInit names = Some symbols
    /\ (forall name, name ∈ names ->
          exists i, wrenSymbolTableFind symbols name
                      (Z.of_nat (List.length name)) = Some i
                    /\ 0 <= i < count symbols)
    /\ forall (i : nat) (symbol : String),
         elementsOf symbols !! i = Some symbol ->
         wrenSymbolTableFind symbols (buffer symbol) (Symbols.length symbol)
         = Some (Z.of_nat i).
Proof.
  intros Hmany Hshort.
  destruct (ensureAll_spec names wrenSymbolTableInit)
    as (symbols & Hall & Hwf & Hdistinct & _ & Hfound);
    [exact wrenSymbolTableInit_wf | | exact Hmany | exact Hshort |].
  { intros i j a b Ha. destruct i; discriminate Ha. }
  exists symbols. split; [exact Hall|]. split.
  - intros name Hin. destruct (Hfound name Hin) as (i & Hi & Hpos).
    exists i. split; [apply find_is_foundAt; assumption|].
    destruct (find_foundAt symbols name (Z.of_nat (List.length name)) Hwf)
      as (r & _ & Hr & Hrange).
    rewrite (foundAt_unique _ _ _ _ _ Hi Hr). rewrite (foundAt_unique _ _ _ _ _ Hi Hr) in Hpos. lia.
  - intros i symbol Hsymbol. apply find_is_foundAt; [exact Hwf|].
    right. split; [lia|]. exists symbol. rewrite Nat2Z.id.
    split; [exact Hsymbol|]. split; [split; reflexivity|].
    intros k other Hk Hother Hnames.
    pose proof (Hdistinct k i other symbol Hother Hsymbol Hnames). lia.
Qed.

(** X28. [wrenSymbolTableAdd] does not look for the name: it appends a
    symbol and returns the old count also when the table has the name. A
    name that was new is then found at the index returned; a name that the
    table had is still found at its old index, never at the one returned,
    and the table holds it twice. *)
Theorem wrenSymbolTableAdd_then_Find (symbols : SymbolTable) (name : list Z)
    (len : Z) :
  symbolsWf symbols ->
  count symbols < 2 ^ 29 ->
  0 <= len < 2 ^ 31 ->
  len <= Z.of_nat (List.length name) ->
  exists symbols' before after,
    wrenSymbolTableAdd symbols name len = (symbols', count symbols)
    /\ count symbols' = count symbols + 1
    /\ wrenSymbolTableFind symbols name len = Some before
    /\ wrenSymbolTableFind symbols' name len = Some after
    /\ (before = -1 -> after = count symbols)
    /\ (before <> -1 ->
        after = before /\ before < count symbols /\ ~ distinct symbols').
Proof.
  intros Hwf Hlimit Hlen Hname.
  destruct (find_foundAt symbols name len Hwf) as (r & Hfind & Hfound & Hr).
  destruct (add_spec symbols name len Hwf Hlimit Hlen Hname)
    as (symbols' & symbol & Hadd & Hels & Hcount' & Hbuffer & Hlength & Hwf').
  pose proof (length_elementsOf symbols Hwf) as Hsize.
  pose proof (names_stored symbol name len ltac:(lia) Hbuffer Hlength) as Hnames.
  assert (Hnew : elementsOf symbols' !! Z.to_nat (count symbols) = Some symbol).
  { rewrite Hels, <- Hsize. apply list_lookup_middle. reflexivity. }
  destruct (Z.eq_dec r (-1)) as [-> | Hne].
  - destruct Hfound as [[_ Hnone] | (Hneg & _)]; [|lia].
    exists symbols', (-1), (count symbols). split; [exact Hadd|].
    split; [exact Hcount'|]. split; [exact Hfind|]. split.
    + apply find_is_foundAt; [exact Hwf'|]. right.
      split; [destruct Hwf; lia|]. exists symbol.
      split; [exact Hnew|]. split; [exact Hnames|].
      intros i other Hi. rewrite Hels, lookup_app_l by lia. apply Hnone.
    + split; [reflexivity | intros Hold; now destruct Hold].
  - exists symbols', r, r. split; [exact Hadd|]. split; [exact Hcount'|].
    split; [exact Hfind|]. split.
    + apply find_is_foundAt; [exact Hwf'|].
      apply (foundAt_longer symbols symbols' [symbol]); assumption.
    + split; [intros ->; now destruct Hne|]. intros _.
      split; [reflexivity|]. split; [lia|]. intros Hdistinct.
      destruct Hfound as [[-> _] | (Hpos & old & Hold & Holdnames & _)];
        [now destruct Hne|].
      assert (Hsame : Z.to_nat r = Z.to_nat (count symbols)).
      { apply (Hdistinct _ _ old symbol); [|exact Hnew|].
        - rewrite Hels. apply lookup_app_l_Some, Hold.
        - destruct Holdnames as [Hl Ht]. destruct Hnames as [Hl' Ht'].
          rewrite Hl'. split; [exact Hl|]. now rewrite Ht, Ht'. }
      lia.
Qed.

Ltac twoSymbols_wf :=
  split; [cbn; lia|]; split; [reflexivity|]; split; [cbn; lia|];
  let i := fresh "i" in
  let symbol := fresh "symbol" in
  let Hsymbol := fresh "Hsymbol" in
  intros i symbol Hsymbol;
  destruct i as [|[|i]]; cbn in Hsymbol;
  [injection Hsymbol as <-; split; [discriminate | reflexivity] ..
  | discriminate Hsymbol].

Lemma wrenSymbolTableFind_first_witness :
  exists r,
    wrenSymbolTableFind Examples.twoSymbols Examples.bar 3 = Some r
    /\ -1 <= r < 2.
Proof.
  destruct (wrenSymbolTableFind_first Examples.twoSymbols Examples.bar 3)
    as (r & Hr & Hrange & _); [twoSymbols_wf|].
  exists r. split; [exact Hr | exact Hrange].
Defined.

Lemma wrenSymbolTableEnsure_then_Find_witness :
  exists symbols' i,
    wrenSymbolTableEnsure Examples.twoSymbols [98; 97; 122] 3
    = Some (symbols', i)
    /\ wrenSymbolTableFind symbols' [98; 97; 122] 3 = Some i.
Proof.
  destruct (wrenSymbolTableEnsure_then_Find Examples.twoSymbols [98; 97; 122] 3)
    as (symbols' & i & symbol & Hensure & _ & _ & _ & Hfind & _);
    [twoSymbols_wf | reflexivity | split; [discriminate | reflexivity]
    | cbn; lia |].
  exists symbols', i. split; [exact Hensure | exact Hfind].
Defined.

Lemma wrenSymbolTableEnsure_keeps_indices_witness :
  exists symbols' i,
    wrenSymbolTableEnsure Examples.twoSymbols [98; 97; 122] 3
    = Some (symbols', i)
    /\ wrenSymbolTableFind symbols' Examples.bar 3 = Some 1.
Proof.
  destruct (wrenSymbolTableEnsure_keeps_indices Examples.twoSymbols
              [98; 97; 122] 3)
    as (symbols' & i & Hensure & Hkept);
    [twoSymbols_wf | reflexivity | split; [discriminate | reflexivity]
    | cbn; lia |].
  exists symbols', i. split; [exact Hensure|].
  apply Hkept; [reflexivity | discriminate].
Defined.

Lemma ensureAll_distinct_witness :
  exists symbols,
    ensureAll wrenSymbolTableInit [Examples.foo; Examples.bar; Examples.foo]
    = Some symbols
    /\ wrenSymbolTableFind symbols Examples.bar 3 = Some 1.
Proof.
  destruct (ensureAll_distinct [Examples.foo; Examples.bar; Examples.foo])
    as (symbols & Hall & _ & _); [reflexivity | repeat constructor |].
  exists symbols. split; [exact Hall|].
  vm_compute in Hall. injection Hall as <-. reflexivity.
Defined.

Lemma wrenSymbolTableAdd_then_Find_witness :
  exists symbols',
    wrenSymbolTableAdd Examples.twoSymbols Examples.bar 3 = (symbols', 2)
    /\ wrenSymbolTableFind symbols' Examples.bar 3 = Some 1.
Proof.
  destruct (wrenSymbolTableAdd_then_Find Examples.twoSymbols Examples.bar 3)
    as (symbols' & before & after & Hadd & _ & Hbefore & Hafter & _ & Hold);
    [twoSymbols_wf | reflexivity | split; [discriminate | reflexivity]
    | cbn; lia |].
  exists symbols'. split; [exact Hadd|].
  injection Hbefore as <-. destruct Hold as [-> _]; [discriminate|].
  exact Hafter.
Defined.

End SymbolFacts.


(** ** Equality of values and their hashes *)

Module EqualityFacts.
Import Value Equality.

Lemma double_eq_sym (a b : Z) : double_eq a b = double_eq b a.
Proof.
  unfold double_eq. rewrite (Z.eqb_sym a b).
  destruct (double_is_nan a), (double_is_nan b), (b =? a), (double_is_zero a),
    (double_is_zero b); reflexivity.
Qed.

Lemma double_eq_true (a b : Z) :
  double_eq a b = true <->
  double_is_nan a = false /\ double_is_nan b = false
  /\ (a = b \/ (double_is_zero a = true /\ double_is_zero b = true)).
Proof.
  unfold double_eq.
  rewrite !andb_true_iff, orb_true_iff, andb_true_iff, !negb_true_iff, Z.eqb_eq.
  tauto.
Qed.

Lemma double_eq_trans (a b c : Z) :
  double_eq a b = true -> double_eq b c = true -> double_eq a c = true.
Proof.
  rewrite !double_eq_true.
  intros (Ha & Hb & [-> | [Hza Hzb]]) (_ & Hc & [-> | [Hzb' Hzc]]); auto.
Qed.

Lemma ObjType_eqb_eq (a b : ObjType) : ObjType_eqb a b = true <-> a = b.
Proof. destruct a, b; cbn; split; (reflexivity || discriminate). Qed.

Lemma memcmp_eq_sym (a b : list Z) (n : Z) : memcmp_eq a b n = memcmp_eq b a n.
Proof. unfold memcmp_eq. apply bool_decide_ext. split; intros ->; reflexivity. Qed.

(** What [objectsEqual] says when it holds. *)
Lemma objectsEqual_true (x y : Obj) :
  objectsEqual x y = true <->
  (exists aFrom aTo bFrom bTo incl,
      x = ObjRange aFrom aTo incl /\ y = ObjRange bFrom bTo incl
      /\ double_eq aFrom bFrom = true /\ double_eq aTo bTo = true)
  \/ (exists s t,
        x = ObjStr s /\ y = ObjStr t
        /\ string_length s = string_length t
        /\ string_hash s = string_hash t
        /\ take (Z.to_nat (string_length s)) (string_value s)
           = take (Z.to_nat (string_length s)) (string_value t)).
Proof.
  split.
  - unfold objectsEqual.
    destruct (ObjType_eqb (obj_type x) (obj_type y)); cbn [negb]; [|discriminate].
    destruct x as [| |aFrom aTo aIncl|s|], y as [| |bFrom bTo bIncl|t|];
      try discriminate.
    + rewrite !andb_true_iff. intros [[Hfrom Hto] Hincl].
      apply Bool.eqb_prop in Hincl as ->. left. eauto 10.
    + rewrite !andb_true_iff, !Z.eqb_eq. unfold memcmp_eq.
      rewrite bool_decide_eq_true. intros [[Hlen Hhash] Hbytes]. right. eauto 10.
  - intros [(aFrom & aTo & bFrom & bTo & incl & -> & -> & Hfrom & Hto)
           | (s & t & -> & -> & Hlen & Hhash & Hbytes)]; unfold objectsEqual;
      cbn [obj_type ObjType_eqb negb].
    + now rewrite Hfrom, Hto, Bool.eqb_reflx.
    + rewrite !andb_true_iff, !Z.eqb_eq. unfold memcmp_eq.
      now rewrite bool_decide_eq_true.
Qed.

Lemma objectsEqual_sym (x y : Obj) : objectsEqual x y = true -> objectsEqual y x = true.
Proof.
  rewrite !objectsEqual_true.
  intros [(aFrom & aTo & bFrom & bTo & incl & -> & -> & Hfrom & Hto)
         | (s & t & -> & -> & Hlen & Hhash & Hbytes)].
  - left. exists bFrom, bTo, aFrom, aTo, incl.
    rewrite (double_eq_sym bFrom), (double_eq_sym bTo). auto.
  - right. exists t, s. rewrite <- Hlen. auto.
Qed.

Lemma objectsEqual_trans (x y z : Obj) :
  objectsEqual x y = true -> objectsEqual y z = true -> objectsEqual x z = true.
Proof.
  rewrite !objectsEqual_true.
  intros [(aFrom & aTo & bFrom & bTo & incl & -> & -> & Hfrom & Hto)
         | (s & t & -> & -> & Hlen & Hhash & Hbytes)]
         [(bFrom' & bTo' & cFrom & cTo & incl' & Hy & -> & Hfrom' & Hto')
         | (t' & u & Hy & -> & Hlen' & Hhash' & Hbytes')];
    try discriminate Hy.
  - injection Hy as <- <- <-. left. exists aFrom, aTo, cFrom, cTo, incl.
    split; [reflexivity|]. split; [reflexivity|].
    split; eapply double_eq_trans; eassumption.
  - injection Hy as <-. right. exists s, u.
    rewrite <- Hlen in Hbytes'. split; [reflexivity|]. split; [reflexivity|].
    split; [congruence|]. split; congruence.
Qed.

#[export] Instance NanTaggingSameOk : ValuesSameOk NanValue.
Proof.
  split; cbn.
  - intros a b. apply Z.eqb_sym.
  - intros a b c Hab Hbc. apply Z.eqb_eq in Hab, Hbc. subst. apply Z.eqb_refl.
  - intros a b Hab Ha. apply Z.eqb_eq in Hab. subst. auto.
Qed.

#[export] Instance TaggedUnionSameOk : ValuesSameOk UnionValue.
Proof.
  split.
  - intros [] []; cbn; try reflexivity; [apply double_eq_sym | apply Z.eqb_sym].
  - intros [] [] []; cbn; try discriminate; try reflexivity.
    + apply double_eq_trans.
    + intros Hab Hbc. apply Z.eqb_eq in Hab, Hbc. subst. apply Z.eqb_refl.
  - intros [] []; cbn; try discriminate. intros Hab _.
    apply Z.eqb_eq in Hab. auto.
Qed.

#[export] Instance NanTaggingHashOk : HashOk NanValue.
Proof.
  split; cbn.
  - intros heap a b Hab _. apply Z.eqb_eq in Hab. now subst.
  - intros heap a Ha. unfold nan_hashValue. now rewrite Ha.
Qed.

#[export] Instance TaggedUnionHashOk : HashOk UnionValue.
Proof.
  split.
  - intros heap [] []; cbn; try discriminate; try reflexivity.
    + intros Hab Hzero. apply double_eq_true in Hab as (_ & _ & [-> | [Hz _]]);
        [reflexivity|]. rewrite Hzero in Hz by reflexivity. discriminate.
    + intros Hab _. apply Z.eqb_eq in Hab. now subst.
  - intros heap []; cbn; try discriminate. reflexivity.
Qed.

(** Objects of equal contents hash alike when no bound of a range is a
    zero. *)
Lemma objectsEqual_hash (x y : Obj) :
  objectsEqual x y = true -> noZeroBound x -> hashObject x = hashObject y.
Proof.
  intros Hxy Hzero.
  apply objectsEqual_true in Hxy
    as [(aFrom & aTo & bFrom & bTo & incl & -> & -> & Hfrom & Hto)
       | (s & t & -> & -> & Hlen & Hhash & Hbytes)]; cbn [hashObject].
  - destruct Hzero as [HzFrom HzTo].
    apply double_eq_true in Hfrom as (_ & _ & [-> | [Hz _]]);
      [|rewrite HzFrom in Hz; discriminate].
    apply double_eq_true in Hto as (_ & _ & [-> | [Hz _]]);
      [|rewrite HzTo in Hz; discriminate].
    reflexivity.
  - exact Hhash.
Qed.

(** The hashes of the two zeros differ in bit 31. *)
Lemma lxor_cancel_r (a b h : Z) : Z.lxor a h = Z.lxor b h -> a = b.
Proof.
  intros Heq.
  rewrite <- (Z.lxor_0_r a), <- (Z.lxor_0_r b), <- (Z.lxor_nilpotent h).
  rewrite <- !Z.lxor_assoc, Heq. reflexivity.
Qed.

Section Laws.
Context {Value : Type} `{ValueRep Value}.
Variable heap : ObjPtr -> Obj.

(** [wrenValuesEqual] is [wrenValuesSame], or two objects of equal
    contents. *)
Lemma wrenValuesEqual_cases (a b : Value) :
  wrenValuesEqual heap a b
  = wrenValuesSame a b
    || (IS_OBJ a && IS_OBJ b && objectsEqual (heap (AS_OBJ a)) (heap (AS_OBJ b))).
Proof.
  unfold wrenValuesEqual.
  destruct (wrenValuesSame a b), (IS_OBJ a), (IS_OBJ b); reflexivity.
Qed.

(** X8. Values that [wrenValuesEqual] calls equal have the same
    [hashValue], as a map needs of its keys, when the first is neither a
    number that is a zero nor a range with a zero as a bound. *)
Theorem equal_values_hash_alike `{!ValuesSameOk Value} `{!HashOk Value}
    (a b : Value) :
  wrenValuesEqual heap a b = true ->
  (IS_NUM a = true -> double_is_zero (AS_NUM a) = false) ->
  (IS_OBJ a = true -> noZeroBound (heap (AS_OBJ a))) ->
  hashValue heap a = hashValue heap b.
Proof.
  intros Hequal Hnum Hrange. rewrite wrenValuesEqual_cases in Hequal.
  destruct (wrenValuesSame a b) eqn:Hsame.
  - apply same_hash; assumption.
  - cbn [orb] in Hequal. apply andb_true_iff in Hequal as [Hobjs Hequal].
    apply andb_true_iff in Hobjs as [Ha Hb].
    rewrite !obj_hash by assumption.
    apply objectsEqual_hash; [exact Hequal | exact (Hrange Ha)].
Qed.

(** X9. Two ranges that differ only in the sign of a zero lower bound are
    equal to [wrenValuesEqual], yet their [hashValue]s differ: as keys of a
    map they are equal keys with different hashes. *)
Theorem equal_ranges_hash_apart `{!HashOk Value} (a b : Value) (to : Z)
    (isInclusive : bool) :
  IS_OBJ a = true -> IS_OBJ b = true ->
  heap (AS_OBJ a) = ObjRange 0 to isInclusive ->
  heap (AS_OBJ b) = ObjRange SIGN_BIT to isInclusive ->
  double_is_nan to = false ->
  wrenValuesEqual heap a b = true /\ hashValue heap a <> hashValue heap b.
Proof.
  intros Ha Hb Hfirst Hsecond Hto. split.
  - rewrite wrenValuesEqual_cases, Ha, Hb, Hfirst, Hsecond.
    apply orb_true_iff. right. apply objectsEqual_true. left.
    exists 0, to, SIGN_BIT, to, isInclusive.
    split; [reflexivity|]. split; [reflexivity|]. split; [reflexivity|].
    apply double_eq_true. auto.
  - rewrite !obj_hash, Hfirst, Hsecond by assumption. cbn [hashObject].
    intros Heq. apply lxor_cancel_r in Heq. discriminate Heq.
Qed.

(** X10. [wrenValuesEqual] is symmetric and transitive, whichever encoding
    of values is compiled in. *)
Theorem wrenValuesEqual_symmetric_transitive `{!ValuesSameOk Value} :
  (forall a b : Value, wrenValuesEqual heap a b = wrenValuesEqual heap b a)
  /\ (forall a b c : Value,
        wrenValuesEqual heap a b = true -> wrenValuesEqual heap b c = true ->
        wrenValuesEqual heap a c = true).
Proof.
  assert (Hsym : forall a b : Value,
            wrenValuesEqual heap a b = true -> wrenValuesEqual heap b a = true).
  { intros a b. rewrite !wrenValuesEqual_cases, (same_sym b a).
    destruct (wrenValuesSame a b); [reflexivity|]. cbn [orb].
    rewrite !andb_true_iff. intros [[Ha Hb] Hab].
    auto using objectsEqual_sym. }
  split.
  - intros a b. destruct (wrenValuesEqual heap a b) eqn:Hab.
    + symmetry. now apply Hsym.
    + destruct (wrenValuesEqual heap b a) eqn:Hba; [|reflexivity].
      apply Hsym in Hba. congruence.
  - intros a b c. rewrite !wrenValuesEqual_cases.
    destruct (wrenValuesSame a b) eqn:Hab, (wrenValuesSame b c) eqn:Hbc;
      cbn [orb]; rewrite ?andb_true_iff.
    + intros _ _. now rewrite (same_trans a b c).
    + intros _ [[Hb Hc] Hequal]. apply orb_true_iff. right.
      rewrite (same_sym a b) in Hab.
      destruct (same_obj b a Hab Hb) as [Ha Hptr].
      rewrite Ha, Hc, <- Hptr. exact Hequal.
    + intros [[Ha Hb] Hequal] _. apply orb_true_iff. right.
      destruct (same_obj b c Hbc Hb) as [Hc Hptr].
      rewrite Ha, Hc, <- Hptr. exact Hequal.
    + intros [[Ha Hb] Hequal] [[_ Hc] Hequal']. apply orb_true_iff. right.
      rewrite Ha, Hc. eapply objectsEqual_trans; eassumption.
Qed.

End Laws.

Lemma equal_values_hash_alike_witness :
  hashValue Examples.twoRanges (OBJ_VAL (Value := NanValue) 24)
  = hashValue Examples.twoRanges (OBJ_VAL (Value := NanValue) 32).
Proof.
  apply (equal_values_hash_alike (Value := NanValue) Examples.twoRanges);
    [reflexivity | discriminate | intros _; exact I].
Defined.

Lemma equal_ranges_hash_apart_witness :
  wrenValuesEqual Examples.twoRanges (OBJ_VAL (Value := NanValue) 8)
    (OBJ_VAL (Value := NanValue) 16) = true
  /\ hashValue Examples.twoRanges (OBJ_VAL (Value := NanValue) 8)
     <> hashValue Examples.twoRanges (OBJ_VAL (Value := NanValue) 16).
Proof.
  apply (equal_ranges_hash_apart (Value := NanValue) Examples.twoRanges _ _
           0x3ff0000000000000 true); reflexivity.
Defined.

Lemma wrenValuesEqual_symmetric_transitive_witness :
  wrenValuesEqual Examples.twoRanges (OBJ_VAL (Value := NanValue) 16)
    (OBJ_VAL (Value := NanValue) 8) = true.
Proof.
  destruct (wrenValuesEqual_symmetric_transitive (Value := NanValue)
              Examples.twoRanges) as [Hsym _].
  rewrite Hsym. reflexivity.
Defined.

End EqualityFacts.


(** ** Strings: creation, hashing and code points *)

Module StringFacts.
Import Value Utf8 Strings Equality EqualityFacts.

Section StringFacts.
Variable charSigned : bool.

(** How [wrenStringCodePointAt] classifies a byte, whether [char] is signed
    or not. *)
Lemma sequenceBytes_byte (byte : Z) :
  0 <= byte < 256 ->
  sequenceBytes (charOf charSigned byte)
  = if byte <? 0x80 then 1 else if byte <? 0xc0 then 0
    else if byte <? 0xe0 then 2 else if byte <? 0xf0 then 3
    else if byte <? 0xf8 then 4 else 1.
Proof.
  intros Hbyte.
  assert (Hall : forallb
            (fun b => sequenceBytes (charOf charSigned b)
                      =? (if b <? 0x80 then 1 else if b <? 0xc0 then 0
                          else if b <? 0xe0 then 2 else if b <? 0xf0 then 3
                          else if b <? 0xf8 then 4 else 1))
            (map Z.of_nat (seq 0 256)) = true)
    by (destruct charSigned; vm_compute; reflexivity).
  rewrite forallb_forall in Hall. apply Z.eqb_eq, Hall.
  rewrite <- (Z2Nat.id byte) by lia. apply in_map, in_seq. lia.
Qed.

Lemma hashLoop_ext (n : nat) :
  forall (value value' : list Z) (i : nat) (hash : Z),
    (forall k : nat, (i <= k < i + n)%nat -> value !! k = value' !! k) ->
    hashLoop charSigned n value i hash = hashLoop charSigned n value' i hash.
Proof.
  induction n as [|n IH]; intros value value' i hash Hsame; [reflexivity|].
  cbn [hashLoop]. rewrite <- (Hsame i) by lia.
  destruct (value !! i); [|reflexivity].
  apply IH. intros k Hk. apply Hsame. lia.
Qed.

Lemma hashLoop_in_bounds (n : nat) :
  forall (value : list Z) (i : nat) (hash : Z),
    (i + n <= List.length value)%nat ->
    0 <= hash < 2 ^ 32 ->
    exists result,
      hashLoop charSigned n value i hash = Some result /\ 0 <= result < 2 ^ 32.
Proof.
  induction n as [|n IH]; intros value i hash Hlen Hhash.
  - exists hash. split; [reflexivity | exact Hhash].
  - cbn [hashLoop].
    destruct (lookup_lt_is_Some_2 value i) as [byte ->]; [lia|].
    apply IH; [lia|]. unfold uint32. apply Z.mod_pos_bound. lia.
Qed.

(** [wrenNewString] copies [length] bytes and hashes them. *)
Lemma wrenNewString_spec (text : list Z) (len : Z) :
  0 <= len < 2 ^ 31 ->
  len <= Z.of_nat (List.length text) ->
  exists hash,
    hashLoop charSigned (Z.to_nat len) (take (Z.to_nat len) text ++ [0]) O
      2166136261 = Some hash
    /\ 0 <= hash < 2 ^ 32
    /\ wrenNewString charSigned text len
       = Some {| string_length := len; string_hash := hash;
                 string_value := take (Z.to_nat len) text |}.
Proof.
  intros Hlen Htext.
  assert (Hint : Classes.int32 len = len)
    by (apply ClassFacts.int32_small; change (2 ^ 31) with 2147483648 in *; lia).
  assert (Htake : List.length (take (Z.to_nat len) text) = Z.to_nat len)
    by (rewrite length_take; lia).
  destruct (hashLoop_in_bounds (Z.to_nat len) (take (Z.to_nat len) text ++ [0])
              O 2166136261) as (hash & Hhash & Hrange).
  { rewrite length_app, Htake. cbn. lia. }
  { split; [discriminate | reflexivity]. }
  exists hash. split; [exact Hhash|]. split; [exact Hrange|].
  assert (Hstored :
    (if len >? 0 then memcpy text len (allocateString len)
     else Some (allocateString len))
    = Some {| string_length := len; string_hash := 0;
              string_value := take (Z.to_nat len) text |}).
  { unfold allocateString. rewrite Hint.
    destruct (Z.gtb_spec len 0) as [Hpos|Hzero].
    - unfold memcpy.
      destruct (Nat.ltb_spec (List.length text) (Z.to_nat len)); [lia|].
      unfold storeBytes, bufferOf. cbn [string_value string_length string_hash].
      rewrite length_app, length_replicate, Htake.
      destruct (Nat.ltb_spec (Z.to_nat len + List.length [0]) (Z.to_nat len));
        [cbn in *; lia|].
      do 2 f_equal. apply take_app_length'. now rewrite Htake.
    - replace len with 0 by lia. reflexivity. }
  unfold wrenNewString. rewrite Hstored. cbn [mbind option_bind].
  unfold hashString, bufferOf. cbn [string_value string_length string_hash].
  rewrite uint32_small
    by (change (2 ^ 31) with 2147483648 in *; change (2 ^ 32) with 4294967296; lia).
  rewrite Hhash. reflexivity.
Qed.

(** [wrenNewString] reads outside the text when the text is shorter than
    [length]. *)
Lemma wrenNewString_short (text : list Z) (len : Z) :
  Z.of_nat (List.length text) < len ->
  wrenNewString charSigned text len = None.
Proof.
  intros Hshort. unfold wrenNewString, memcpy.
  destruct (Z.gtb_spec len 0); [|lia].
  destruct (Nat.ltb_spec (List.length text) (Z.to_nat len)); [reflexivity | lia].
Qed.

Ltac class_of_lead :=
  repeat match goal with
         | |- context [?a <? ?b] => destruct (Z.ltb_spec a b); try lia
         end;
  try reflexivity.

(** The lead byte of an encoded code point tells the length of the
    encoding. *)
Lemma encode_lead (c : Z) :
  0 <= c <= 0x10ffff ->
  exists lead rest,
    wrenUtf8Encode c = lead :: rest
    /\ 0 <= lead < 256
    /\ Z.of_nat (List.length (lead :: rest)) = wrenUtf8NumBytes c
    /\ (if lead <? 0x80 then 1 else if lead <? 0xc0 then 0
        else if lead <? 0xe0 then 2 else if lead <? 0xf0 then 3
        else if lead <? 0xf8 then 4 else 1) = wrenUtf8NumBytes c.
Proof.
  intros Hc. unfold wrenUtf8NumBytes.
  destruct (Z.leb_spec c 0x7f) as [H1|H1].
  { rewrite Utf8Facts.encode_1 by lia. exists c, []. split; [reflexivity|].
    split; [lia|]. split; [reflexivity|].
    destruct (Z.ltb_spec c 0x80); [reflexivity | lia]. }
  destruct (Z.leb_spec c 0x7ff) as [H2|H2].
  { rewrite Utf8Facts.encode_2 by lia.
    assert (Hh : 0 <= c / 64 < 2 ^ 5)
      by (split; [apply Z.div_pos | apply Z.div_lt_upper_bound]; lia).
    rewrite (lor_disjoint_add 0xc0 (c / 64) 5) by (reflexivity || lia).
    change (2 ^ 5) with 32 in Hh.
    eexists _, _. split; [reflexivity|]. split; [lia|]. split; [reflexivity|].
    class_of_lead. }
  destruct (Z.leb_spec c 0xffff) as [H3|H3].
  { rewrite Utf8Facts.encode_3 by lia.
    assert (Hh : 0 <= c / 64 / 64 < 2 ^ 4).
    { rewrite Z.div_div by lia.
      split; [apply Z.div_pos | apply Z.div_lt_upper_bound]; lia. }
    rewrite (lor_disjoint_add 0xe0 (c / 64 / 64) 4) by (reflexivity || lia).
    change (2 ^ 4) with 16 in Hh.
    eexists _, _. split; [reflexivity|]. split; [lia|]. split; [reflexivity|].
    class_of_lead. }
  destruct (Z.leb_spec c 0x10ffff) as [H4|H4]; [|lia].
  rewrite Utf8Facts.encode_4 by lia.
  assert (Hh : 0 <= c / 64 / 64 / 64 < 2 ^ 3).
  { rewrite !Z.div_div by lia.
    split; [apply Z.div_pos | apply Z.div_lt_upper_bound]; lia. }
  rewrite (lor_disjoint_add 0xf0 (c / 64 / 64 / 64) 3) by (reflexivity || lia).
  change (2 ^ 3) with 8 in Hh.
  eexists _, _. split; [reflexivity|]. split; [lia|]. split; [reflexivity|].
  class_of_lead.
Qed.

(** [wrenStringFromCodePoint] makes the string of the encoded bytes. *)
Lemma wrenStringFromCodePoint_spec (c : Z) :
  0 <= c <= 0x10ffff ->
  wrenStringFromCodePoint charSigned c
  = wrenNewString charSigned (wrenUtf8Encode c) (wrenUtf8NumBytes c).
Proof.
  intros Hc.
  destruct (encode_lead c Hc) as (lead & rest & Hencode & _ & Hlen & _).
  assert (Hn : 0 < wrenUtf8NumBytes c <= 4).
  { unfold wrenUtf8NumBytes.
    repeat match goal with
           | |- context [?a <=? ?b] => destruct (Z.leb_spec a b)
           end; lia. }
  unfold wrenStringFromCodePoint, wrenNewString, memcpy.
  rewrite <- Hencode in Hlen.
  destruct (Z.gtb_spec (wrenUtf8NumBytes c) 0); [|lia].
  destruct (Nat.ltb_spec (List.length (wrenUtf8Encode c))
              (Z.to_nat (wrenUtf8NumBytes c))); [lia|].
  rewrite take_ge by lia. reflexivity.
Qed.

Lemma sequenceBytes_range (first : Z) : 0 <= sequenceBytes first <= 4.
Proof. unfold sequenceBytes. repeat (destruct (_ =? _)); lia. Qed.

(** X12. Where a string holds the UTF-8 encoding of a code point,
    [wrenStringCodePointAt] at the first byte of the encoding returns the
    string that [wrenStringFromCodePoint] makes of the code point: its bytes
    are the encoding and its length is [wrenUtf8NumBytes]. *)
Theorem wrenStringCodePointAt_of_encoded (string : ObjString)
    (pre post : list Z) (c : Z) :
  0 <= c <= 0x10ffff ->
  string_value string = pre ++ wrenUtf8Encode c ++ post ->
  exists codePoint,
    wrenStringFromCodePoint charSigned c = Some codePoint
    /\ wrenStringCodePointAt charSigned string (Z.of_nat (List.length pre))
       = Some codePoint
    /\ string_value codePoint = wrenUtf8Encode c
    /\ string_length codePoint = wrenUtf8NumBytes c.
Proof.
  intros Hc Hvalue.
  destruct (encode_lead c Hc) as (lead & rest & Hencode & Hlead & Hlen & Hclass).
  rewrite <- Hencode in Hlen.
  assert (Hn : 0 <= wrenUtf8NumBytes c < 2 ^ 31).
  { rewrite <- Hlen. split; [lia|]. rewrite Hencode in Hlen |- *.
    pose proof (sequenceBytes_range (charOf charSigned lead)) as Hrange.
    rewrite sequenceBytes_byte, Hclass, <- Hlen in Hrange by exact Hlead.
    change (2 ^ 31) with 2147483648. lia. }
  assert (Hsize : Z.to_nat (wrenUtf8NumBytes c) = List.length (wrenUtf8Encode c))
    by lia.
  destruct (wrenNewString_spec (wrenUtf8Encode c) (wrenUtf8NumBytes c) Hn)
    as (hash & Hhash & _ & Hnew); [lia|].
  rewrite Hsize, firstn_all in Hhash, Hnew.
  eexists. split; [rewrite wrenStringFromCodePoint_spec by exact Hc; exact Hnew|].
  split; [|split; reflexivity].
  unfold wrenStringCodePointAt, bufferOf. rewrite Hvalue, Nat2Z.id.
  rewrite <- !app_assoc, Hencode. cbn [app].
  rewrite list_lookup_middle by reflexivity. cbn [mbind option_bind].
  rewrite sequenceBytes_byte, Hclass by exact Hlead.
  rewrite drop_app_length.
  change (lead :: rest ++ post ++ [0]) with ((lead :: rest) ++ post ++ [0]).
  rewrite <- Hencode.
  destruct (wrenNewString_spec (wrenUtf8Encode c ++ post ++ [0])
              (wrenUtf8NumBytes c) Hn) as (hash' & Hhash' & _ & Hnew');
    [rewrite length_app; lia|].
  rewrite Hsize, take_app_length in Hhash', Hnew'.
  rewrite Hnew'. congruence.
Qed.

(** X13. [wrenStringCodePointAt] copies as many bytes as the byte at the
    index announces, without looking at the length of the string: the copy
    reads outside the array of the string exactly when the announced
    sequence goes beyond the terminator. *)
Theorem wrenStringCodePointAt_past_end (string : ObjString) (index : Z) :
  stringWf string ->
  0 <= index < string_length string ->
  exists first,
    string_value string !! Z.to_nat index = Some first
    /\ (wrenStringCodePointAt charSigned string index = None
        <-> string_length string + 1
            < index + sequenceBytes (charOf charSigned first)).
Proof.
  intros [Hlength Hint] Hindex.
  destruct (lookup_lt_is_Some_2 (string_value string) (Z.to_nat index))
    as [first Hfirst]; [lia|].
  exists first. split; [exact Hfirst|].
  unfold wrenStringCodePointAt, bufferOf.
  rewrite lookup_app_l, Hfirst by lia. cbn [mbind option_bind].
  pose proof (sequenceBytes_range (charOf charSigned first)) as Hrange.
  set (numBytes := sequenceBytes (charOf charSigned first)) in *.
  assert (Hrest : Z.of_nat (List.length (drop (Z.to_nat index)
                                           (string_value string ++ [0])))
                  = string_length string + 1 - index).
  { rewrite length_drop, length_app. cbn [List.length]. lia. }
  destruct (Z_lt_le_dec (string_length string + 1) (index + numBytes))
    as [Hpast|Hwithin].
  - split; [intros _; exact Hpast|]. intros _.
    apply wrenNewString_short. lia.
  - destruct (wrenNewString_spec
                (drop (Z.to_nat index) (string_value string ++ [0])) numBytes)
      as (hash & _ & _ & ->); [change (2 ^ 31) with 2147483648; lia | lia |].
    split; [discriminate | lia].
Qed.

End StringFacts.

Section NewStrings.
Context {Value : Type} `{ValueRep Value} `{!ValuesSameOk Value}.
Variable charSigned : bool.
Variable heap : ObjPtr -> Obj.

(** X11. Two strings made by [wrenNewString] are equal to
    [wrenValuesEqual] exactly when they were made from the same number of
    the same bytes, whether they are one object or two: the stored hashes
    never part equal strings. *)
Theorem wrenNewString_equal_iff (text1 text2 : list Z) (len1 len2 : Z)
    (a b : Value) :
  0 <= len1 < 2 ^ 31 -> len1 <= Z.of_nat (List.length text1) ->
  0 <= len2 < 2 ^ 31 -> len2 <= Z.of_nat (List.length text2) ->
  IS_OBJ a = true -> IS_OBJ b = true ->
  exists string1 string2,
    wrenNewString charSigned text1 len1 = Some string1
    /\ wrenNewString charSigned text2 len2 = Some string2
    /\ (heap (AS_OBJ a) = ObjStr string1 ->
        heap (AS_OBJ b) = ObjStr string2 ->
        (wrenValuesEqual heap a b = true
         <-> len1 = len2
             /\ take (Z.to_nat len1) text1 = take (Z.to_nat len2) text2)).
Proof.
  intros Hlen1 Htext1 Hlen2 Htext2 Ha Hb.
  destruct (wrenNewString_spec charSigned text1 len1 Hlen1 Htext1)
    as (hash1 & Hhash1 & _ & Hnew1).
  destruct (wrenNewString_spec charSigned text2 len2 Hlen2 Htext2)
    as (hash2 & Hhash2 & _ & Hnew2).
  eexists _, _. split; [exact Hnew1|]. split; [exact Hnew2|].
  intros Hfirst Hsecond.
  rewrite EqualityFacts.wrenValuesEqual_cases, Ha, Hb, Hfirst, Hsecond.
  cbn [andb]. rewrite orb_true_iff, EqualityFacts.objectsEqual_true. split.
  - intros [Hsame | [(? & ? & ? & ? & ? & Hrange & _)
                    | (s & t & Hs & Ht & Hlen & _ & Hbytes)]].
    + destruct (same_obj a b Hsame Ha) as [_ Hptr].
      rewrite Hptr, Hsecond in Hfirst. injection Hfirst as <- _ Hvalue.
      split; [reflexivity | now symmetry].
    + discriminate Hrange.
    + injection Hs as <-. injection Ht as <-.
      cbn [string_length string_value] in Hlen, Hbytes. subst len2.
      rewrite !take_idemp in Hbytes. split; [reflexivity | exact Hbytes].
  - intros [<- Hbytes]. right. right. rewrite <- Hbytes in Hhash2 |- *.
    assert (hash1 = hash2) as <- by congruence.
    eexists _, _. split; [reflexivity|]. split; [reflexivity|].
    split; [reflexivity|]. split; reflexivity.
Qed.

End NewStrings.

Section CharSign.

(** A byte below 0x80 is the same [char] value, signed or not. *)
Lemma hashLoop_char (n : nat) :
  forall (value : list Z) (i : nat) (hash : Z),
    (forall (k : nat) (byte : Z),
       (i <= k < i + n)%nat -> value !! k = Some byte -> 0 <= byte < 128) ->
    hashLoop true n value i hash = hashLoop false n value i hash.
Proof.
  induction n as [|n IH]; intros value i hash Hlow; [reflexivity|].
  cbn [hashLoop]. destruct (value !! i) as [byte|] eqn:Hbyte; [|reflexivity].
  assert (Hchar : charOf true byte = charOf false byte).
  { pose proof (Hlow i byte ltac:(lia) Hbyte). unfold charOf. cbn [andb].
    destruct (Z.leb_spec 128 byte); [lia | reflexivity]. }
  rewrite Hchar. apply IH. intros k other Hk. apply Hlow. lia.
Qed.

(** The loop of [hashString] over two stretches of the array. *)
Lemma hashLoop_add (charSigned : bool) (n m : nat) :
  forall (value : list Z) (i : nat) (hash : Z),
    hashLoop charSigned (n + m) value i hash
    = (hash' ← hashLoop charSigned n value i hash;
       hashLoop charSigned m value (i + n) hash').
Proof.
  induction n as [|n IH]; intros value i hash.
  - cbn. now rewrite Nat.add_0_r.
  - cbn [Nat.add hashLoop]. destruct (value !! i); [|reflexivity].
    rewrite IH. now replace (S i + n)%nat with (i + S n)%nat by lia.
Qed.

(** Multiplying by the prime of the hash loses nothing: the prime is odd. *)
Lemma prime_inj (x y : Z) :
  0 <= x < 2 ^ 32 -> 0 <= y < 2 ^ 32 ->
  uint32 (x * 16777619) = uint32 (y * 16777619) -> x = y.
Proof.
  intros Hx Hy Heq.
  assert (Hback : forall z, 0 <= z < 2 ^ 32 ->
                    uint32 (uint32 (z * 16777619) * 899433627) = z).
  { intros z Hz. unfold uint32. rewrite Z.mul_mod_idemp_l by discriminate.
    rewrite <- Z.mul_assoc, <- Z.mul_mod_idemp_r by discriminate.
    change ((16777619 * 899433627) mod 2 ^ 32) with 1.
    rewrite Z.mul_1_r. apply Z.mod_small, Hz. }
  rewrite <- (Hback x Hx), <- (Hback y Hy), Heq. reflexivity.
Qed.

(** One round of the loop keeps two hashes apart. *)
Lemma round_inj (c h h' : Z) :
  0 <= c < 2 ^ 32 -> 0 <= h < 2 ^ 32 -> 0 <= h' < 2 ^ 32 ->
  uint32 (Z.lxor h c * 16777619) = uint32 (Z.lxor h' c * 16777619) -> h = h'.
Proof.
  intros Hc Hh Hh' Heq. apply (lxor_cancel_r h h' c).
  apply prime_inj;
    [apply ValueFacts.lxor_below_pow2; (lia || assumption) .. | exact Heq].
Qed.

Lemma hashLoop_inj (charSigned : bool) (n : nat) :
  forall (value : list Z) (i : nat) (h h' : Z),
    0 <= h < 2 ^ 32 -> 0 <= h' < 2 ^ 32 ->
    is_Some (hashLoop charSigned n value i h) ->
    hashLoop charSigned n value i h = hashLoop charSigned n value i h' ->
    h = h'.
Proof.
  induction n as [|n IH]; intros value i h h' Hh Hh'; cbn [hashLoop].
  - intros _ [= ->]. reflexivity.
  - destruct (value !! i) as [byte|]; [|intros [? [=]]].
    intros Hsome Heq.
    assert (Hc : 0 <= uint32 (charOf charSigned byte) < 2 ^ 32)
      by (apply Z.mod_pos_bound; reflexivity).
    apply (round_inj (uint32 (charOf charSigned byte)) h h' Hc Hh Hh').
    apply (IH value (S i)); [apply Z.mod_pos_bound; reflexivity ..| |];
      assumption.
Qed.

(** X29. Whether [char] is signed shows in the hash of a string only
    through bytes from 0x80 on: [wrenNewString] makes the same string, hash
    included, of bytes that are all below 0x80, and strings of different
    hashes when exactly one of the bytes is 0x80 or more. *)
Theorem hashString_char_sign (text : list Z) (len : Z) :
  0 <= len < 2 ^ 31 ->
  len <= Z.of_nat (List.length text) ->
  exists signed unsigned,
    wrenNewString true text len = Some signed
    /\ wrenNewString false text len = Some unsigned
    /\ string_value signed = string_value unsigned
    /\ ((forall byte, byte ∈ take (Z.to_nat len) text -> 0 <= byte < 128) ->
        signed = unsigned)
    /\ (forall (front back : list Z) (byte : Z),
          take (Z.to_nat len) text = front ++ byte :: back ->
          128 <= byte < 256 ->
          (forall other, other ∈ front ++ back -> 0 <= other < 128) ->
          string_hash signed <> string_hash unsigned).
Proof.
  intros Hlen Htext.
  destruct (wrenNewString_spec true text len Hlen Htext)
    as (hashS & HhashS & HrangeS & ->).
  destruct (wrenNewString_spec false text len Hlen Htext)
    as (hashU & HhashU & HrangeU & ->).
  eexists _, _. split; [reflexivity|]. split; [reflexivity|].
  split; [reflexivity|].
  assert (Hsize : List.length (take (Z.to_nat len) text) = Z.to_nat len)
    by (rewrite length_take; lia).
  set (bytes := take (Z.to_nat len) text) in *.
  assert (Hstart : 0 <= 2166136261 < 2 ^ 32)
    by (split; [discriminate | reflexivity]).
  split.
  - intros Hlow. f_equal.
    rewrite (hashLoop_char (Z.to_nat len) (bytes ++ [0]) O) in HhashS;
      [congruence|].
    intros k byte Hk Hbyte. apply Hlow.
    rewrite lookup_app_l in Hbyte by lia.
    eapply list_elem_of_lookup_2, Hbyte.
  - intros front back byte Hsplit Hhigh Hlow. cbn [string_hash].
    rewrite Hsplit in *. rewrite length_app in Hsize. cbn [List.length] in Hsize.
    rewrite <- Hsize in HhashS, HhashU.
    rewrite hashLoop_add in HhashS, HhashU.
    rewrite (hashLoop_char (List.length front)) in HhashS.
    2:{ intros k other Hk Hother. apply Hlow.
        rewrite <- app_assoc, lookup_app_l in Hother by lia.
        apply elem_of_app. left. eapply list_elem_of_lookup_2, Hother. }
    destruct (hashLoop_in_bounds false (List.length front)
                ((front ++ byte :: back) ++ [0]) O 2166136261)
      as (h & Hh & Hhrange); [rewrite !length_app; cbn; lia | exact Hstart|].
    rewrite Hh in HhashS, HhashU. cbn [mbind option_bind Nat.add] in HhashS, HhashU.
    cbn [hashLoop] in HhashS, HhashU.
    assert (Hat : ((front ++ byte :: back) ++ [0]) !! List.length front
                  = Some byte).
    { rewrite <- app_assoc. apply list_lookup_middle. reflexivity. }
    rewrite Hat in HhashS, HhashU.
    rewrite (hashLoop_char (List.length back)) in HhashS.
    2:{ intros k other Hk Hother. apply Hlow.
        rewrite <- app_assoc, lookup_app_r in Hother by lia.
        replace (k - List.length front)%nat
          with (S (k - S (List.length front))) in Hother by lia.
        cbn [app] in Hother.
        change ((byte :: ?l) !! S ?j) with (l !! j) in Hother.
        rewrite lookup_app_l in Hother by lia.
        apply elem_of_app. right. eapply list_elem_of_lookup_2, Hother. }
    intros Hsame. subst hashU. pose proof HhashS as Hreturns.
    rewrite <- HhashU in HhashS.
    apply hashLoop_inj in HhashS;
      [| apply Z.mod_pos_bound; reflexivity ..
       | rewrite Hreturns; eexists; reflexivity].
    assert (HcS : uint32 (charOf true byte) = byte + 4294967040).
    { unfold charOf, uint32. cbn [andb].
      destruct (Z.leb_spec 128 byte); [|lia].
      rewrite <- (Z_mod_plus_full (byte - 256) 1 (2 ^ 32)).
      change (2 ^ 32) with 4294967296. rewrite Z.mod_small by lia. lia. }
    assert (HcU : uint32 (charOf false byte) = byte).
    { unfold charOf, uint32. cbn [andb]. change (2 ^ 32) with 4294967296.
      rewrite Z.mod_small by lia. reflexivity. }
    rewrite HcS, HcU in HhashS.
    apply prime_inj in HhashS;
      [| apply ValueFacts.lxor_below_pow2;
         [lia | exact Hhrange | change (2 ^ 32) with 4294967296; lia] ..].
    rewrite (Z.lxor_comm h), (Z.lxor_comm h) in HhashS.
    apply lxor_cancel_r in HhashS. lia.
Qed.

End CharSign.

Lemma wrenNewString_equal_iff_witness :
  exists string1 string2,
    wrenNewString false Examples.foo 3 = Some string1
    /\ wrenNewString false (Examples.foo ++ Examples.bar) 3 = Some string2
    /\ string_hash string1 = string_hash string2.
Proof.
  destruct (wrenNewString_equal_iff (Value := NanValue) false
              Examples.twoRanges Examples.foo (Examples.foo ++ Examples.bar)
              3 3 (OBJ_VAL 24) (OBJ_VAL 32))
    as (string1 & string2 & Hnew1 & Hnew2 & _);
    [split; [discriminate | reflexivity] | cbn; lia
    | split; [discriminate | reflexivity] | cbn; lia
    | reflexivity | reflexivity |].
  exists string1, string2. split; [exact Hnew1|]. split; [exact Hnew2|].
  vm_compute in Hnew1, Hnew2. injection Hnew1 as <-. injection Hnew2 as <-.
  reflexivity.
Defined.

Lemma wrenStringCodePointAt_of_encoded_witness :
  exists codePoint,
    wrenStringCodePointAt true Examples.euroString 1 = Some codePoint
    /\ string_value codePoint = [0xe2; 0x82; 0xac].
Proof.
  destruct (wrenStringCodePointAt_of_encoded true Examples.euroString
              [97] [98] 0x20ac)
    as (codePoint & _ & Hat & Hvalue & _);
    [split; discriminate | reflexivity |].
  exists codePoint. split; [exact Hat|]. rewrite Hvalue. reflexivity.
Defined.

Lemma wrenStringCodePointAt_past_end_witness :
  wrenStringCodePointAt true Examples.cutString 1 = None.
Proof.
  destruct (wrenStringCodePointAt_past_end true Examples.cutString 1)
    as (first & Hfirst & Hpast);
    [split; reflexivity | split; [discriminate | reflexivity] |].
  apply Hpast. injection Hfirst as <-. reflexivity.
Defined.

Lemma hashString_char_sign_witness :
  exists signed unsigned,
    wrenNewString true [97; 0xe9; 98] 3 = Some signed
    /\ wrenNewString false [97; 0xe9; 98] 3 = Some unsigned
    /\ string_hash signed <> string_hash unsigned.
Proof.
  destruct (hashString_char_sign [97; 0xe9; 98] 3)
    as (signed & unsigned & Hsigned & Hunsigned & _ & _ & Hapart);
    [split; [discriminate | reflexivity] | cbn; lia |].
  exists signed, unsigned. split; [exact Hsigned|].
  split; [exact Hunsigned|].
  apply (Hapart [97] [98] 0xe9); [reflexivity | lia |].
  intros other Hother. cbn in Hother.
  apply elem_of_cons in Hother as [-> | Hother]; [lia|].
  apply list_elem_of_singleton in Hother as ->. lia.
Defined.

End StringFacts.


(** ** String formatting *)

Module FormatFacts.
Import Value Strings Format.

Lemma strlen_take (chars : list Z) (n : nat) :
  strlen chars = Some n -> List.length (take n chars) = n.
Proof.
  revert n. induction chars as [|c rest IH]; intros n; [discriminate|].
  cbn [strlen]. destruct (c =? 0); [intros [= <-]; reflexivity|].
  destruct (strlen rest) as [m|]; [|discriminate]. intros [= <-].
  cbn. f_equal. now apply IH.
Qed.

Lemma size_t_small (x : Z) : 0 <= x < 2 ^ 64 -> Symbols.size_t x = x.
Proof. intros Hx. unfold Symbols.size_t. apply Z.mod_small, Hx. Qed.

(** A store that fits in the array, and the array around it. *)
Lemma storeAt_fits (bytes : list Z) (start : nat) (array : list Z) :
  (start + List.length bytes <= List.length array)%nat ->
  exists array',
    storeAt bytes start array = Some array'
    /\ List.length array' = List.length array
    /\ take (start + List.length bytes) array' = take start array ++ bytes
    /\ forall k : nat,
         drop (start + List.length bytes + k) array'
         = drop (start + List.length bytes + k) array.
Proof.
  intros Hfits. unfold storeAt.
  destruct (Nat.ltb_spec (List.length array) (start + List.length bytes));
    [lia|].
  eexists. split; [reflexivity|].
  assert (Hstart : List.length (take start array) = start)
    by (rewrite length_take; lia).
  split; [rewrite !length_app, length_drop, Hstart; lia|]. split.
  - rewrite app_assoc. apply take_app_length'. rewrite length_app. lia.
  - intros k. rewrite app_assoc.
    rewrite drop_app_ge by (rewrite length_app; lia).
    rewrite length_app, Hstart, drop_drop. f_equal. lia.
Qed.

Lemma bytesOf_wf (string : ObjString) :
  stringWf string ->
  bytesOf string = Some (string_value string)
  /\ Z.to_nat (string_length string) = List.length (string_value string).
Proof.
  intros [Hlength _]. unfold bytesOf, bufferOf. rewrite Hlength, Nat2Z.id.
  destruct (Nat.ltb_spec (List.length (string_value string ++ [0]))
              (List.length (string_value string)));
    [rewrite length_app in *; lia|].
  now rewrite take_app_length.
Qed.

(** The first loop counts the bytes of the text. *)
Lemma formatLength_spec (format : list Z) :
  forall (args : list FormatArg) (text : list Z) (total : Z),
    formatted format args = Some text ->
    Forall argWf args ->
    0 <= total ->
    total + Z.of_nat (List.length text) < 2 ^ 64 ->
    formatLength format args total
    = Some (total + Z.of_nat (List.length text)).
Proof.
  induction format as [|c rest IH]; intros args text total Htext Hargs Htotal
    Hsize; [discriminate|].
  cbn [formatted formatLength] in *.
  destruct (c =? 0); [injection Htext as <-; cbn; f_equal; lia|].
  destruct (c =? 36).
  { destruct args as [|[chars|string] args]; try discriminate.
    destruct (strlen chars) as [n|] eqn:Hn; [|discriminate].
    cbn [mbind option_bind] in *.
    destruct (formatted rest args) as [text'|] eqn:Hrest; [|discriminate].
    injection Htext as <-. apply Forall_cons in Hargs as [_ Hargs].
    rewrite length_app, (strlen_take _ _ Hn) in Hsize |- *.
    rewrite size_t_small by lia.
    rewrite (IH args text') by (assumption || lia). f_equal. lia. }
  destruct (c =? 64).
  { destruct args as [|[chars|string] args]; try discriminate.
    destruct (formatted rest args) as [text'|] eqn:Hrest; [|discriminate].
    cbn [mbind option_bind] in *.
    injection Htext as <-. apply Forall_cons in Hargs as [[Hlength _] Hargs].
    rewrite length_app in Hsize |- *. rewrite Hlength.
    rewrite (size_t_small (Z.of_nat _)) by lia. rewrite size_t_small by lia.
    rewrite (IH args text') by (assumption || lia). f_equal. lia. }
  destruct (formatted rest args) as [text'|] eqn:Hrest; [|discriminate].
  cbn [mbind option_bind] in *. injection Htext as <-.
  cbn [List.length] in Hsize |- *. rewrite size_t_small by lia.
  rewrite (IH args text') by (assumption || lia). f_equal. lia.
Qed.

(** The second loop writes the text at [start] and nothing else. *)
Lemma formatFill_spec (format : list Z) :
  forall (args : list FormatArg) (text array : list Z) (start : nat),
    formatted format args = Some text ->
    Forall argWf args ->
    (start + List.length text <= List.length array)%nat ->
    formatFill format args array start
    = Some (take start array ++ text
            ++ drop (start + List.length text) array).
Proof.
  induction format as [|c rest IH]; intros args text array start Htext Hargs
    Hfits; [discriminate|].
  cbn [formatted formatFill] in *.
  destruct (c =? 0).
  { injection Htext as <-. cbn [app List.length].
    now rewrite Nat.add_0_r, take_drop. }
  assert (Hstep : forall (bytes text' : list Z) (args' : list FormatArg),
            formatted rest args' = Some text' ->
            Forall argWf args' ->
            text = bytes ++ text' ->
            (array' ← storeAt bytes start array;
             formatFill rest args' array' (start + List.length bytes))
            = Some (take start array ++ text
                    ++ drop (start + List.length text) array)).
  { intros bytes text' args' Hrest Hargs' ->. rewrite length_app in Hfits.
    destruct (storeAt_fits bytes start array) as (array' & -> & Hlen & Htake & Hdrop);
      [lia|].
    cbn [mbind option_bind].
    rewrite (IH args' text') by (assumption || lia).
    rewrite Htake, Hdrop, length_app, <- !app_assoc.
    now rewrite Nat.add_assoc. }
  destruct (c =? 36).
  { destruct args as [|[chars|string] args]; try discriminate.
    destruct (strlen chars) as [n|] eqn:Hn; [|discriminate].
    cbn [mbind option_bind] in *.
    destruct (formatted rest args) as [text'|] eqn:Hrest; [|discriminate].
    injection Htext as Htext. apply Forall_cons in Hargs as [_ Hargs].
    pose proof (Hstep (take n chars) text' args Hrest Hargs (eq_sym Htext))
      as Hstored.
    rewrite (strlen_take _ _ Hn) in Hstored. exact Hstored. }
  destruct (c =? 64).
  { destruct args as [|[chars|string] args]; try discriminate.
    destruct (formatted rest args) as [text'|] eqn:Hrest; [|discriminate].
    cbn [mbind option_bind] in *.
    injection Htext as Htext. apply Forall_cons in Hargs as [Hwf Hargs].
    destruct (bytesOf_wf string Hwf) as [-> ->]. cbn [mbind option_bind].
    apply (Hstep _ text'); [exact Hrest | exact Hargs | now symmetry]. }
  destruct (formatted rest args) as [text'|] eqn:Hrest; [|discriminate].
  cbn [mbind option_bind] in *. injection Htext as Htext.
  apply (Hstep [c] text'); [exact Hrest | exact Hargs | now symmetry].
Qed.

(** X14. When the format and its arguments spell a text that an [int] can
    count, the two loops of [wrenStringFormat] agree: the length computed by
    the first is what the second writes, no store leaves the allocated
    array, and the result is the string that [wrenNewString] makes of the
    text, hash included. *)
Theorem wrenStringFormat_text (charSigned : bool) (format : list Z)
    (args : list FormatArg) (text : list Z) :
  formatted format args = Some text ->
  Forall argWf args ->
  Z.of_nat (List.length text) < 2 ^ 31 ->
  exists result,
    wrenStringFormat charSigned format args = Some result
    /\ string_value result = text
    /\ string_length result = Z.of_nat (List.length text)
    /\ wrenNewString charSigned text (Z.of_nat (List.length text))
       = Some result.
Proof.
  intros Htext Hargs Hsize.
  destruct (StringFacts.wrenNewString_spec charSigned text
              (Z.of_nat (List.length text)))
    as (hash & Hhash & _ & Hnew); [lia | lia |].
  rewrite Nat2Z.id, firstn_all in Hhash, Hnew.
  eexists. split; [|split; [|split; [|exact Hnew]]]; [|reflexivity..].
  unfold wrenStringFormat.
  rewrite (formatLength_spec format args text 0 Htext Hargs)
    by (change (2 ^ 31) with 2147483648 in Hsize;
        change (2 ^ 64) with 18446744073709551616; lia).
  cbn [mbind option_bind]. rewrite Z.add_0_l. unfold allocateString, bufferOf.
  cbn [string_value string_length string_hash].
  rewrite Nat2Z.id, length_replicate.
  rewrite (formatFill_spec format args text _ O Htext Hargs)
    by (rewrite length_app, length_replicate; cbn; lia).
  cbn [mbind option_bind take app Nat.add].
  rewrite drop_app_length' by (now rewrite length_replicate).
  rewrite take_0, app_nil_l, take_app_length.
  rewrite ClassFacts.int32_small
    by (change (2 ^ 31) with 2147483648 in *; lia).
  unfold hashString, bufferOf. cbn [string_value string_length string_hash].
  rewrite uint32_small
    by (change (2 ^ 31) with 2147483648 in *; change (2 ^ 32) with 4294967296; lia).
  rewrite Nat2Z.id, Hhash. reflexivity.
Qed.

(** The name of a metaclass, as [wrenNewSingleClass] gets it from
    [wrenStringFormat]. *)
Lemma metaclass_format (name : ObjString) :
  formatted [64; 32; 109; 101; 116; 97; 99; 108; 97; 115; 115; 0]
    [ArgString name]
  = Some (Classes.metaclassName (string_value name)).
Proof. reflexivity. Qed.

Lemma wrenStringFormat_text_witness :
  exists result,
    wrenStringFormat false
      [64; 32; 109; 101; 116; 97; 99; 108; 97; 115; 115; 0]
      [ArgString Examples.cutString] = Some result
    /\ string_value result
       = Classes.metaclassName (string_value Examples.cutString).
Proof.
  destruct (wrenStringFormat_text false
              [64; 32; 109; 101; 116; 97; 99; 108; 97; 115; 115; 0]
              [ArgString Examples.cutString]
              (Classes.metaclassName (string_value Examples.cutString)))
    as (result & Hformat & Hvalue & _);
    [reflexivity | repeat constructor | reflexivity |].
  exists result. split; [exact Hformat | exact Hvalue].
Defined.

End FormatFacts.


(** ** Maps: sets alone never hang *)

Module MapSetFacts.
Import Value Map Tombstones MapFacts.

Section Sets.
Context {Value : Type} `{ValueRepOk Value}.
Variable heap : ObjPtr -> Obj.
Implicit Types (entries old : list (MapEntry Value)) (map : ObjMap Value).
Implicit Types (entry : MapEntry Value) (k v : Value).

(** Every slot holds a key, is empty, or is a tombstone. *)
Lemma slot_kinds entries :
  occupied entries + emptySlots entries + tombstones entries
  = Z.of_nat (length entries).
Proof.
  unfold occupied, emptySlots, tombstones.
  induction entries as [|entry rest IH]; [reflexivity|].
  cbn [total length]. unfold occupies at 1, isEmpty at 1, isTombstone at 1.
  destruct (IS_UNDEFINED (key entry)), (IS_FALSE (value entry)); cbn; lia.
Qed.

Lemma addEntryLoop_tombstones (fuel : nat) :
  forall entries (capacity : Z) k v (index : Z) (added : bool) entries',
    IS_UNDEFINED k = false ->
    addEntryLoop heap fuel entries capacity k v index = Returns (added, entries') ->
    tombstones entries' = tombstones entries.
Proof.
  induction fuel as [|fuel IH]; intros entries capacity k v index added entries'
    Hk; cbn [addEntryLoop]; [discriminate|].
  destruct (entries !! Z.to_nat index) as [entry|] eqn:Hentry; [|discriminate].
  unfold tombstones.
  destruct (IS_UNDEFINED (key entry)) eqn:Hu.
  - destruct (IS_FALSE (value entry)) eqn:Hf; [|now apply IH].
    intros [= <- <-]. rewrite (total_insert _ _ _ _ _ Hentry).
    unfold isTombstone. cbn [key value]. rewrite Hu, Hf, Hk. cbn. lia.
  - destruct (wrenValuesEqual heap (key entry) k); [|now apply IH].
    intros [= <- <-]. rewrite (total_insert _ _ _ _ _ Hentry).
    unfold isTombstone. cbn [key value]. rewrite Hu. cbn. lia.
Qed.

Lemma reAddEntries_tombstones (capacity : Z) old :
  forall entries entries',
    reAddEntries heap old entries capacity = Returns entries' ->
    tombstones entries' = tombstones entries.
Proof.
  induction old as [|entry rest IH]; intros entries entries';
    cbn [reAddEntries]; [now intros [= <-]|].
  destruct (IS_UNDEFINED (key entry)) eqn:Hu; [apply IH|].
  intros Hr. apply outcome_bind_returns in Hr as ([added entries1] & Hadd & Hr).
  apply addEntryLoop_tombstones in Hadd; [|exact Hu].
  apply IH in Hr. cbn [snd] in Hr. congruence.
Qed.

(** A table that [resizeMap] has made holds no tombstone. *)
Lemma resizeMap_tombstones map (capacity : Z) map' :
  resizeMap heap map capacity = Returns map' ->
  tombstones (entries map') = 0.
Proof.
  unfold resizeMap. intros Hr.
  apply outcome_bind_returns in Hr as (entries' & Hre & [= <-]).
  cbn [entries].
  assert (Hfresh : tombstones
            (replicate (Z.to_nat capacity)
               {| key := UNDEFINED_VAL; value := FALSE_VAL |}) = 0).
  { unfold tombstones. rewrite total_replicate. unfold isTombstone.
    cbn [key value]. rewrite undefined_is_undefined, false_is_false. cbn. lia. }
  destruct (0 <? Map.capacity map).
  - apply reAddEntries_tombstones in Hre. congruence.
  - injection Hre as <-. exact Hfresh.
Qed.

(** [findEntry] stops when the probe, [distance] slots on, reaches an empty
    slot. *)
Lemma findEntryLoop_stops (distance : nat) :
  forall (fuel : nat) entries (capacity : Z) k (index : Z) (target : nat) entry,
    entries !! target = Some entry ->
    IS_UNDEFINED (key entry) = true -> IS_FALSE (value entry) = true ->
    0 <= index < capacity -> capacity < 2 ^ 32 ->
    Z.of_nat (length entries) = capacity ->
    (index + Z.of_nat distance) mod capacity = Z.of_nat target ->
    (distance < fuel)%nat ->
    exists r, findEntryLoop heap fuel entries capacity k index = Returns r.
Proof.
  induction distance as [|distance IH];
    intros [|fuel] entries capacity k index target entry
      Htarget Hu Hf Hindex Hcap Hlen Hreach Hfuel; try lia;
    cbn [findEntryLoop].
  - rewrite Z.add_0_r, Z.mod_small in Hreach by lia.
    rewrite Hreach, Nat2Z.id, Htarget, Hu, Hf. eauto.
  - destruct (lookup_lt_is_Some_2 entries (Z.to_nat index)) as [here ->]; [lia|].
    destruct (next_index index capacity Hindex Hcap) as [Hnext Hrange].
    assert (Hgo : exists r,
              findEntryLoop heap fuel entries capacity k
                (uint32 (index + 1) mod capacity) = Returns r).
    { rewrite Hnext. apply (IH fuel _ _ _ _ target entry); try assumption.
      - rewrite Zplus_mod_idemp_l. rewrite <- Hreach. f_equal. lia.
      - lia. }
    destruct (IS_UNDEFINED (key here)).
    + destruct (IS_FALSE (value here)); [eauto | exact Hgo].
    + destruct (wrenValuesEqual heap (key here) k); [eauto | exact Hgo].
Qed.

Lemma findEntry_stops map k :
  0 <= capacity map < 2 ^ 32 ->
  Z.of_nat (length (entries map)) = capacity map ->
  (0 < capacity map -> 0 < emptySlots (entries map)) ->
  exists r, findEntry heap map k = Returns r.
Proof.
  intros Hcap Hlen Hempty. unfold findEntry.
  destruct (Z.eqb_spec (capacity map) 0); [eauto|].
  destruct (empty_slot_exists (entries map) ltac:(apply Hempty; lia))
    as (target & entry & Htarget & Hu & Hf).
  pose proof (lookup_lt_Some _ _ _ Htarget) as Hlt.
  pose proof (first_index (hashValue heap k) (capacity map) ltac:(lia)) as Hfirst.
  set (index := uint32 (hashValue heap k) mod capacity map) in *.
  apply (findEntryLoop_stops
           (Z.to_nat ((Z.of_nat target - index) mod capacity map))
           _ _ _ _ _ target entry); try assumption; try lia.
  - rewrite Z2Nat.id by (apply Z.mod_pos_bound; lia).
    rewrite Zplus_mod_idemp_r.
    replace (index + (Z.of_nat target - index)) with (Z.of_nat target) by lia.
    apply Z.mod_small. lia.
  - pose proof (Z.mod_pos_bound (Z.of_nat target - index) (capacity map)
                  ltac:(lia)).
    lia.
Qed.

(** A table without tombstones that keeps the load has an empty slot. *)
Lemma room_left map :
  tableInvariant map -> tombstones (entries map) = 0 ->
  0 < capacity map -> 0 < emptySlots (entries map).
Proof.
  intros ((Hlen & Hcap & Hocc & Hcount) & (Hload & _)) Hnone Hpos.
  pose proof (slot_kinds (entries map)) as Hkinds.
  assert (capacity map * 75 / 100 < capacity map)
    by (apply Z.div_lt_upper_bound; lia).
  lia.
Qed.

(** On a table without tombstones [wrenMapSet] returns, and it leaves no
    tombstone. *)
Lemma set_returns map k v :
  tableInvariant map -> capacity map < 2 ^ 31 ->
  tombstones (entries map) = 0 -> IS_UNDEFINED k = false ->
  exists map',
    wrenMapSet heap map k v = Returns map'
    /\ tombstones (entries map') = 0.
Proof.
  intros Hinv Hfit Hnone Hk.
  pose proof Hinv as ((Hlen & Hcap & Hocc & Hcount) & (Hload & Hmin & Hshape)).
  pose proof (occupied_nonneg (entries map)) as Hocc0.
  assert (Hquarter : capacity map * 75 / 100 <= capacity map)
    by (apply Z.div_le_upper_bound; lia).
  assert (Hgrown : exists map1,
            (if uint32 (count map + 1)
                  >? uint32 (capacity map * MAP_LOAD_PERCENT) / 100
             then
               let capacity := uint32 (capacity map * GROW_FACTOR) in
               let capacity :=
                 if capacity <? MIN_CAPACITY then MIN_CAPACITY else capacity in
               resizeMap heap map capacity
             else Returns map) = Returns map1
            /\ 0 < capacity map1 < 2 ^ 32
            /\ Z.of_nat (length (entries map1)) = capacity map1
            /\ tombstones (entries map1) = 0
            /\ occupied (entries map1) < capacity map1).
  { unfold MAP_LOAD_PERCENT, GROW_FACTOR, MIN_CAPACITY. cbv zeta.
    assert (Hlimit : capacity map < 2147483648 /\ 2 ^ 32 = 4294967296)
      by (split; [exact Hfit | reflexivity]).
    pose proof (uint32_le (capacity map * 75) ltac:(lia)) as Hwrap.
    assert (Hthreshold : uint32 (capacity map * 75) / 100
                         <= capacity map * 75 / 100)
      by (apply Z.div_le_mono; lia).
    rewrite (uint32_small (count map + 1)) by lia.
    rewrite (uint32_small (capacity map * 2)) by lia.
    destruct (Z.gtb_spec (count map + 1) (uint32 (capacity map * 75) / 100))
      as [Hfull|Hroom].
    - cbv zeta.
      set (capacity' := if capacity map * 2 <? 16 then 16 else capacity map * 2).
      assert (Hcap' : 0 < capacity' < 2 ^ 32 /\ capacity map < capacity').
      { subst capacity'. destruct (Z.ltb_spec (capacity map * 2) 16); lia. }
      destruct (resizeMap_spec heap map capacity' ltac:(lia)) as [Hres Hstop].
      destruct Hstop as [map1 Hresize]; [lia|].
      destruct (Hres map1 Hresize) as (Hc1 & Hn1 & Hl1 & Ho1).
      exists map1. split; [exact Hresize|]. rewrite Hc1.
      split; [lia|]. split; [exact Hl1|].
      split; [exact (resizeMap_tombstones map capacity' map1 Hresize) | lia].
    - exists map. split; [reflexivity|]. split; [lia|]. split; [exact Hlen|].
      split; [exact Hnone | lia]. }
  destruct Hgrown as (map1 & Hgrow & Hcap1 & Hlen1 & Hnone1 & Hocc1).
  pose proof (slot_kinds (entries map1)) as Hkinds.
  destruct (addEntry_stops heap (entries map1) (capacity map1) k v)
    as ([added entries'] & Hadd); [exact Hcap1 | exact Hlen1 | lia |].
  cbv zeta in Hgrow.
  unfold wrenMapSet. rewrite Hgrow. cbn [obind]. rewrite Hadd. cbn [obind].
  eexists. split; [reflexivity|]. cbn [entries snd].
  apply addEntryLoop_tombstones in Hadd; [congruence | exact Hk].
Qed.

(** On a table without tombstones [wrenMapGet] returns. *)
Lemma get_returns map k :
  tableInvariant map -> tombstones (entries map) = 0 ->
  exists r, wrenMapGet heap map k = Returns r.
Proof.
  intros Hinv Hnone. pose proof Hinv as ((Hlen & Hcap & _) & _).
  destruct (findEntry_stops map k Hcap Hlen (room_left map Hinv Hnone))
    as ([found|] & Hfind); unfold wrenMapGet; rewrite Hfind; cbn [obind];
    [|eauto].
  destruct (findEntry_found heap map k found Hfind Hcap)
    as (_ & entry & -> & _). eauto.
Qed.

Lemma runOps_sets (ops : list (MapOp Value)) :
  forall map,
    tableInvariant map -> tombstones (entries map) = 0 ->
    Forall removesNothing ops ->
    tableFits heap map ops = true ->
    exists map',
      runOps heap map ops = Returns map'
      /\ tableInvariant map' /\ tombstones (entries map') = 0.
Proof.
  induction ops as [|op rest IH]; intros map Hinv Hnone Hops Hfits.
  - exists map. auto.
  - apply Forall_cons in Hops as [Hop Hops]. cbn [tableFits] in Hfits.
    apply andb_true_iff in Hfits as [Hfit Hrest]. apply Z.ltb_lt in Hfit.
    assert (Hstep : exists map1,
              runOp heap map op = Returns map1
              /\ tableInvariant map1 /\ tombstones (entries map1) = 0).
    { destruct op as [k v | k |]; cbn [runOp removesNothing] in *.
      - destruct (set_returns map k v Hinv Hfit Hnone Hop) as (map1 & Hset & Hnone1).
        exists map1. split; [exact Hset|]. split; [|exact Hnone1].
        apply (wrenMapSet_invariant heap map k v map1 Hinv Hfit Hset).
      - contradiction.
      - eexists. split; [reflexivity|].
        split; [apply wrenMapClear_invariant | reflexivity]. }
    destruct Hstep as (map1 & Hrun & Hinv1 & Hnone1).
    rewrite Hrun in Hrest. cbn [runOps]. rewrite Hrun. cbn [obind].
    apply IH; assumption.
Qed.

(** X15. A map on which nothing was ever removed never hangs: from
    [wrenNewMap], every sequence of [wrenMapSet] (of keys other than the
    undefined value) and [wrenMapClear] returns, and [wrenMapGet] then
    returns for every key. *)
Theorem sets_never_hang (ops : list (MapOp Value)) :
  Forall removesNothing ops ->
  tableFits heap wrenNewMap ops = true ->
  exists map,
    runOps heap wrenNewMap ops = Returns map
    /\ forall k, exists r, wrenMapGet heap map k = Returns r.
Proof.
  intros Hops Hfits.
  destruct (runOps_sets ops wrenNewMap wrenNewMap_invariant eq_refl Hops Hfits)
    as (map & Hrun & Hinv & Hnone).
  exists map. split; [exact Hrun|]. intros k. now apply get_returns.
Qed.

(** X16. After a [wrenMapSet] that returns, [wrenMapGet] of the same key
    returns the value that was set; the key is not the undefined value and
    is equal to itself. *)
Theorem get_after_set map k v map' :
  mapWf map ->
  IS_UNDEFINED k = false -> wrenValuesEqual heap k k = true ->
  wrenMapSet heap map k v = Returns map' ->
  wrenMapGet heap map' k = Returns v.
Proof. apply wrenMapGet_after_wrenMapSet. Qed.

(** X17. [findEntry] probes for ever exactly when every slot of the table
    is a tombstone or holds another key (no slot is empty and none holds
    the key); the fuel of the model is no limit: a probe that has not
    stopped after [capacity] slots stops after no number of them. *)
Theorem findEntry_hangs_iff map k :
  0 < capacity map < 2 ^ 32 ->
  (findEntry heap map k = Hangs
   <-> forall target, 0 <= target < capacity map ->
         exists entry, entries map !! Z.to_nat target = Some entry
                       /\ passesOver heap k entry = true)
  /\ (findEntry heap map k = Hangs ->
      forall fuel : nat,
        findEntryLoop heap fuel (entries map) (capacity map) k
          (uint32 (hashValue heap k) mod capacity map) = Hangs).
Proof.
  intros Hcap.
  pose proof (first_index (hashValue heap k) (capacity map) ltac:(lia)) as Hfirst.
  split; [split|].
  - intros Hhangs target Htarget. unfold findEntry in Hhangs.
    destruct (Z.eqb_spec (capacity map) 0); [lia|].
    destruct (probe_reaches _ target (capacity map) Hfirst Htarget)
      as (distance & Hdistance & <-).
    apply (findEntryLoop_hangs_passes heap _ _ _ _ _ Hfirst ltac:(lia) Hhangs).
    lia.
  - intros Hall. unfold findEntry.
    destruct (Z.eqb_spec (capacity map) 0); [lia|].
    apply findEntryLoop_all_pass; [exact Hfirst | lia | exact Hall].
  - now apply findEntry_hangs_for_ever.
Qed.

End Sets.

Lemma sets_never_hang_witness :
  exists map,
    runOps Examples.noObjects wrenNewMap Examples.thirteenSets = Returns map
    /\ forall k, exists r, wrenMapGet Examples.noObjects map k = Returns r.
Proof.
  apply (sets_never_hang (Value := UnionValue) Examples.noObjects
           Examples.thirteenSets);
    [repeat constructor | vm_compute; reflexivity].
Defined.

Lemma get_after_set_witness :
  exists map',
    wrenMapSet Examples.noObjects Examples.oneKeyMap
      (VAL_NUM (Examples.doubleOf 2)) VAL_NULL = Returns map'
    /\ wrenMapGet Examples.noObjects map' (VAL_NUM (Examples.doubleOf 2))
       = Returns VAL_NULL.
Proof.
  eexists. split; [vm_compute; reflexivity|].
  apply (get_after_set Examples.noObjects Examples.oneKeyMap
           (VAL_NUM (Examples.doubleOf 2)) VAL_NULL);
    [vm_compute; repeat split; discriminate | reflexivity | reflexivity
    | vm_compute; reflexivity].
Defined.

Lemma findEntry_hangs_iff_witness :
  findEntry Examples.noObjects Examples.oneKeyMap (VAL_NUM (Examples.doubleOf 2))
  <> Hangs.
Proof.
  destruct (findEntry_hangs_iff Examples.noObjects Examples.oneKeyMap
              (VAL_NUM (Examples.doubleOf 2))) as [[Hpasses _] _];
    [cbn; lia|].
  intros Hhangs. destruct (Hpasses Hhangs 1) as (entry & Hentry & Hpass);
    [cbn; lia|].
  injection Hentry as <-. discriminate Hpass.
Defined.

End MapSetFacts.


(** ** Substring search: strings without the byte 0xFF *)

Module SearchFacts.
Import Value StringFind StringFindFacts.

(** X18. On strings that hold no byte 0xFF, [wrenStringFind] returns, and
    what it returns is the index of the first occurrence of the needle in
    the haystack, or [UINT32_MAX] when the needle does not occur; the empty
    needle is found at 0. *)
Theorem wrenStringFind_first_occurrence (haystack needle : list Z) :
  Z.of_nat (length haystack) < 2 ^ 32 ->
  (forall b, b ∈ haystack ++ needle -> uint8 b < 255) ->
  exists r,
    wrenStringFind (str haystack) (str needle) = Returns r
    /\ ((r = UINT32_MAX /\ forall j, ~ occursAt haystack needle j)
        \/ (0 <= r < UINT32_MAX
            /\ occursAt haystack needle (Z.to_nat r)
            /\ forall j, (j < Z.to_nat r)%nat -> ~ occursAt haystack needle j)).
Proof.
  intros Hsize Hbytes.
  destruct (wrenStringFind_returns haystack needle Hsize Hbytes) as [r Hr].
  exists r. split; [exact Hr|].
  exact (wrenStringFind_correct haystack needle r Hsize Hr).
Qed.

Lemma wrenStringFind_first_occurrence_witness :
  exists r,
    wrenStringFind (str [104; 101; 108; 108; 111]) (str [108; 108]) = Returns r
    /\ occursAt [104; 101; 108; 108; 111] [108; 108] (Z.to_nat r).
Proof.
  destruct (wrenStringFind_first_occurrence [104; 101; 108; 108; 111] [108; 108])
    as (r & Hr & [[Hnone _] | (_ & Hocc & _)]); [reflexivity | | |].
  - intros b Hb. repeat (apply elem_of_cons in Hb as [->|Hb]; [reflexivity|]).
    inversion Hb.
  - vm_compute in Hr. injection Hr as <-. discriminate Hnone.
  - exists r. split; [exact Hr | exact Hocc].
Defined.

End SearchFacts.


(** ** Classes: method slots and metaclasses *)

Module MetaclassFacts.
Import Classes ClassFacts.

(** X19. [wrenBindMethod] with a symbol that is not negative stores the
    method at the symbol, sets the slots between the old end of the method
    table and the symbol to [METHOD_NONE], and changes no other slot, no
    other field and no other class: a class made earlier from this one as
    its superclass does not get the method. *)
Theorem wrenBindMethod_slots (vm : WrenVM) (p : ObjPtr) (c : ObjClass)
    (symbol : Z) (method : Method) :
  heap vm !! p = Some c ->
  0 <= symbol ->
  exists (vm' : WrenVM) (c' : ObjClass),
    wrenBindMethod vm p symbol method = Some vm'
    /\ heap vm' !! p = Some c'
    /\ methods c' !! Z.to_nat symbol = Some method
    /\ length (methods c') = max (length (methods c)) (S (Z.to_nat symbol))
    /\ (forall j : nat, j <> Z.to_nat symbol ->
          (j < length (methods c))%nat -> methods c' !! j = methods c !! j)
    /\ (forall j : nat, (length (methods c) <= j < Z.to_nat symbol)%nat ->
          methods c' !! j = Some noMethod)
    /\ c' = set_methods c (methods c')
    /\ (forall q : ObjPtr, q <> p -> heap vm' !! q = heap vm !! q).
Proof.
  intros Hp Hsymbol. unfold wrenBindMethod. rewrite Hp.
  set (buffer := if symbol >=? Z.of_nat (length (methods c))
                 then wrenMethodBufferFill (methods c) noMethod
                        (symbol - Z.of_nat (length (methods c)) + 1)
                 else methods c).
  assert (Hbuffer : length buffer = max (length (methods c)) (S (Z.to_nat symbol))
                    /\ (forall j : nat, (j < length (methods c))%nat ->
                          buffer !! j = methods c !! j)
                    /\ (forall j : nat,
                          (length (methods c) <= j < length buffer)%nat ->
                          buffer !! j = Some noMethod)).
  { subst buffer. unfold wrenMethodBufferFill.
    destruct (Z.geb_spec symbol (Z.of_nat (length (methods c)))).
    - rewrite length_app, length_replicate. split; [lia|]. split.
      + intros j Hj. now apply lookup_app_l.
      + intros j Hj. rewrite lookup_app_r by lia.
        apply lookup_replicate_2. lia.
    - split; [lia|]. split; [reflexivity|]. intros j Hj. lia. }
  destruct Hbuffer as (Hlen & Hold & Hnew).
  destruct (Z.leb_spec 0 symbol); [|lia].
  destruct (Z.ltb_spec symbol (Z.of_nat (length buffer))); [|lia].
  cbn [andb]. eexists _, _. split; [reflexivity|].
  split; [cbn; apply lookup_insert_eq|]. cbn [methods set_methods].
  split; [apply list_lookup_insert_eq; lia|].
  split; [rewrite length_insert; exact Hlen|].
  split; [intros j Hne Hj; rewrite list_lookup_insert_ne by lia; now apply Hold|].
  split; [intros j Hj; rewrite list_lookup_insert_ne by lia; apply Hnew; lia|].
  split; [reflexivity|].
  intros q Hq. cbn. now rewrite lookup_insert_ne.
Qed.

(** [wrenBindMethod] with a negative symbol stores outside the method
    table. *)
Lemma wrenBindMethod_negative (vm : WrenVM) (p : ObjPtr) (symbol : Z)
    (method : Method) :
  symbol < 0 -> wrenBindMethod vm p symbol method = None.
Proof.
  intros Hsymbol. unfold wrenBindMethod.
  destruct (heap vm !! p); [|reflexivity].
  destruct (Z.leb_spec 0 symbol); [lia | reflexivity].
Qed.




Lemma wrenBindMethod_slots_witness :
  exists (vm' : WrenVM) (c' : ObjClass),
    wrenBindMethod Examples.vmS4 1 3 Examples.method7 = Some vm'
    /\ heap vm' !! 1 = Some c'
    /\ methods c' = replicate 3 noMethod ++ [Examples.method7]
    /\ heap vm' !! 2 = heap Examples.vmS4 !! 2.
Proof.
  destruct (wrenBindMethod_slots Examples.vmS4 1
              {| classObj := Some 1; superclass := None; numFields := 0;
                 name := [67]; methods := [] |} 3 Examples.method7)
    as (vm' & c' & Hbind & Hc' & _ & _ & _ & _ & _ & Hframe);
    [reflexivity | lia |].
  exists vm', c'. split; [exact Hbind|]. split; [exact Hc'|].
  split; [|apply Hframe; discriminate].
  vm_compute in Hbind. injection Hbind as <-.
  vm_compute in Hc'. injection Hc' as <-. reflexivity.
Defined.


End MetaclassFacts.


(** ** UTF-8: what the decoder accepts *)

Module DecodeFacts.
Import Utf8 Utf8Facts.

Lemma land_six_bits (b : Z) : 0 <= Z.land b 0x3f < 64.
Proof.
  change 0x3f with (Z.ones 6). rewrite Z.land_ones by lia.
  apply Z.mod_pos_bound. lia.
Qed.

Lemma land_lead_bits (b : Z) (k : Z) :
  0 <= k -> 0 <= Z.land b (Z.ones k) < 2 ^ k.
Proof.
  intros Hk. rewrite Z.land_ones by lia. apply Z.mod_pos_bound. lia.
Qed.

(** The loop adds six bits for each continuation byte, or gives -1. *)
Lemma decodeLoop_range (buf : list Z) (remaining : nat) :
  forall (pos : nat) (value bound r : Z),
    0 <= value < bound ->
    decodeLoop buf pos remaining value = Some r ->
    r = -1 \/ 0 <= r < bound * 64 ^ Z.of_nat remaining.
Proof.
  induction remaining as [|remaining IH]; intros pos value bound r Hvalue;
    cbn [decodeLoop].
  - intros [= <-]. right. change (64 ^ Z.of_nat 0) with 1. lia.
  - destruct (buf !! S pos) as [b|]; [|discriminate].
    destruct (negb _); [intros [= <-]; now left|].
    intros Hloop. pose proof (land_six_bits b) as Hbits.
    rewrite shiftl_lor_add in Hloop
      by (lia || (change (2 ^ 6) with 64; exact Hbits)).
    change (2 ^ 6) with 64 in Hloop.
    apply (IH _ _ (bound * 64)) in Hloop; [|lia].
    rewrite Nat2Z.inj_succ, Z.pow_succ_r by lia.
    destruct Hloop as [-> | Hr]; [now left | right; lia].
Qed.

(** X21. Whatever bytes it is given, [wrenUtf8Decode] returns -1 or a
    value from 0 to 0x1FFFFF: -1 is never a decoded value, and a decoded
    value has at most 21 bits. *)
Theorem decode_result_range (buf : list Z) (len v : Z) :
  Forall (fun b => 0 <= b < 256) buf ->
  wrenUtf8Decode buf len = Some v ->
  v = -1 \/ 0 <= v <= 0x1fffff.
Proof.
  intros Hbytes. unfold wrenUtf8Decode.
  destruct (buf !! O) as [b0|] eqn:Hb0; [|discriminate].
  assert (H0 : 0 <= b0 < 256).
  { rewrite Forall_lookup in Hbytes. apply (Hbytes O b0 Hb0). }
  destruct (Z.leb_spec b0 0x7f); [intros [= <-]; right; lia|].
  assert (Hloop : forall (k n r : Z),
            0 <= k -> 0 <= n -> k + 6 * n <= 21 ->
            (if n >? uint32 (len - 1) then Some (-1)
             else decodeLoop buf O (Z.to_nat n) (Z.land b0 (Z.ones k))) = Some r ->
            r = -1 \/ 0 <= r <= 0x1fffff).
  { intros k n r Hk Hn Hbits. destruct (n >? uint32 (len - 1));
      [intros [= <-]; now left|].
    intros Hr.
    apply (decodeLoop_range _ _ _ _ (2 ^ k)) in Hr; [|now apply land_lead_bits].
    destruct Hr as [-> | Hr]; [now left | right].
    rewrite Z2Nat.id in Hr by lia.
    change 64 with (2 ^ 6) in Hr.
    rewrite <- Z.pow_mul_r, <- Z.pow_add_r in Hr by lia.
    assert (2 ^ (k + 6 * n) <= 2 ^ 21) by (apply Z.pow_le_mono_r; lia).
    change (2 ^ 21) with 2097152 in *. lia. }
  destruct (Z.land b0 0xe0 =? 0xc0);
    [apply (Hloop 5 1); lia|].
  destruct (Z.land b0 0xf0 =? 0xe0);
    [apply (Hloop 4 2); lia|].
  destruct (Z.land b0 0xf8 =? 0xf0);
    [apply (Hloop 3 3); lia|].
  intros [= <-]. now left.
Qed.

(** X22. [wrenUtf8Decode] checks the form of the bytes and not the value:
    every value from 0 to 0x1FFFFF is what the four-byte sequence of its
    bits decodes to. So it returns values that [wrenUtf8Encode] writes in
    fewer bytes (sequences that are longer than need be) and values above
    0x10FFFF, which [wrenUtf8NumBytes] gives no length. *)
Theorem decode_four_bytes (v : Z) :
  0 <= v <= 0x1fffff ->
  wrenUtf8Decode
    [Z.lor 0xf0 (v / 64 / 64 / 64); Z.lor 0x80 ((v / 64 / 64) mod 64);
     Z.lor 0x80 ((v / 64) mod 64); Z.lor 0x80 (v mod 64)] 4 = Some v
  /\ (v <= 0xffff -> 0 < wrenUtf8NumBytes v < 4)
  /\ (0x10ffff < v -> wrenUtf8NumBytes v = 0).
Proof.
  intros Hv. split; [|split].
  - destruct (digit_bounds v 32768) as [Hh Hl]; [lia|lia|].
    destruct (digit_bounds (v / 64) 512) as [Hh2 Hl2]; [lia|lia|].
    destruct (digit_bounds (v / 64 / 64) 8) as [Hh3 Hl3]; [lia|lia|].
    rewrite decode_4 by (exact Hl || exact Hl2 || exact Hl3 || (simpl; lia)).
    now rewrite !digits_2.
  - intros Hsmall. unfold wrenUtf8NumBytes.
    repeat match goal with
           | |- context [?a <=? ?b] => destruct (Z.leb_spec a b)
           end; lia.
  - intros Hlarge. unfold wrenUtf8NumBytes.
    repeat match goal with
           | |- context [?a <=? ?b] => destruct (Z.leb_spec a b)
           end; lia.
Qed.

Lemma decode_result_range_witness :
  exists v, wrenUtf8Decode [0xe2; 0x82; 0xac] 3 = Some v /\ 0 <= v <= 0x1fffff.
Proof.
  destruct (decode_result_range [0xe2; 0x82; 0xac] 3 0x20ac)
    as [Herror | Hrange];
    [repeat constructor; lia | reflexivity | discriminate Herror |].
  exists 0x20ac. split; [reflexivity | exact Hrange].
Defined.

Lemma decode_four_bytes_witness :
  wrenUtf8Decode [0xf0; 0x80; 0x80; 0xaf] 4 = Some 0x2f
  /\ wrenUtf8Encode 0x2f = [0x2f].
Proof.
  split; [|reflexivity].
  destruct (decode_four_bytes 0x2f) as [Hdecode _]; [lia|]. exact Hdecode.
Defined.

End DecodeFacts.


(** ** Marking *)

Module GcFacts.
Import Value Gc GcGraph.

Section Heaps.
Context {Value : Type} `{ValueRep Value}.
Implicit Types (vm : WrenVM Value) (object : Object Value) (p q r : ObjPtr).

Lemma keeps_refl object : keeps object object.
Proof. repeat split; auto. Qed.

Lemma keeps_trans (a b c : Object Value) : keeps a b -> keeps b c -> keeps a c.
Proof.
  intros (Hb1 & Hc1 & Hm1) (Hb2 & Hc2 & Hm2).
  repeat split; [congruence | congruence | auto].
Qed.

Lemma sameObjects_refl vm : sameObjects vm vm.
Proof.
  intros p. destruct (heap vm !! p); constructor. apply keeps_refl.
Qed.

Lemma sameObjects_trans vm1 vm2 vm3 :
  sameObjects vm1 vm2 -> sameObjects vm2 vm3 -> sameObjects vm1 vm3.
Proof.
  intros H12 H23 p. specialize (H12 p). specialize (H23 p).
  destruct H12 as [a b Hab|]; inversion H23 as [b' c Hbc|]; subst;
    constructor. eapply keeps_trans; eassumption.
Qed.

Lemma sameObjects_lookup vm vm' p object :
  sameObjects vm vm' -> heap vm !! p = Some object ->
  exists object', heap vm' !! p = Some object' /\ keeps object object'.
Proof.
  intros Hsame Hp. specialize (Hsame p). rewrite Hp in Hsame.
  inversion Hsame as [a b Hab Ha Hb|]; subst. eauto.
Qed.

Lemma sameObjects_lookup_back vm vm' p object' :
  sameObjects vm vm' -> heap vm' !! p = Some object' ->
  exists object, heap vm !! p = Some object /\ keeps object object'.
Proof.
  intros Hsame Hp. specialize (Hsame p). rewrite Hp in Hsame.
  inversion Hsame as [a b Hab Ha Hb|]; subst. eauto.
Qed.

Lemma sameObjects_heap vm vm' vm'' :
  sameObjects vm vm' -> heap vm'' = heap vm' -> sameObjects vm vm''.
Proof. intros Hsame Hheap p. rewrite Hheap. apply Hsame. Qed.

Lemma sameObjects_size vm vm' :
  sameObjects vm vm' -> size (heap vm') = size (heap vm).
Proof.
  intros Hsame. rewrite <- !size_dom. f_equal. apply set_eq. intros p.
  rewrite !elem_of_dom. specialize (Hsame p).
  inversion Hsame as [a b Hab Ha Hb | Ha Hb]; split; intros [object Hp].
  - exists a. symmetry. exact Ha.
  - exists b. symmetry. exact Hb.
  - exfalso. assert (Hnone : None = Some object) by (etrans; [exact Hb | exact Hp]).
    discriminate Hnone.
  - exfalso. assert (Hnone : None = Some object) by (etrans; [exact Ha | exact Hp]).
    discriminate Hnone.
Qed.

Lemma isMarked_same vm vm' p :
  sameObjects vm vm' -> isMarked vm p -> isMarked vm' p.
Proof.
  intros Hsame (object & Hp & Hmarked).
  destruct (sameObjects_lookup vm vm' p object Hsame Hp)
    as (object' & Hp' & _ & _ & Hkeeps).
  exists object'. auto.
Qed.

Lemma isMarked_dec vm p : isMarked vm p \/ ~ isMarked vm p.
Proof.
  unfold isMarked. destruct (heap vm !! p) as [object|] eqn:Hp.
  - destruct (marked object) eqn:Hmarked; [eauto|].
    right. intros (o & [= <-] & Ho). congruence.
  - right. intros (o & Ho & _). discriminate.
Qed.

Lemma numUpvaluesOf_same vm vm' (fn : option ObjPtr) :
  sameObjects vm vm' -> numUpvaluesOf vm' fn = numUpvaluesOf vm fn.
Proof.
  intros Hsame. unfold numUpvaluesOf. destruct fn as [f|]; [|reflexivity].
  specialize (Hsame f).
  destruct Hsame as [[m c b] [m' c' b'] (Hbody & _)|]; [|reflexivity].
  cbn in Hbody. now subst b'.
Qed.

Lemma numFieldsOf_same vm vm' (cls : option ObjPtr) :
  sameObjects vm vm' -> numFieldsOf vm' cls = numFieldsOf vm cls.
Proof.
  intros Hsame. unfold numFieldsOf. destruct cls as [c|]; [|reflexivity].
  specialize (Hsame c).
  destruct Hsame as [[m k b] [m' k' b'] (Hbody & _)|]; [|reflexivity].
  cbn in Hbody. now subst b'.
Qed.

Lemma nextOf_same vm vm' p :
  sameObjects vm vm' -> nextOf vm' p = nextOf vm p.
Proof.
  intros Hsame. unfold nextOf. specialize (Hsame p).
  destruct Hsame as [[m k b] [m' k' b'] (Hbody & _)|]; [|reflexivity].
  cbn in Hbody. now subst b'.
Qed.

Lemma chainOf_same (fuel : nat) vm vm' (upvalue : option ObjPtr) :
  sameObjects vm vm' -> chainOf fuel vm' upvalue = chainOf fuel vm upvalue.
Proof.
  intros Hsame. revert upvalue.
  induction fuel as [|fuel IH]; intros upvalue; [reflexivity|].
  cbn [chainOf]. destruct upvalue as [p|]; [|reflexivity].
  rewrite (nextOf_same vm vm' p Hsame).
  destruct (nextOf vm p) as [next| |]; cbn [obind]; [|reflexivity..].
  now rewrite IH.
Qed.

Lemma references_same vm vm' (object object' : Object Value) :
  sameObjects vm vm' -> keeps object object' ->
  references vm' object' = references vm object.
Proof.
  intros Hsame (Hbody & Hclass & _). unfold references.
  rewrite Hbody, Hclass.
  destruct (body object); try reflexivity.
  - now rewrite (numUpvaluesOf_same vm vm').
  - now rewrite (sameObjects_size vm vm'), (chainOf_same _ vm vm').
  - now rewrite (numFieldsOf_same vm vm').
Qed.

Lemma reaches_same vm vm' p q :
  sameObjects vm vm' -> reaches vm' p q -> reaches vm p q.
Proof.
  intros Hsame Hreach.
  induction Hreach as [p | p q r object' refs Hp Hrefs Hq _ IH];
    [constructor|].
  destruct (sameObjects_lookup_back vm vm' p object' Hsame Hp)
    as (object & Hp0 & Hkeeps).
  rewrite (references_same vm vm' object object' Hsame Hkeeps) in Hrefs.
  eapply reaches_on; eassumption.
Qed.

Lemma reaches_trans vm p q r :
  reaches vm p q -> reaches vm q r -> reaches vm p r.
Proof.
  intros Hpq Hqr.
  induction Hpq as [p | p q q' object refs Hp Hrefs Hq _ IH]; [exact Hqr|].
  eapply reaches_on; eauto.
Qed.

Lemma refsMarked_same vm vm' p :
  sameObjects vm vm' -> refsMarked vm p -> refsMarked vm' p.
Proof.
  intros Hsame Hrefs object' refs r Hp Hread Hr.
  destruct (sameObjects_lookup_back vm vm' p object' Hsame Hp)
    as (object & Hp0 & Hkeeps).
  rewrite (references_same vm vm' object object' Hsame Hkeeps) in Hread.
  apply (isMarked_same vm vm' r Hsame). eapply Hrefs; eassumption.
Qed.

End Heaps.

Section Calls.
Context {Value : Type} `{ValueRep Value}.
Variable sizes : Sizes.
Variable markObj : WrenVM Value -> option ObjPtr -> outcome (WrenVM Value).
Implicit Types (vm : WrenVM Value) (object : Object Value) (p q r : ObjPtr).

Lemma obind_assoc {A B C : Type} (m : outcome A) (f : A -> outcome B)
    (g : B -> outcome C) :
  obind (obind m f) g = obind m (fun a => obind (f a) g).
Proof. destruct m; reflexivity. Qed.

Lemma forEach_app {A : Type} (f : WrenVM Value -> A -> outcome (WrenVM Value))
    (xs ys : list A) :
  forall vm, forEach f vm (xs ++ ys) = obind (forEach f vm xs)
                                         (fun vm => forEach f vm ys).
Proof.
  induction xs as [|x xs IH]; intros vm; [reflexivity|].
  cbn [app forEach]. rewrite obind_assoc.
  destruct (f vm x); cbn [obind]; [apply IH | reflexivity..].
Qed.

Lemma forEach_flat_map {A : Type} (g : A -> list (option ObjPtr))
    (xs : list A) :
  forall vm,
    forEach (fun vm x => forEach markObj vm (g x)) vm xs
    = forEach markObj vm (flat_map g xs).
Proof.
  induction xs as [|x xs IH]; intros vm; [reflexivity|].
  cbn [forEach flat_map]. rewrite forEach_app.
  destruct (forEach markObj vm (g x)); cbn [obind]; [apply IH | reflexivity..].
Qed.

Lemma forEach_ext {A : Type}
    (f g : WrenVM Value -> A -> outcome (WrenVM Value)) (xs : list A) :
  (forall vm x, f vm x = g vm x) ->
  forall vm, forEach f vm xs = forEach g vm xs.
Proof.
  intros Hfg. induction xs as [|x xs IH]; intros vm; [reflexivity|].
  cbn [forEach]. rewrite Hfg. destruct (g vm x); cbn [obind]; auto.
Qed.

Lemma obind_returns_r {A : Type} (m : outcome A) : obind m Returns = m.
Proof. destruct m; reflexivity. Qed.

(** The loops over values, methods and entries are loops over their
    references. *)
Lemma forEach_values (vs : list Value) vm :
  forEach (markValue markObj) vm vs = forEach markObj vm (values vs).
Proof.
  unfold values. rewrite <- forEach_flat_map. apply forEach_ext.
  intros vm' v. unfold markValue.
  destruct (IS_OBJ v); cbn [negb forEach]; [|reflexivity].
  now rewrite obind_returns_r.
Qed.

Lemma forEach_methods (methods : list Classes.Method) vm :
  forEach
    (fun vm method =>
       match Classes.type method with
       | Classes.METHOD_BLOCK => markObj vm (Some (Classes.fn method))
       | _ => Returns vm
       end) vm methods
  = forEach markObj vm (methodRefs methods).
Proof.
  unfold methodRefs. rewrite <- forEach_flat_map. apply forEach_ext.
  intros vm' method.
  destruct (Classes.type method); cbn [forEach]; try reflexivity.
  now rewrite obind_returns_r.
Qed.

Lemma forEach_entries (entries : list (Map.MapEntry Value)) vm :
  forEach
    (fun vm entry =>
       if IS_UNDEFINED (Map.key entry) then Returns vm
       else
         do vm <- markValue markObj vm (Map.key entry);
         markValue markObj vm (Map.value entry)) vm entries
  = forEach markObj vm (entryRefs entries).
Proof.
  unfold entryRefs. rewrite <- forEach_flat_map. apply forEach_ext.
  intros vm' entry.
  destruct (IS_UNDEFINED (Map.key entry)); [reflexivity|].
  rewrite <- forEach_values. cbn [forEach].
  destruct (markValue markObj vm' (Map.key entry)); cbn [obind];
    [|reflexivity..].
  now rewrite obind_returns_r.
Qed.

End Calls.

Section Fields.
Context {Value : Type} `{ValueRep Value}.
Variable sizes : Sizes.
Variable markObj : WrenVM Value -> option ObjPtr -> outcome (WrenVM Value).
Hypothesis markObj_same :
  forall (vm vm' : WrenVM Value) (obj : option ObjPtr),
    markObj vm obj = Returns vm' -> sameObjects vm vm'.
Implicit Types (vm : WrenVM Value) (object : Object Value) (p q r : ObjPtr).

Lemma forEach_same (refs : list (option ObjPtr)) :
  forall vm vm', forEach markObj vm refs = Returns vm' -> sameObjects vm vm'.
Proof.
  induction refs as [|ref refs IH]; intros vm vm'; cbn [forEach].
  - intros [= <-]. apply sameObjects_refl.
  - intros Hall. apply outcome_bind_returns in Hall as (vm1 & Hone & Hall).
    eapply sameObjects_trans; [eapply markObj_same; eassumption | eauto].
Qed.

(** The loop over the open upvalues marks the objects of the list. *)
Lemma markOpenUpvalues_chain (fuel : nat) :
  forall vm (upvalue : option ObjPtr) vm',
    markOpenUpvalues markObj fuel vm upvalue = Returns vm'
    <-> exists chain,
          chainOf fuel vm upvalue = Returns chain
          /\ forEach markObj vm chain = Returns vm'.
Proof.
  induction fuel as [|fuel IH]; intros vm upvalue vm';
    cbn [markOpenUpvalues chainOf].
  { split; [discriminate | intros (chain & Hchain & _); discriminate]. }
  destruct upvalue as [p|].
  2:{ split; [intros [= <-]; exists []; auto|].
      intros (chain & [= <-] & Hall). exact Hall. }
  split.
  - intros Hloop. apply outcome_bind_returns in Hloop as (vm1 & Hone & Hloop).
    apply outcome_bind_returns in Hloop as (next & Hnext & Hloop).
    pose proof (markObj_same _ _ _ Hone) as Hsame.
    apply IH in Hloop as (chain & Hchain & Hall).
    rewrite (nextOf_same vm vm1 p Hsame) in Hnext.
    rewrite (chainOf_same fuel vm vm1 next Hsame) in Hchain.
    exists (Some p :: chain). rewrite Hnext. cbn [obind]. rewrite Hchain.
    cbn [obind forEach]. rewrite Hone. auto.
  - intros (chain & Hchain & Hall).
    apply outcome_bind_returns in Hchain as (next & Hnext & Hchain).
    apply outcome_bind_returns in Hchain as (rest & Hrest & [= <-]).
    cbn [forEach] in Hall.
    apply outcome_bind_returns in Hall as (vm1 & Hone & Hall).
    pose proof (markObj_same _ _ _ Hone) as Hsame.
    rewrite Hone. cbn [obind].
    rewrite (nextOf_same vm vm1 p Hsame), Hnext. cbn [obind].
    apply IH. exists rest. now rewrite (chainOf_same fuel vm vm1 next Hsame).
Qed.

(** What the marking function of an object does is to call [markObj] on
    the references of the object, one after the other. *)
Lemma returns_iff (m : outcome (WrenVM Value))
    (read : outcome (list (option ObjPtr))) (k : WrenVM Value -> WrenVM Value)
    vm (h : gmap Z (Object Value)) :
  m = obind read (fun refs =>
        obind (forEach markObj vm refs) (fun vm2 => Returns (k vm2))) ->
  (forall v, heap (k v) = heap v) ->
  (exists vm', m = Returns vm' /\ heap vm' = h)
  <-> exists refs vm2,
        read = Returns refs /\ forEach markObj vm refs = Returns vm2
        /\ heap vm2 = h.
Proof.
  intros -> Hk. split.
  - intros (vm' & Hm & Hh).
    apply outcome_bind_returns in Hm as (refs & Hread & Hm).
    apply outcome_bind_returns in Hm as (vm2 & Hall & [= <-]).
    exists refs, vm2. rewrite Hk in Hh. auto.
  - intros (refs & vm2 & -> & Hall & Hh). cbn [obind]. rewrite Hall.
    cbn [obind]. eexists. split; [reflexivity|]. now rewrite Hk.
Qed.

Ltac step_call :=
  rewrite ?obind_assoc;
  match goal with
  | |- obind ?m _ = obind ?m _ =>
      destruct m; cbn [obind forEach]; [|reflexivity..]
  end.

Lemma markFields_refs vm object (h : gmap Z (Object Value)) :
  (exists vm', markFields sizes markObj vm object = Returns vm' /\ heap vm' = h)
  <-> exists refs vm2,
        references vm object = Returns refs
        /\ forEach markObj vm refs = Returns vm2
        /\ heap vm2 = h.
Proof.
  unfold markFields, references.
  destruct (body object)
    as [superclass methods methodsCapacity numFields name
       | fn upvalues
       | frames stack openUpvalues caller error
       | constants numConstants sourcePath numUpvalues bytecodeLength
       | fields | elements | capacity entries | variables name
       | | length | closed next].
  - (* class *)
    eapply returns_iff.
    { unfold markClass. cbn [obind forEach].
      step_call. step_call.
      rewrite forEach_app, forEach_methods. step_call. step_call.
      reflexivity. }
    { intros v. reflexivity. }
  - (* closure *)
    unfold markClosure. split.
    + intros (vm' & Hm & Hh).
      apply outcome_bind_returns in Hm as (vm1 & Hfn & Hm).
      apply outcome_bind_returns in Hm as (n & Hn & Hm).
      apply outcome_bind_returns in Hm as (ups & Hups & Hm).
      apply outcome_bind_returns in Hm as (vm2 & Hall & [= <-]).
      rewrite (numUpvaluesOf_same vm vm1 fn (markObj_same _ _ _ Hfn)) in Hn.
      exists (fn :: ups), vm2. rewrite Hn. cbn [obind]. rewrite Hups.
      cbn [obind forEach]. rewrite Hfn. auto.
    + intros (refs & vm2 & Hread & Hall & Hh).
      apply outcome_bind_returns in Hread as (n & Hn & Hread).
      apply outcome_bind_returns in Hread as (ups & Hups & [= <-]).
      cbn [forEach] in Hall.
      apply outcome_bind_returns in Hall as (vm1 & Hfn & Hall).
      rewrite Hfn. cbn [obind].
      rewrite (numUpvaluesOf_same vm vm1 fn (markObj_same _ _ _ Hfn)), Hn.
      cbn [obind]. rewrite Hups. cbn [obind]. rewrite Hall. cbn [obind].
      eexists. split; [reflexivity | exact Hh].
  - (* fiber *)
    unfold markFiber. split.
    + intros (vm' & Hm & Hh).
      apply outcome_bind_returns in Hm as (vm1 & Hframes & Hm).
      apply outcome_bind_returns in Hm as (vm2 & Hstack & Hm).
      apply outcome_bind_returns in Hm as (vm3 & Hopen & Hm).
      apply outcome_bind_returns in Hm as (vm4 & Hcaller & Hm).
      apply outcome_bind_returns in Hm as (vm5 & Herror & [= <-]).
      rewrite forEach_values in Hstack.
      pose proof (forEach_same _ _ _ Hframes) as Hsame1.
      pose proof (forEach_same _ _ _ Hstack) as Hsame2.
      pose proof (sameObjects_trans _ _ _ Hsame1 Hsame2) as Hsame.
      apply markOpenUpvalues_chain in Hopen as (chain & Hchain & Hopen).
      rewrite (sameObjects_size vm vm2 Hsame) in Hchain.
      rewrite (chainOf_same _ vm vm2 _ Hsame) in Hchain.
      eexists _, vm5. rewrite Hchain. cbn [obind]. split; [reflexivity|].
      split; [|exact Hh].
      rewrite forEach_app, Hframes. cbn [obind].
      rewrite forEach_app, Hstack. cbn [obind].
      rewrite forEach_app, Hopen. cbn [obind forEach]. rewrite Hcaller.
      cbn [obind]. rewrite Herror. reflexivity.
    + intros (refs & vm5 & Hread & Hall & Hh).
      apply outcome_bind_returns in Hread as (chain & Hchain & [= <-]).
      rewrite forEach_app in Hall.
      apply outcome_bind_returns in Hall as (vm1 & Hframes & Hall).
      rewrite forEach_app in Hall.
      apply outcome_bind_returns in Hall as (vm2 & Hstack & Hall).
      rewrite forEach_app in Hall.
      apply outcome_bind_returns in Hall as (vm3 & Hopen & Hall).
      cbn [forEach] in Hall.
      apply outcome_bind_returns in Hall as (vm4 & Hcaller & Hall).
      apply outcome_bind_returns in Hall as (vm5' & Herror & [= <-]).
      pose proof (forEach_same _ _ _ Hframes) as Hsame1.
      pose proof (forEach_same _ _ _ Hstack) as Hsame2.
      pose proof (sameObjects_trans _ _ _ Hsame1 Hsame2) as Hsame.
      rewrite Hframes. cbn [obind]. rewrite forEach_values, Hstack.
      cbn [obind].
      assert (Hloop : markOpenUpvalues markObj (S (size (heap vm2))) vm2
                        openUpvalues = Returns vm3).
      { apply markOpenUpvalues_chain. exists chain.
        rewrite (sameObjects_size vm vm2 Hsame).
        rewrite (chainOf_same _ vm vm2 _ Hsame). auto. }
      rewrite Hloop. cbn [obind]. rewrite Hcaller. cbn [obind].
      rewrite Herror. cbn [obind]. eexists. split; [reflexivity | exact Hh].
  - (* function *)
    apply (returns_iff _ _
             (fun v =>
                addBytes
                  (addBytes
                     (addBytes (addBytes v (sizeof_ObjFn sizes))
                        (sizeof_uint8_t sizes * bytecodeLength))
                     (sizeof_Value sizes * numConstants))
                  (sizeof_int sizes * bytecodeLength))).
    { unfold markFn.
      destruct (readArray constants numConstants); cbn [obind];
      [|reflexivity..].
      rewrite forEach_app, forEach_values. step_call.
      destruct sourcePath; cbn [obind forEach]; [|reflexivity].
      step_call. reflexivity. }
    { intros v. reflexivity. }
  - (* instance *)
    unfold markInstance. split.
    + intros (vm' & Hm & Hh).
      apply outcome_bind_returns in Hm as (vm1 & Hclass & Hm).
      apply outcome_bind_returns in Hm as (n & Hn & Hm).
      apply outcome_bind_returns in Hm as (fs & Hfs & Hm).
      apply outcome_bind_returns in Hm as (vm2 & Hall & [= <-]).
      rewrite (numFieldsOf_same vm vm1 _ (markObj_same _ _ _ Hclass)) in Hn.
      rewrite forEach_values in Hall.
      exists (classObj object :: values fs), vm2. rewrite Hn. cbn [obind].
      rewrite Hfs. cbn [obind forEach]. rewrite Hclass. auto.
    + intros (refs & vm2 & Hread & Hall & Hh).
      apply outcome_bind_returns in Hread as (n & Hn & Hread).
      apply outcome_bind_returns in Hread as (fs & Hfs & [= <-]).
      cbn [forEach] in Hall.
      apply outcome_bind_returns in Hall as (vm1 & Hclass & Hall).
      rewrite Hclass. cbn [obind].
      rewrite (numFieldsOf_same vm vm1 _ (markObj_same _ _ _ Hclass)), Hn.
      cbn [obind]. rewrite Hfs. cbn [obind]. rewrite forEach_values, Hall.
      cbn [obind]. eexists. split; [reflexivity | exact Hh].
  - (* list *)
    eapply returns_iff.
    { unfold markList, markBuffer. rewrite obind_assoc.
      destruct (readArray _ _); cbn [obind]; [|reflexivity..].
      rewrite forEach_values. step_call. reflexivity. }
    { intros v. reflexivity. }
  - (* map *)
    eapply returns_iff.
    { unfold markMap.
      destruct (readArray _ _); cbn [obind]; [|reflexivity..].
      rewrite forEach_entries. step_call. reflexivity. }
    { intros v. reflexivity. }
  - (* module *)
    eapply returns_iff.
    { unfold markModule, markBuffer. rewrite obind_assoc.
      destruct (readArray _ _); cbn [obind]; [|reflexivity..].
      rewrite forEach_app, forEach_values. step_call. cbn [forEach].
      step_call. reflexivity. }
    { intros v. reflexivity. }
  - (* range *)
    apply (returns_iff _ _ (fun v => addBytes v (sizeof_ObjRange sizes)));
      [reflexivity | intros v; reflexivity].
  - (* string *)
    apply (returns_iff _ _
             (fun v => addBytes v (sizeof_ObjString sizes + length + 1)));
      [reflexivity | intros v; reflexivity].
  - (* upvalue *)
    eapply returns_iff.
    { unfold markUpvalue. cbn [obind]. rewrite <- forEach_values.
      cbn [forEach]. step_call. reflexivity. }
    { intros v. reflexivity. }
Qed.

End Fields.

Section Marks.
Context {Value : Type} `{ValueRep Value}.
Variable sizes : Sizes.
Implicit Types (vm : WrenVM Value) (object : Object Value) (p q r : ObjPtr).

Lemma sameObjects_of_heap vm vm' : heap vm' = heap vm -> sameObjects vm vm'.
Proof. intros Hheap p. rewrite Hheap. apply sameObjects_refl. Qed.

Lemma marksFrom_nil vm : marksFrom vm [] vm.
Proof.
  split; [apply sameObjects_refl|]. split; [intros r Hr; inversion Hr|].
  split; intros q Hq Hnot; contradiction.
Qed.

(** Marking the references one after the other, when each call does what
    marking from one root is to do. *)
Lemma forEach_marks
    (markObj : WrenVM Value -> option ObjPtr -> outcome (WrenVM Value)) :
  (forall vm obj vm', markObj vm obj = Returns vm' -> marksFrom vm [obj] vm') ->
  forall (refs : list (option ObjPtr)) vm vm',
    forEach markObj vm refs = Returns vm' -> marksFrom vm refs vm'.
Proof.
  intros Hcall. induction refs as [|ref refs IH]; intros vm vm';
    cbn [forEach].
  - intros [= <-]. apply marksFrom_nil.
  - intros Hall. apply outcome_bind_returns in Hall as (vm1 & Hone & Hall).
    destruct (Hcall _ _ _ Hone) as (Hsame1 & Hroot1 & Hclosed1 & Hreach1).
    destruct (IH _ _ Hall) as (Hsame & Hroots & Hclosed & Hreach).
    split; [eapply sameObjects_trans; eassumption|]. split; [|split].
    + intros r Hr. apply elem_of_cons in Hr as [<- | Hr]; [|now apply Hroots].
      apply (isMarked_same vm1 vm' r Hsame). apply Hroot1.
      now apply list_elem_of_singleton.
    + intros q Hq Hnot. destruct (isMarked_dec vm1 q) as [Hq1 | Hnot1].
      * apply (refsMarked_same vm1 vm' q Hsame). now apply Hclosed1.
      * now apply Hclosed.
    + intros q Hq Hnot. destruct (isMarked_dec vm1 q) as [Hq1 | Hnot1].
      * destruct (Hreach1 q Hq1 Hnot) as (r & Hr & Hpath).
        apply list_elem_of_singleton in Hr as <-.
        exists r. split; [left | exact Hpath].
      * destruct (Hreach q Hq Hnot1) as (r & Hr & Hpath).
        exists r. split; [now right|].
        now apply (reaches_same vm vm1).
Qed.

Lemma setMarked_same vm p object :
  heap vm !! p = Some object -> sameObjects vm (setMarked vm p object).
Proof.
  intros Hp q. cbn [heap setMarked].
  destruct (decide (q = p)) as [->|Hne].
  - rewrite lookup_insert_eq, Hp. constructor. repeat split; auto.
  - rewrite lookup_insert_ne by congruence.
    destruct (heap vm !! q); constructor. apply keeps_refl.
Qed.

Lemma setMarked_marked vm p object : isMarked (setMarked vm p object) p.
Proof. eexists. cbn [heap setMarked]. rewrite lookup_insert_eq. eauto. Qed.

Lemma setMarked_others vm p q object :
  q <> p -> isMarked (setMarked vm p object) q -> isMarked vm q.
Proof.
  intros Hne (o & Hq & Hmarked). cbn [heap setMarked] in Hq.
  rewrite lookup_insert_ne in Hq by congruence. exists o. auto.
Qed.

(** [wrenMarkObj], for any fuel with which it returns. *)
Lemma markObjFuel_marks (fuel : nat) :
  forall vm (obj : option ObjPtr) vm',
    markObjFuel sizes fuel vm obj = Returns vm' -> marksFrom vm [obj] vm'.
Proof.
  induction fuel as [|fuel IH]; intros vm obj vm'; cbn [markObjFuel];
    [discriminate|].
  destruct obj as [p|].
  2:{ intros [= <-]. split; [apply sameObjects_refl|].
      split; [intros r Hr; apply list_elem_of_singleton in Hr; discriminate|].
      split; intros q Hq Hnot; contradiction. }
  destruct (heap vm !! p) as [object|] eqn:Hp; [|discriminate].
  destruct (marked object) eqn:Hmarked.
  { intros [= <-]. split; [apply sameObjects_refl|]. split.
    - intros r Hr. apply list_elem_of_singleton in Hr as [= <-].
      exists object. auto.
    - split; intros q Hq Hnot; contradiction. }
  intros Hfields.
  set (vm1 := setMarked vm p object) in *.
  assert (Hpres : forall v v' o,
            markObjFuel sizes fuel v o = Returns v' -> sameObjects v v')
    by (intros v v' o Hcall; apply (IH _ _ _ Hcall)).
  destruct (proj1 (markFields_refs sizes (markObjFuel sizes fuel) Hpres
                     vm1 object (heap vm')))
    as (refs & vm2 & Hrefs & Hall & Hheap); [eauto|].
  destruct (forEach_marks _ IH _ _ _ Hall)
    as (Hsame12 & Hroots & Hclosed & Hreach).
  pose proof (setMarked_same vm p object Hp) as Hsame01. fold vm1 in Hsame01.
  pose proof (sameObjects_of_heap vm2 vm' (eq_sym Hheap)) as Hsame2'.
  assert (Hsame1' : sameObjects vm1 vm')
    by (eapply sameObjects_trans; eassumption).
  assert (Hrefs0 : references vm object = Returns refs).
  { rewrite <- Hrefs. symmetry.
    apply references_same; [exact Hsame01 | apply keeps_refl]. }
  split; [eapply sameObjects_trans; eassumption|]. split; [|split].
  - intros r Hr. apply list_elem_of_singleton in Hr as [= <-].
    apply (isMarked_same vm1 vm' r Hsame1'). apply setMarked_marked.
  - intros q Hq Hnot. destruct (decide (q = p)) as [->|Hne].
    + intros object' refs' r Hp' Hread Hr.
      destruct (sameObjects_lookup_back vm vm' p object'
                  ltac:(eapply sameObjects_trans; eassumption) Hp')
        as (object0 & Hp0 & Hkeeps).
      rewrite Hp in Hp0. injection Hp0 as <-.
      rewrite (references_same vm vm' object object'
                 ltac:(eapply sameObjects_trans; eassumption) Hkeeps),
        Hrefs0 in Hread.
      injection Hread as <-.
      apply (isMarked_same vm2 vm' r Hsame2'). now apply Hroots.
    + apply (refsMarked_same vm2 vm' q Hsame2'). apply Hclosed.
      * destruct Hq as (o & Hq & Ho). exists o. rewrite Hheap. auto.
      * intros Hq1. apply Hnot. now apply (setMarked_others vm p q object).
  - intros q Hq Hnot. destruct (decide (q = p)) as [->|Hne].
    + exists p. split; [left | constructor].
    + destruct (Hreach q) as (r & Hr & Hpath).
      * destruct Hq as (o & Hq & Ho). exists o. rewrite Hheap. auto.
      * intros Hq1. apply Hnot. now apply (setMarked_others vm p q object).
      * exists p. split; [left|].
        apply (reaches_on vm p r q object refs Hp Hrefs0 Hr).
        now apply (reaches_same vm vm1).
Qed.

End Marks.

Section Returns.
Context {Value : Type} `{ValueRep Value}.
Variable sizes : Sizes.
Implicit Types (vm : WrenVM Value) (object : Object Value) (p q r : ObjPtr).

Lemma elem_of_unmarked vm p :
  p ∈ unmarked vm
  <-> exists object, heap vm !! p = Some object /\ marked object = false.
Proof.
  unfold unmarked. rewrite elem_of_dom. unfold is_Some.
  split; intros [object Hp]; exists object;
    apply map_lookup_filter_Some in Hp || apply map_lookup_filter_Some;
    exact Hp.
Qed.

Lemma unmarked_same vm vm' :
  sameObjects vm vm' -> unmarked vm' ⊆ unmarked vm.
Proof.
  intros Hsame p. rewrite !elem_of_unmarked. intros (object' & Hp' & Hmarked').
  destruct (sameObjects_lookup_back vm vm' p object' Hsame Hp')
    as (object & Hp & _ & _ & Hkeeps).
  exists object. split; [exact Hp|].
  destruct (marked object); [|reflexivity].
  rewrite Hkeeps in Hmarked' by reflexivity. discriminate.
Qed.

Lemma unmarked_setMarked vm p object :
  heap vm !! p = Some object -> marked object = false ->
  (size (unmarked (setMarked vm p object)) < size (unmarked vm))%nat.
Proof.
  intros Hp Hmarked. apply subset_size. split.
  - apply unmarked_same, setMarked_same, Hp.
  - intros Hall.
    assert (Hin : p ∈ unmarked (setMarked vm p object))
      by (apply Hall, elem_of_unmarked; eauto).
    apply elem_of_unmarked in Hin as (o & Ho & Hfalse).
    cbn [heap setMarked] in Ho. rewrite lookup_insert_eq in Ho.
    injection Ho as <-. discriminate Hfalse.
Qed.

Lemma unmarked_size vm : (size (unmarked vm) <= size (heap vm))%nat.
Proof.
  rewrite <- size_dom. apply subseteq_size. intros p.
  rewrite elem_of_unmarked, elem_of_dom. intros (object & Hp & _). eauto.
Qed.

Lemma reaches_same_on vm vm' p q :
  sameObjects vm vm' -> reaches vm p q -> reaches vm' p q.
Proof.
  intros Hsame Hreach.
  induction Hreach as [p | p q r object refs Hp Hrefs Hq _ IH];
    [constructor|].
  destruct (sameObjects_lookup vm vm' p object Hsame Hp)
    as (object' & Hp' & Hkeeps).
  rewrite <- (references_same vm vm' object object' Hsame Hkeeps) in Hrefs.
  eapply reaches_on; eassumption.
Qed.

Lemma heapClosed_same vm vm' :
  sameObjects vm vm' -> heapClosed vm -> heapClosed vm'.
Proof.
  intros Hsame Hclosed p object' Hp'.
  destruct (sameObjects_lookup_back vm vm' p object' Hsame Hp')
    as (object & Hp & Hkeeps).
  destruct (Hclosed p object Hp) as (refs & Hrefs & Hin).
  exists refs. rewrite (references_same vm vm' object object' Hsame Hkeeps).
  split; [exact Hrefs|]. intros r Hr.
  destruct (Hin r Hr) as [o Ho].
  destruct (sameObjects_lookup vm vm' r o Hsame Ho) as (o' & Ho' & _). eauto.
Qed.

(** On a closed heap [wrenMarkObj] returns when the fuel exceeds the number
    of objects that are not marked. *)
Lemma markObjFuel_returns (fuel : nat) :
  forall vm (obj : option ObjPtr),
    heapClosed vm ->
    (forall p, obj = Some p -> is_Some (heap vm !! p)) ->
    (size (unmarked vm) < fuel)%nat ->
    exists vm', markObjFuel sizes fuel vm obj = Returns vm'.
Proof.
  induction fuel as [|fuel IH]; intros vm obj Hclosed Hobj Hfuel; [lia|].
  cbn [markObjFuel]. destruct obj as [p|]; [|eauto].
  destruct (Hobj p eq_refl) as [object Hp]. rewrite Hp.
  destruct (marked object) eqn:Hmarked; [eauto|].
  set (vm1 := setMarked vm p object).
  pose proof (setMarked_same vm p object Hp) as Hsame01. fold vm1 in Hsame01.
  pose proof (unmarked_setMarked vm p object Hp Hmarked) as Hless.
  fold vm1 in Hless.
  destruct (Hclosed p object Hp) as (refs & Hrefs & Hin).
  assert (Hrefs1 : references vm1 object = Returns refs).
  { rewrite <- Hrefs. apply references_same; [exact Hsame01 | apply keeps_refl]. }
  assert (Hpres : forall v v' o,
            markObjFuel sizes fuel v o = Returns v' -> sameObjects v v')
    by (intros v v' o Hcall; apply (markObjFuel_marks sizes _ _ _ _ Hcall)).
  assert (Hall : forall (rest : list (option ObjPtr)) v,
            (forall r, Some r ∈ rest -> Some r ∈ refs) ->
            sameObjects vm1 v ->
            exists v', forEach (markObjFuel sizes fuel) v rest = Returns v').
  { induction rest as [|ref rest IHrest]; intros v Hrest Hsame; [cbn; eauto|].
    cbn [forEach].
    destruct (IH v ref) as [v1 Hone].
    - apply (heapClosed_same vm v); [|exact Hclosed].
      eapply sameObjects_trans; eassumption.
    - intros r ->. destruct (Hin r) as [o Ho]; [apply Hrest; left|].
      destruct (sameObjects_lookup vm v r o
                  ltac:(eapply sameObjects_trans; eassumption) Ho)
        as (o' & Ho' & _). eauto.
    - pose proof (subseteq_size _ _ (unmarked_same vm1 v Hsame)). lia.
    - rewrite Hone. cbn [obind]. apply IHrest.
      + intros r Hr. apply Hrest. now right.
      + eapply sameObjects_trans; [exact Hsame | eapply Hpres; exact Hone]. }
  destruct (Hall refs vm1 ltac:(auto) (sameObjects_refl vm1)) as [vm2 Hmarked2].
  destruct (proj2 (markFields_refs sizes (markObjFuel sizes fuel) Hpres
                     vm1 object (heap vm2))) as (vm' & Hfields & _); [eauto|].
  eauto.
Qed.

End Returns.

Section Theorems.
Context {Value : Type} `{ValueRep Value}.
Variable sizes : Sizes.
Implicit Types (vm : WrenVM Value) (object : Object Value) (p q r : ObjPtr).

(** X23. [wrenMarkObj] changes nothing of the heap but marks: every object
    is still there with the same fields and the same class, no object is
    added, a marked object stays marked, and the object it is called on is
    marked when it returns. *)
Theorem wrenMarkObj_marks_only vm (obj : option ObjPtr) vm' :
  wrenMarkObj sizes vm obj = Returns vm' ->
  (forall p, option_Forall2 keeps (heap vm !! p) (heap vm' !! p))
  /\ (forall p, obj = Some p -> isMarked vm' p).
Proof.
  intros Hcall.
  destruct (markObjFuel_marks sizes _ _ _ _ Hcall) as (Hsame & Hroot & _).
  split; [exact Hsame|]. intros p ->. apply Hroot. left.
Qed.

Lemma marks_closed vm (root : ObjPtr) vm' :
  wrenMarkObj sizes vm (Some root) = Returns vm' ->
  closedMarks vm ->
  closedMarks vm'
  /\ forall q, reaches vm' root q -> isMarked vm' q.
Proof.
  intros Hcall Hclosed.
  destruct (markObjFuel_marks sizes _ _ _ _ Hcall)
    as (Hsame & Hroot & Hnew & _).
  assert (Hclosed' : closedMarks vm').
  { intros q Hq. destruct (isMarked_dec vm q) as [Hold | Hnot].
    - apply (refsMarked_same vm vm' q Hsame). now apply Hclosed.
    - now apply Hnew. }
  split; [exact Hclosed'|].
  assert (Hpaths : forall p q, reaches vm' p q -> isMarked vm' p -> isMarked vm' q).
  { intros p q Hreach.
    induction Hreach as [p | p q r object refs Hp Hrefs Hq _ IH]; [auto|].
    intros Hmarked. apply IH.
    apply (Hclosed' p Hmarked object refs q Hp Hrefs Hq). }
  intros q Hreach. apply (Hpaths root q Hreach). apply Hroot. left.
Qed.

(** X24. [wrenMarkObj] keeps the marks closed: when every marked object
    refers to marked objects only before the call, so it is after the call,
    and every object that can be reached from the root along references is
    then marked. Marking the roots one after the other therefore marks
    every object that is in use. *)
Theorem wrenMarkObj_closed vm (root : ObjPtr) vm' :
  wrenMarkObj sizes vm (Some root) = Returns vm' ->
  closedMarks vm ->
  closedMarks vm'
  /\ forall q, reaches vm' root q -> isMarked vm' q.
Proof. apply marks_closed. Qed.

(** X25. On a heap without marks, [wrenMarkObj] marks exactly the objects
    that are reached from the root along references: each of them, and no
    other. *)
Theorem wrenMarkObj_exact vm (root : ObjPtr) vm' :
  (forall p object, heap vm !! p = Some object -> marked object = false) ->
  wrenMarkObj sizes vm (Some root) = Returns vm' ->
  forall q, isMarked vm' q <-> reaches vm root q.
Proof.
  intros Hnone Hcall q.
  assert (Hnot : forall p, ~ isMarked vm p).
  { intros p (object & Hp & Hmarked). rewrite (Hnone p object Hp) in Hmarked.
    discriminate. }
  destruct (markObjFuel_marks sizes _ _ _ _ Hcall)
    as (Hsame & _ & _ & Hreach).
  split.
  - intros Hq. destruct (Hreach q Hq (Hnot q)) as (r & Hr & Hpath).
    apply list_elem_of_singleton in Hr as [= <-]. exact Hpath.
  - intros Hpath.
    destruct (marks_closed vm root vm' Hcall) as [_ Hall].
    + intros p Hp. destruct (Hnot p Hp).
    + apply Hall. now apply (reaches_same_on vm vm').
Qed.

(** X26. On a heap whose references can all be read and are all to objects
    of the heap, [wrenMarkObj] returns: the calls inside calls end, since
    each marks one more object. *)
Theorem wrenMarkObj_returns vm (obj : option ObjPtr) :
  heapClosed vm ->
  (forall p, obj = Some p -> is_Some (heap vm !! p)) ->
  exists vm', wrenMarkObj sizes vm obj = Returns vm'.
Proof.
  intros Hclosed Hobj. apply markObjFuel_returns; [exact Hclosed | exact Hobj|].
  pose proof (unmarked_size vm). lia.
Qed.

End Theorems.

Ltac no_marks :=
  change (map_Forall (fun _ object => marked object = false)
            (heap Examples.gcVm));
  unfold Examples.gcVm; cbn [heap];
  repeat (apply map_Forall_insert_2; [reflexivity|]);
  apply map_Forall_empty.

Ltac refs_in_heap :=
  let r := fresh "r" in
  let Hr := fresh "Hr" in
  intros r Hr;
  repeat (apply elem_of_cons in Hr as [Hr | Hr];
          [try discriminate Hr; injection Hr as ->; eexists; vm_compute;
           reflexivity|]);
  inversion Hr.

Lemma wrenMarkObj_marks_only_witness :
  exists vm',
    wrenMarkObj Examples.gcSizes Examples.gcVm (Some 32) = Returns vm'
    /\ isMarked vm' 32.
Proof.
  destruct (wrenMarkObj Examples.gcSizes Examples.gcVm (Some 32))
    as [vm'| |] eqn:Hcall; [|vm_compute in Hcall; discriminate Hcall..].
  exists vm'. split; [reflexivity|].
  destruct (wrenMarkObj_marks_only Examples.gcSizes Examples.gcVm (Some 32)
              vm' Hcall) as [_ Hroot].
  now apply Hroot.
Defined.

Lemma wrenMarkObj_closed_witness :
  exists vm',
    wrenMarkObj Examples.gcSizes Examples.gcVm (Some 32) = Returns vm'
    /\ closedMarks vm'.
Proof.
  destruct (wrenMarkObj Examples.gcSizes Examples.gcVm (Some 32))
    as [vm'| |] eqn:Hcall; [|vm_compute in Hcall; discriminate Hcall..].
  exists vm'. split; [reflexivity|].
  apply (wrenMarkObj_closed Examples.gcSizes Examples.gcVm 32 vm' Hcall).
  assert (Hnone : forall p object,
            heap Examples.gcVm !! p = Some object -> marked object = false)
    by no_marks.
  intros p (object & Hp & Hmarked).
  rewrite (Hnone p object Hp) in Hmarked. discriminate Hmarked.
Defined.

Lemma wrenMarkObj_exact_witness :
  exists vm',
    wrenMarkObj Examples.gcSizes Examples.gcVm (Some 32) = Returns vm'
    /\ isMarked vm' 16.
Proof.
  destruct (wrenMarkObj Examples.gcSizes Examples.gcVm (Some 32))
    as [vm'| |] eqn:Hcall; [|vm_compute in Hcall; discriminate Hcall..].
  exists vm'. split; [reflexivity|].
  apply (wrenMarkObj_exact Examples.gcSizes Examples.gcVm 32 vm');
    [no_marks | exact Hcall |].
  eapply reaches_on;
    [vm_compute; reflexivity | vm_compute; reflexivity | left |].
  eapply reaches_on;
    [vm_compute; reflexivity | vm_compute; reflexivity
    | right; right; left | constructor].
Defined.

Lemma wrenMarkObj_returns_witness :
  exists vm', wrenMarkObj Examples.gcSizes Examples.gcVm (Some 8) = Returns vm'.
Proof.
  apply (wrenMarkObj_returns Examples.gcSizes Examples.gcVm (Some 8)).
  - change (map_Forall
              (fun (_ : Z) (object : Object UnionValue) =>
                 exists refs,
                   references Examples.gcVm object = Returns refs
                   /\ forall r : ObjPtr,
                        Some r ∈ refs -> is_Some (heap Examples.gcVm !! r))
              (heap Examples.gcVm)).
    unfold Examples.gcVm at 3. cbn [heap].
    repeat (apply map_Forall_insert_2;
            [eexists; split; [vm_compute; reflexivity | refs_in_heap]|]).
    apply map_Forall_empty.
  - intros p [= <-]. eexists. vm_compute. reflexivity.
Defined.

Section Buffers.
Context {Value : Type} `{ValueRep Value}.
Variable sizes : Sizes.
Implicit Types (vm : WrenVM Value) (object : Object Value) (p q r : ObjPtr).

(** X27. [wrenMarkBuffer] reads the first [count] elements of the buffer
    and no other: a count beyond the array is a read outside it; when it
    returns, the elements that are objects are marked, the marks are still
    closed, and an object that got its mark is reached from an element. *)
Theorem wrenMarkBuffer_marks vm (buffer : ObjList.ValueBuffer Value) vm' :
  wrenMarkBuffer sizes vm buffer = Returns vm' ->
  ObjList.count buffer <= Z.of_nat (length (ObjList.data buffer))
  /\ (forall (i : nat) (v : Value),
        Z.of_nat i < ObjList.count buffer ->
        ObjList.data buffer !! i = Some v -> IS_OBJ v = true ->
        isMarked vm' (AS_OBJ v))
  /\ (closedMarks vm -> closedMarks vm')
  /\ (forall q, isMarked vm' q -> ~ isMarked vm q ->
        exists (i : nat) (v : Value),
          Z.of_nat i < ObjList.count buffer
          /\ ObjList.data buffer !! i = Some v /\ IS_OBJ v = true
          /\ reaches vm (AS_OBJ v) q).
Proof.
  unfold wrenMarkBuffer, markBuffer, readArray. intros Hcall.
  destruct (Z.ltb_spec (Z.of_nat (length (ObjList.data buffer)))
              (ObjList.count buffer)) as [|Hcount]; [discriminate|].
  cbn [obind] in Hcall. rewrite forEach_values in Hcall.
  destruct (forEach_marks (wrenMarkObj sizes)
              (fun v o v' => markObjFuel_marks sizes _ v o v') _ _ _ Hcall)
    as (Hsame & Hroots & Hnew & Hreach).
  assert (Hvalues : forall r : ObjPtr,
            Some r ∈ values (take (Z.to_nat (ObjList.count buffer))
                               (ObjList.data buffer))
            <-> exists (i : nat) (v : Value),
                  Z.of_nat i < ObjList.count buffer
                  /\ ObjList.data buffer !! i = Some v /\ IS_OBJ v = true
                  /\ r = AS_OBJ v).
  { intros r. unfold values. rewrite list_elem_of_In, in_flat_map. split.
    - intros (v & Hv & Hr). apply list_elem_of_In, list_elem_of_lookup in Hv
        as [i Hi].
      apply lookup_take_Some in Hi as [Hi Hlt].
      destruct (IS_OBJ v) eqn:Hobj; [|destruct Hr].
      destruct Hr as [[= <-] | []]. exists i, v.
      split; [lia | auto].
    - intros (i & v & Hi & Hv & Hobj & ->). exists v. split.
      + apply list_elem_of_In, list_elem_of_lookup. exists i.
        apply lookup_take_Some. split; [exact Hv | lia].
      + rewrite Hobj. now left. }
  split; [exact Hcount|]. split; [|split].
  - intros i v Hi Hv Hobj. apply Hroots, Hvalues. eauto 10.
  - intros Hclosed q Hq. destruct (isMarked_dec vm q) as [Hold | Hnot].
    + apply (refsMarked_same vm vm' q Hsame). now apply Hclosed.
    + now apply Hnew.
  - intros q Hq Hnot. destruct (Hreach q Hq Hnot) as (r & Hr & Hpath).
    apply Hvalues in Hr as (i & v & Hi & Hv & Hobj & ->). eauto 10.
Qed.

End Buffers.

Lemma wrenMarkBuffer_marks_witness :
  exists vm',
    wrenMarkBuffer Examples.gcSizes Examples.gcVm
      {| ObjList.data := [VAL_OBJ 16; VAL_NULL];
         ObjList.count := 1; ObjList.capacity := 2 |} = Returns vm'
    /\ isMarked vm' 16.
Proof.
  destruct (wrenMarkBuffer Examples.gcSizes Examples.gcVm
              {| ObjList.data := [VAL_OBJ 16; VAL_NULL];
                 ObjList.count := 1; ObjList.capacity := 2 |})
    as [vm'| |] eqn:Hcall; [|vm_compute in Hcall; discriminate Hcall..].
  exists vm'. split; [reflexivity|].
  destruct (wrenMarkBuffer_marks Examples.gcSizes Examples.gcVm _ vm' Hcall)
    as (_ & Hmarked & _).
  apply (Hmarked O (VAL_OBJ 16)); [cbn; lia | reflexivity | reflexivity].
Defined.

End GcFacts.
